(** * MCP Router: a Rocq model of the OAuth, tool-filter and server-manager core

  The development embeds the TypeScript sources of the router shallowly:
  pure helpers become functions, repositories and services become
  state-passing functions over explicit records, and the asynchronous
  token refresh and server start become step functions over the events
  of the JavaScript event loop.  Every definition names the source
  function it follows. *)

From Stdlib Require Import ZArith NArith Ascii String List Lia Bool.
From stdpp Require Import base option list strings gmap pretty sorting.

Local Open Scope string_scope.
Local Open Scope list_scope.

(* ===================================================================== *)
(** * Random strings (oauth-encryption.ts, [generateSecureRandom])       *)
(* ===================================================================== *)

Module SecureRandom.

(** The alphabet of Node's ["base64url"] encoding. *)
Definition alphabet : list ascii :=
  list_ascii_of_string
    "ABCDEFGHIJKLMNOPQRSTUVWXYZabcdefghijklmnopqrstuvwxyz0123456789-_".

Definition sextet (n : N) : ascii := nth (N.to_nat n) alphabet "?"%char.

Definition b (x : Byte.byte) : N := Byte.to_N x.

(** [Buffer.toString("base64url")]: three bytes give four characters, a
    tail of one or two bytes gives two or three characters, and no
    padding is written. *)
Fixpoint base64url (bs : list Byte.byte) : list ascii :=
  match bs with
  | [] => []
  | [x] => [sextet (b x / 4); sextet ((b x mod 4) * 16)]
  | [x; y] =>
      [sextet (b x / 4); sextet ((b x mod 4) * 16 + b y / 16);
       sextet ((b y mod 16) * 4)]
  | x :: y :: z :: rest =>
      sextet (b x / 4) :: sextet ((b x mod 4) * 16 + b y / 16)
      :: sextet ((b y mod 16) * 4 + b z / 64) :: sextet (b z mod 64)
      :: base64url rest
  end%N.

(** Position of a character in a list. *)
Fixpoint index_of (c : ascii) (l : list ascii) : nat :=
  match l with
  | [] => 0
  | x :: rest => if Ascii.eqb c x then 0 else S (index_of c rest)
  end.

(** The six bits a base64url character stands for. *)
Definition unsextet (c : ascii) : N := N.of_nat (index_of c alphabet).

(** [crypto.randomBytes(n)]: the operating system's entropy is the
    function [rng]; byte [i] of the buffer is [rng i]. *)
Definition randomBytes (n : nat) (rng : nat -> Byte.byte) : list Byte.byte :=
  map rng (seq 0 n).

(** [generateSecureRandom(length)]:
    [crypto.randomBytes(length).toString("base64url").slice(0, length)]. *)
Definition generateSecureRandom (length : nat) (rng : nat -> Byte.byte)
  : list ascii :=
  take length (base64url (randomBytes length rng)).

(** [OAUTH_CONSTANTS] (oauth-types.ts). *)
Definition STATE_LENGTH : nat := 32.
Definition VERIFIER_LENGTH : nat := 64.

(** The two calls of [initiateAuthFlow] (oauth-flow.ts). *)
Definition oauth_state (rng : nat -> Byte.byte) : list ascii :=
  generateSecureRandom STATE_LENGTH rng.
Definition pkce_verifier (rng : nat -> Byte.byte) : list ascii :=
  generateSecureRandom VERIFIER_LENGTH rng.

(** Number of leading random bytes that can influence the first [n]
    characters: whole groups of three bytes per four characters. *)
Definition bytes_used (n : nat) : nat := 3 * ((n + 3) / 4).

End SecureRandom.

(* ===================================================================== *)
(** * JavaScript values shared by the models                              *)
(* ===================================================================== *)

(** An optional string ([string | undefined | null]) is truthy when it is
  present and not empty. *)
Definition truthy (o : option string) : bool :=
match o with
| Some s => negb (String.eqb s "")
| None => false
end.

Global Instance byte_eq_dec : EqDecision Byte.byte.
Proof.
  intros x y. destruct (Byte.eqb x y) eqn:E;
    [left; by apply Byte.byte_dec_bl | right; by apply Byte.eqb_false].
Defined.

(** [x || null] on an optional string. *)
Definition or_null (o : option string) : option string :=
if truthy o then o else None.

(** [Array.prototype.sort] with a comparator, and [ORDER BY] over the rows
    of a table in row order: a stable sort.  [before x y] tells that [x]
    may stand in front of [y] (the comparator is not positive); elements
    that tie keep the order they had. *)
Fixpoint insert_sorted {A} (before : A -> A -> bool) (x : A) (l : list A)
    : list A :=
  match l with
  | [] => [x]
  | y :: rest =>
      if before x y then x :: y :: rest
      else y :: insert_sorted before x rest
  end.

Definition stable_sort {A} (before : A -> A -> bool) (l : list A) : list A :=
  foldr (insert_sorted before) [] l.

(* ===================================================================== *)
(** * Tool preferences (server-tools-repository.ts, tool-filter-service.ts) *)
(* ===================================================================== *)

Module Tools.

(** [ServerTool] (tool-types.ts); a row of table [server_tools]. *)
Record ServerTool := mkServerTool {
  id : string;
  serverId : string;
  toolName : string;
  clientId : option string;          (* NULL = global preference *)
  enabled : bool;
  originalDescription : option string;
  customName : option string;
  customDescription : option string;
  createdAt : Z;
  updatedAt : Z
}.

(** [ToolPreferenceUpdate] (tool-types.ts). *)
Record ToolPreferenceUpdate := mkUpdate {
  u_toolName : string;
  u_clientId : option string;
  u_enabled : bool;
  u_originalDescription : option string;
  u_customName : option string;
  u_customDescription : option string
}.

Global Instance ServerTool_eq_dec : EqDecision ServerTool.
Proof. solve_decision. Defined.

(** The table, in row order; [stmt.get] returns the first row selected. *)
Abbreviation Table := (list ServerTool).

(** [WHERE server_id = ? AND tool_name = ? AND client_id = ?] *)
Definition client_row (sid tn cid : string) (r : ServerTool) : bool :=
  bool_decide (serverId r = sid) && bool_decide (toolName r = tn)
  && bool_decide (clientId r = Some cid).

(** [WHERE server_id = ? AND tool_name = ? AND client_id IS NULL] *)
Definition global_row (sid tn : string) (r : ServerTool) : bool :=
  bool_decide (serverId r = sid) && bool_decide (toolName r = tn)
  && bool_decide (clientId r = None).

(** [ServerToolsRepository.getServerTool]. *)
Definition getServerTool (db : Table) (sid tn : string)
    (cid : option string) : option ServerTool :=
  match or_null cid with
  | Some c =>
      (* First try to get client-specific preference *)
      match find (client_row sid tn c) db with
      | Some clientRow => Some clientRow
      | None =>
          (* Fall back to global preference *)
          find (global_row sid tn) db
      end
  | None =>
      (* Get only global preference *)
      find (global_row sid tn) db
  end.

(** The [WHERE] clause shared by the two [UPDATE]s of
    [upsertToolPreference]. *)
Definition scope_row (sid tn : string) (cid : option string)
    (r : ServerTool) : bool :=
  match or_null cid with
  | Some c => client_row sid tn c r
  | None => global_row sid tn r
  end.

(** [COALESCE(?, original_description)] *)
Definition coalesce (new old : option string) : option string :=
  match new with Some _ => new | None => old end.

(** [ServerToolsRepository.upsertToolPreference]; [now] is [Date.now()]
    and [uuid] the fresh [uuidv4()]. *)
Definition upsertToolPreference (db : Table) (sid : string)
    (p : ToolPreferenceUpdate) (now : Z) (uuid : string)
    : Table * option ServerTool :=
  let db' :=
    match getServerTool db sid (u_toolName p) (u_clientId p) with
    | Some _ =>
        (* Update existing *)
        map (fun r =>
               if scope_row sid (u_toolName p) (u_clientId p) r then
                 mkServerTool (id r) (serverId r) (toolName r) (clientId r)
                   (u_enabled p)
                   (coalesce (or_null (u_originalDescription p))
                      (originalDescription r))
                   (or_null (u_customName p))
                   (or_null (u_customDescription p))
                   (createdAt r) now
               else r) db
    | None =>
        (* Insert new *)
        db ++ [mkServerTool uuid sid (u_toolName p) (or_null (u_clientId p))
                 (u_enabled p) (or_null (u_originalDescription p))
                 (or_null (u_customName p)) (or_null (u_customDescription p))
                 now now]
    end in
  (db', getServerTool db' sid (u_toolName p) (u_clientId p)).

(** [UPDATE server_tools SET enabled = ?, updated_at = ? WHERE server_id = ?] *)
Definition set_enabled_where_server (flag : bool) (db : Table)
    (sid : string) (now : Z) : Table :=
  map (fun r =>
         if bool_decide (serverId r = sid) then
           mkServerTool (id r) (serverId r) (toolName r) (clientId r) flag
             (originalDescription r) (customName r) (customDescription r)
             (createdAt r) now
         else r) db.

(** [ServerToolsRepository.enableAllTools] and [.disableAllTools]. *)
Definition repo_enableAllTools := set_enabled_where_server true.
Definition repo_disableAllTools := set_enabled_where_server false.

(** [ServerToolsRepository.deleteServerToolPreferences]:
    [DELETE FROM server_tools WHERE server_id = ?]; the result is
    [changes > 0]. *)
Definition deleteServerToolPreferences (db : Table) (sid : string)
    : Table * bool :=
  let db' := filter (fun r => serverId r <> sid) db in
  (db', negb (Nat.eqb (length db') (length db))).

(** The service: the table behind the repository and
    [toolPreferencesCache : Map<string, Map<string, ServerTool>>]. *)
Record ToolFilterService := mkService {
  rows : Table;
  toolPreferencesCache : gmap string (gmap string ServerTool)
}.

(** [`${serverId}:${clientId || "global"}`] *)
Definition cacheKey (sid : string) (cid : option string) : string :=
  sid +:+ ":" +:+ default "global" (or_null cid).

(** [ToolFilterService.updateCache]. *)
Definition updateCache (cache : gmap string (gmap string ServerTool))
    (key tn : string) (p : ServerTool) : gmap string (gmap string ServerTool) :=
  <[key := <[tn := p]> (default ∅ (cache !! key))]> cache.

(** [ToolFilterService.getToolPreference]. *)
Definition getToolPreference (svc : ToolFilterService) (sid tn : string)
    (cid : option string) : option ServerTool * ToolFilterService :=
  let key := cacheKey sid cid in
  match toolPreferencesCache svc !! key ≫= (fun m => m !! tn) with
  | Some cached => (Some cached, svc)
  | None =>
      (* Get from database *)
      match getServerTool (rows svc) sid tn cid with
      | Some preference =>
          (* Update cache if found *)
          (Some preference,
           mkService (rows svc)
             (updateCache (toolPreferencesCache svc) key tn preference))
      | None => (None, svc)
      end
  end.

(** [ToolFilterService.isToolEnabled]:
    [preference ? preference.enabled : true]. *)
Definition isToolEnabled (svc : ToolFilterService) (sid tn : string)
    (cid : option string) : bool * ToolFilterService :=
  let '(preference, svc') := getToolPreference svc sid tn cid in
  (match preference with Some p => enabled p | None => true end, svc').

(** [ToolFilterService.updateToolPreference]. *)
Definition updateToolPreference (svc : ToolFilterService) (sid : string)
    (p : ToolPreferenceUpdate) (now : Z) (uuid : string)
    : option ServerTool * ToolFilterService :=
  let '(db', result) := upsertToolPreference (rows svc) sid p now uuid in
  match result with
  | Some r =>
      (Some r,
       mkService db'
         (updateCache (toolPreferencesCache svc)
            (cacheKey sid (u_clientId p)) (u_toolName p) r))
  | None => (None, mkService db' (toolPreferencesCache svc))
  end.

(** [ToolFilterService.enableAllTools]: the repository update, then
    [this.toolPreferencesCache.delete(serverId)]. *)
Definition enableAllTools (svc : ToolFilterService) (sid : string) (now : Z)
    : ToolFilterService :=
  mkService (repo_enableAllTools (rows svc) sid now)
    (delete sid (toolPreferencesCache svc)).

(** [ToolFilterService.disableAllTools]. *)
Definition disableAllTools (svc : ToolFilterService) (sid : string) (now : Z)
    : ToolFilterService :=
  mkService (repo_disableAllTools (rows svc) sid now)
    (delete sid (toolPreferencesCache svc)).

(** [ToolFilterService.resetToolPreferences]. *)
Definition resetToolPreferences (svc : ToolFilterService) (sid : string)
    : bool * ToolFilterService :=
  let '(db', result) := deleteServerToolPreferences (rows svc) sid in
  (result, mkService db' (delete sid (toolPreferencesCache svc))).

(** The handlers of the IPC channels ["tool:enableAll"],
    ["tool:disableAll"] and ["tool:resetPreferences"]
    ([registerToolHandlers]).  Each is declared as
    [async (_event, serverId) => ...] and so reads the first argument of
    the call only; whatever else was sent is in [_rest]. *)
Definition handle_enableAll (svc : ToolFilterService) (serverId : string)
    (_rest : list (option string)) (now : Z) : ToolFilterService :=
  enableAllTools svc serverId now.

Definition handle_disableAll (svc : ToolFilterService) (serverId : string)
    (_rest : list (option string)) (now : Z) : ToolFilterService :=
  disableAllTools svc serverId now.

Definition handle_resetPreferences (svc : ToolFilterService)
    (serverId : string) (_rest : list (option string))
    : bool * ToolFilterService :=
  resetToolPreferences svc serverId.

(** What the renderer calls ([window.electronAPI], declared with
    [(serverId: string, clientId?: string)]):
    [ipcRenderer.invoke("tool:enableAll", serverId, clientId)] and its two
    siblings. *)
Definition api_enableAllTools (svc : ToolFilterService) (serverId : string)
    (clientId : option string) (now : Z) : ToolFilterService :=
  handle_enableAll svc serverId [clientId] now.

Definition api_disableAllTools (svc : ToolFilterService) (serverId : string)
    (clientId : option string) (now : Z) : ToolFilterService :=
  handle_disableAll svc serverId [clientId] now.

Definition api_resetToolPreferences (svc : ToolFilterService)
    (serverId : string) (clientId : option string)
    : bool * ToolFilterService :=
  handle_resetPreferences svc serverId [clientId].

(** The rows of one [(serverId, clientId?)] scope. *)
Definition in_scope (sid : string) (cid : option string) (r : ServerTool)
    : Prop :=
  serverId r = sid /\ clientId r = or_null cid.

(** A service freshly constructed over an empty table. *)
Definition fresh : ToolFilterService := mkService [] ∅.

End Tools.

(* ===================================================================== *)
(** * Server lifecycle (server-manager.ts)                                *)
(* ===================================================================== *)

(** The result of a call that may throw. *)
Inductive outcome (A : Type) : Type :=
| Ok (a : A)
| Throw (msg : string).
Arguments Ok {A} a.
Arguments Throw {A} msg.


Module ServerManager.

(** [MCPServer.status]. *)
Inductive Status := stopped | starting | running | stopping | error.

Global Instance Status_eq_dec : EqDecision Status.
Proof. solve_decision. Defined.

(** The fields of [MCPServer] the lifecycle reads or writes. *)
Record MCPServer := mkServer {
  name : string;
  disabled : bool;
  status : Status;
  errorMessage : option string
}.

(** A connected MCP [Client] (one transport), named by a handle. *)
Definition Client := nat.

(** A reference to an [MCPServer] object.  The map [servers] holds
    references, and a call of [startServer] keeps the one it read in its
    variable [server] across its [await]. *)
Abbreviation Ref := nat.

(** The four maps of [ServerManager], and the objects behind the
    references. *)
Record Manager := mkManager {
  objects : list MCPServer;
  servers : gmap string Ref;
  clients : gmap string Client;
  serverNameToIdMap : gmap string string;
  serverStatusMap : gmap string bool
}.

Definition set_status (st : Status) (s : MCPServer) : MCPServer :=
  mkServer (name s) (disabled s) st (errorMessage s).

(** An assignment to fields of the object behind [r]. *)
Definition assign (m : Manager) (r : Ref) (f : MCPServer -> MCPServer)
    : Manager :=
  mkManager (alter f r (objects m)) (servers m) (clients m)
    (serverNameToIdMap m) (serverStatusMap m).

(** [this.servers.get(id)]: the reference stored under [id], with the
    object behind it. *)
Definition servers_get (m : Manager) (id : string)
    : option (Ref * MCPServer) :=
  r ← servers m !! id; server ← objects m !! r; Some (r, server).

(** How far a call of [startServer] gets before it yields: it returns or
    throws at once, or it reaches
    [await this.connectToServerWithResult(id)] holding [server]. *)
Inductive Started :=
| Settled (result : outcome bool)
| Awaiting (server : Ref).

(** [ServerManager.startServer], up to its [await]. *)
Definition startServer (m : Manager) (id : string) : Manager * Started :=
  match servers_get m id with
  | None => (m, Settled (Throw "Server not found"))
  | Some (r, server) =>
      if disabled server then (m, Settled (Throw "Server is disabled"))
      else if bool_decide (is_Some (clients m !! id)) then
        (* If already running, do nothing *)
        (m, Settled (Ok true))
      else
        (* server.status = "starting" *)
        (assign m r (set_status starting), Awaiting r)
  end.

(** [ServerManager.startServer], from the [await] on.  [result] is what
    [connectToServerWithResult] resolved to, a connected client or an
    error text, and [log_throws] the error [recordRequestLog] throws, if
    it throws.  [fetchAndInitializeTools] is not awaited, catches its own
    errors and touches none of the maps. *)
Definition startServer_resume (m : Manager) (id : string) (server : Ref)
    (result : Client + string) (log_throws : option string)
    : Manager * outcome bool :=
  match result with
  | inr err =>
      (assign m server
         (fun s => mkServer (name s) (disabled s) error (Some err)),
       Throw err)
  | inl client =>
      (mkManager
         (alter (fun s => mkServer (name s) (disabled s) running None)
            server (objects m))
         (servers m)
         (<[id := client]> (clients m))
         (serverNameToIdMap m)
         (match objects m !! server with
          | Some s => <[name s := true]> (serverStatusMap m)
          | None => serverStatusMap m
          end),
       match log_throws with
       | Some msg => Throw msg
       | None => Ok true
       end)
  end.

(** [ServerManager.stopServer].  [close_throws] tells whether the body of
    the [try] block (the request log and [client.close()]) throws. *)
Definition stopServer (m : Manager) (id : string) (close_throws : bool)
    : Manager * bool :=
  match servers_get m id with
  | None => (m, false)
  | Some (r, server) =>
      match clients m !! id with
      | None => (assign m r (set_status stopped), true)
      | Some client =>
          if close_throws then
            (* catch: server.status = "error"; the client stays in the map *)
            (mkManager (alter (set_status error) r (objects m)) (servers m)
               (clients m) (serverNameToIdMap m)
               (<[name server := false]> (serverStatusMap m)), false)
          else
            (mkManager (alter (set_status stopped) r (objects m)) (servers m)
               (delete id (clients m)) (serverNameToIdMap m)
               (<[name server := false]> (serverStatusMap m)), true)
      end
  end.

(** [ServerManager.removeServer].  [removed] is the result of
    [serverService.deleteServer(id)]; a [deleteServer] that throws leaves
    the maps as one that returns [false].  [removeServerFromTokens]
    catches its own errors and touches none of the maps. *)
Definition removeServer (m : Manager) (id : string) (close_throws : bool)
    (removed : bool) : Manager * bool :=
  let server := servers_get m id in
  (* Stop the server if it's running *)
  let m1 := if bool_decide (is_Some (clients m !! id))
            then fst (stopServer m id close_throws) else m in
  match server with
  | Some (_, sv) =>
      if removed then
        (mkManager (objects m1) (delete id (servers m1)) (clients m1)
           (delete (name sv) (serverNameToIdMap m1)) (serverStatusMap m1),
         removed)
      else (m1, removed)
  | None => (m1, removed)
  end.

(** [ServerManager.clearAllServers]: stop every server that has a client,
    then clear all maps.  The order of the stops plays no part in what is
    left, as each writes to its own server and the maps are cleared; the
    objects stay behind the references that calls of [startServer] still
    hold. *)
Definition clearAllServers (m : Manager) (close_throws : string -> bool)
    : Manager :=
  let m1 :=
    foldl (fun acc id => fst (stopServer acc id (close_throws id))) m
      (map fst (map_to_list (clients m))) in
  mkManager (objects m1) ∅ ∅ ∅ ∅.

(** A call of [startServer]: waiting for its connection, or finished. *)
Inductive Call :=
| Connecting (id : string) (server : Ref)
| Finished (result : outcome bool).

(** The manager and the calls of [startServer] made so far. *)
Record Loop := mkLoop {
  manager : Manager;
  starts : list Call
}.

(** What the event loop runs: a call of one of the four operations, with
    what its collaborators answer, or the rest of a call of [startServer]
    whose connection attempt has ended. *)
Inductive Event :=
| Start (id : string)
| Connected (call : nat) (result : Client + string)
    (log_throws : option string)
| Stop (id : string) (close_throws : bool)
| Remove (id : string) (close_throws : bool) (removed : bool)
| ClearAll (close_throws : string -> bool).

Definition step (l : Loop) (ev : Event) : Loop :=
  match ev with
  | Start id =>
      let '(m, started) := startServer (manager l) id in
      mkLoop m
        (starts l ++ [match started with
                      | Settled result => Finished result
                      | Awaiting server => Connecting id server
                      end])
  | Connected call result log_throws =>
      match starts l !! call with
      | Some (Connecting id server) =>
          let '(m, outcome) :=
            startServer_resume (manager l) id server result log_throws in
          mkLoop m (<[call := Finished outcome]> (starts l))
      | _ => l
      end
  | Stop id t => mkLoop (fst (stopServer (manager l) id t)) (starts l)
  | Remove id t removed =>
      mkLoop (fst (removeServer (manager l) id t removed)) (starts l)
  | ClearAll t => mkLoop (clearAllServers (manager l) t) (starts l)
  end.

(** The events run in the order given; between the call of a start and
    its [Connected] event anything else may run. *)
Definition run (l : Loop) (evs : list Event) : Loop := foldl step l evs.

(** The status of the server stored under [id]. *)
Definition status_of (l : Loop) (id : string) : option Status :=
  status ∘ snd <$> servers_get (manager l) id.

(** Number of transports the pool holds for a server. *)
Definition transports (l : Loop) (id : string) : nat :=
  match clients (manager l) !! id with Some _ => 1 | None => 0 end.








(** A manager holding the single enabled server ["a"], just loaded. *)
Definition one_server : Loop :=
  mkLoop
    (mkManager [mkServer "alpha" false stopped None] {[ "a" := 0 ]} ∅
       {[ "alpha" := "a" ]} ∅)
    [].

End ServerManager.

(* ===================================================================== *)
(** * OAuth values (oauth-types.ts)                                       *)
(* ===================================================================== *)

Module OAuthTypes.

(** Strings that carry secrets.  AES-256-GCM is modelled symbolically: a
    ciphertext records the key and the nonce it was made with and the
    plaintext it protects, so a string is either plain or sealed.  Sealing
    can nest, as when a base64 ciphertext is encrypted again. *)
Inductive text :=
| Plain (s : string)
| Sealed (key iv : list Byte.byte) (plaintext : text).

Global Instance text_eq_dec : EqDecision text.
Proof. solve_decision. Defined.

(** JavaScript truthiness of a string: only the empty string is falsy (a
    ciphertext is never empty). *)
Definition nonempty (t : text) : bool :=
  match t with
  | Plain s => negb (String.eqb s "")
  | Sealed _ _ _ => true
  end.

Definition present (o : option text) : bool :=
  match o with Some t => nonempty t | None => false end.

(** Truthiness of an optional number: [undefined], [null] and [0] are
    falsy. *)
Definition present_num (o : option Z) : bool :=
  match o with Some z => negb (Z.eqb z 0) | None => false end.

(** [OAuthToken], as the repository hands it out.  The fields [scopes],
    [notBefore], [audience], [issuer] and [subject] are stored and read
    back untouched and are left out. *)
Record OAuthToken := mkToken {
  id : option string;
  serverId : string;
  accessToken : text;
  refreshToken : option text;
  idToken : option text;
  tokenType : string;
  expiresAt : option Z;
  issuedAt : option Z;
  lastUsed : option Z;
  refreshCount : Z;
  createdAt : option Z;
  updatedAt : option Z
}.

Global Instance OAuthToken_eq_dec : EqDecision OAuthToken.
Proof. solve_decision. Defined.

(** [OAuthConfig]; the provider tag, the scopes and the endpoints other
    than the token endpoint play no part below and are left out. *)
Record OAuthConfig := mkConfig {
  c_id : option string;
  c_serverId : string;
  c_clientId : string;
  c_clientSecret : option text;
  c_tokenEndpoint : option string;
  c_createdAt : option Z;
  c_updatedAt : option Z
}.

Global Instance OAuthConfig_eq_dec : EqDecision OAuthConfig.
Proof. solve_decision. Defined.

(** [TokenResponse]. *)
Record TokenResponse := mkResponse {
  r_accessToken : text;
  r_tokenType : string;
  r_expiresIn : option Z;
  r_refreshToken : option text;
  r_idToken : option text
}.

(** [OAUTH_CONSTANTS]. *)
Definition DEFAULT_EXPIRY_BUFFER : Z := 300.
Definition MAX_REFRESH_RETRIES : nat := 3.

End OAuthTypes.

(* ===================================================================== *)
(** * Token lifecycle (token-manager.ts, oauth-flow.ts)                   *)
(* ===================================================================== *)

Module TokenManager.
Import OAuthTypes.

(** [TokenManagerService.shouldRefreshToken]; [now] is [Date.now()]. *)
Definition shouldRefreshToken (token : OAuthToken) (now : Z) : bool :=
  match expiresAt token with
  | Some e =>
      if Z.eqb e 0 then false
      else Z.leb e (now + DEFAULT_EXPIRY_BUFFER * 1000)
  | None => false
  end.

(** [TokenManagerService.isTokenExpired]. *)
Definition isTokenExpired (token : OAuthToken) (now : Z) : bool :=
  match expiresAt token with
  | Some e => if Z.eqb e 0 then false else Z.leb e now
  | None => false
  end.

(** The promise returned by one call of [performTokenRefresh]. *)
Inductive Refresh :=
| Requesting (attempt : nat)   (* awaiting the token endpoint, attempt n *)
| Sleeping (attempt : nat)     (* awaiting the backoff timer after attempt n *)
| Fulfilled (token : OAuthToken)
| Rejected (msg : string).

Record Job := mkJob {
  job_server : string;         (* config.serverId *)
  job_config : OAuthConfig;
  job_token : OAuthToken;      (* the token passed to refreshToken *)
  job_state : Refresh
}.

Definition unsettled (j : Job) : bool :=
  match job_state j with
  | Requesting _ | Sleeping _ => true
  | Fulfilled _ | Rejected _ => false
  end.

(** One invocation of [getValidToken(serverId)]. *)
Inductive Call :=
| AwaitingExisting (serverId : string) (job : nat)
                                  (* await existingRefresh *)
| AwaitingOwn (serverId : string) (job : nat) (token : OAuthToken)
                                  (* await this.refreshToken(config, token) *)
| Returned (result : option text)
| Raised (msg : string).

(** The service and what it talks to.  [tokens] and [configs] are the
    tables [server_oauth_tokens] and [server_oauth_configs] seen through
    [getTokenByServerId] and [getConfigByServerId]; [server_id] is UNIQUE
    in both, so each is a map from server id to the decrypted row, and
    the [config.serverId] under which [refreshToken] stores its promise
    is the server id the row was selected by.
    [requests] lists, in the order they were sent, the POSTs to the token
    endpoint, each tagged with the refresh that sent it. *)
Record State := mkState {
  tokens : gmap string OAuthToken;
  configs : gmap string OAuthConfig;
  refreshPromises : gmap string nat;
  jobs : list Job;
  calls : list Call;
  requests : list nat
}.

(** What the event loop can deliver: a new call of [getValidToken], the
    answer of the token endpoint to the request a refresh is waiting for,
    the end of a backoff delay, and a call of [refreshToken(config, token)]
    that does not come from [getValidToken].  [now] is [Date.now()] when
    the event is handled and [uuid] the [uuidv4()] drawn by [saveToken].
    [RefreshDirect] stands for the three other callers of [refreshToken]:
    the timer armed by [scheduleTokenRefresh], the maintenance interval
    ([checkAndRefreshExpiredTokens]) and [OAuthService.refreshToken]; each
    reads the configuration of the server, returns when there is none, and
    otherwise calls [refreshToken] with the token it holds, without looking
    at [refreshPromises]. *)
Inductive Event :=
| CallGetValidToken (serverId : string) (now : Z)
| TokenResponseOk (job : nat) (resp : TokenResponse) (now : Z) (uuid : string)
| TokenResponseError (job : nat) (msg : string) (now : Z)
| BackoffElapsed (job : nat)
| RefreshDirect (serverId : string) (token : OAuthToken).


(** [oauthRepo.updateTokenLastUsed]. *)
Definition updateTokenLastUsed (token : OAuthToken) (now : Z) : OAuthToken :=
  mkToken (id token) (serverId token) (accessToken token)
    (refreshToken token) (idToken token) (tokenType token) (expiresAt token)
    (issuedAt token) (Some now) (refreshCount token) (createdAt token)
    (Some now).

(** The synchronous part of [getValidToken], up to its first [await] or
    its [return]. *)
Definition getValidToken (s : State) (sid : string) (now : Z) : State :=
  match tokens s !! sid with
  | None => (* No token found *)
      mkState (tokens s) (configs s) (refreshPromises s) (jobs s)
        (calls s ++ [Returned None]) (requests s)
  | Some token =>
      if shouldRefreshToken token now then
        (* Check if refresh is already in progress *)
        match refreshPromises s !! sid with
        | Some existingRefresh =>
            mkState (tokens s) (configs s) (refreshPromises s) (jobs s)
              (calls s ++ [AwaitingExisting sid existingRefresh]) (requests s)
        | None =>
            match configs s !! sid with
            | Some config =>
                if present (refreshToken token) then
                  (* refreshToken(config, token): performTokenRefresh
                     sends the first request, then the promise is stored *)
                  let j := length (jobs s) in
                  mkState (tokens s) (configs s)
                    (<[sid := j]> (refreshPromises s))
                    (jobs s ++ [mkJob sid config token (Requesting 1)])
                    (calls s ++ [AwaitingOwn sid j token])
                    (requests s ++ [j])
                else
                  mkState (tokens s) (configs s) (refreshPromises s) (jobs s)
                    (calls s ++ [Returned None]) (requests s)
            | None =>
                mkState (tokens s) (configs s) (refreshPromises s) (jobs s)
                  (calls s ++ [Returned None]) (requests s)
            end
        end
      else
        (* Update last used timestamp *)
        mkState (<[sid := updateTokenLastUsed token now]> (tokens s))
          (configs s) (refreshPromises s) (jobs s)
          (calls s ++ [Returned (Some (accessToken token))]) (requests s)
  end.

(** The token [refreshAccessToken] (oauth-flow.ts) builds from the
    response and gets back from [saveToken]: a fresh row id, no id token,
    refresh count 0. *)
Definition refreshedToken (sid : string) (old : option text)
    (resp : TokenResponse) (now : Z) (uuid : string) : OAuthToken :=
  mkToken (Some uuid) sid (r_accessToken resp)
    (if present (r_refreshToken resp) then r_refreshToken resp
     else if present old then old else None)
    None (r_tokenType resp)
    (match r_expiresIn resp with
     | Some n => if Z.eqb n 0 then None else Some (now + n * 1000)%Z
     | None => None
     end)
    (Some now) None 0 (Some now) (Some now).

(** How a settled refresh resumes the calls that wait for it.  The call
    that started the refresh returns the new access token, or falls into
    its [catch]; a call that attached to the stored promise returns the
    new access token, or rejects with the promise. *)
Definition resume (j : nat) (settled : OAuthToken + string) (now : Z)
    (c : Call) : Call :=
  match c with
  | AwaitingExisting _ j' =>
      if Nat.eqb j' j then
        match settled with
        | inl refreshed => Returned (Some (accessToken refreshed))
        | inr msg => Raised msg
        end
      else c
  | AwaitingOwn _ j' token =>
      if Nat.eqb j' j then
        match settled with
        | inl refreshed => Returned (Some (accessToken refreshed))
        | inr _ =>
            (* Return existing token if refresh fails and it's not expired *)
            if isTokenExpired token now then Returned None
            else Returned (Some (accessToken token))
        end
      else c
  | _ => c
  end.

Definition set_job_state (js : list Job) (j : nat) (st : Refresh) : list Job :=
  alter (fun job => mkJob (job_server job) (job_config job) (job_token job) st)
    j js.

(** One turn of the event loop. *)
Definition step (s : State) (ev : Event) : State :=
  match ev with
  | CallGetValidToken sid now => getValidToken s sid now
  | TokenResponseOk j resp now uuid =>
      match jobs s !! j with
      | Some job =>
          match job_state job with
          | Requesting _ =>
              (* refreshAccessToken saves the token; performTokenRefresh
                 returns it; refreshToken deletes the stored promise *)
              let saved :=
                refreshedToken (job_server job)
                  (refreshToken (job_token job)) resp now uuid in
              mkState (<[job_server job := saved]> (tokens s)) (configs s)
                (delete (job_server job) (refreshPromises s))
                (set_job_state (jobs s) j (Fulfilled saved))
                (map (resume j (inl saved) now) (calls s)) (requests s)
          | _ => s
          end
      | None => s
      end
  | TokenResponseError j msg now =>
      match jobs s !! j with
      | Some job =>
          match job_state job with
          | Requesting attempt =>
              if Nat.ltb attempt MAX_REFRESH_RETRIES then
                (* Exponential backoff before the next attempt *)
                mkState (tokens s) (configs s) (refreshPromises s)
                  (set_job_state (jobs s) j (Sleeping attempt))
                  (calls s) (requests s)
              else
                (* throw lastError; refreshToken deletes the stored promise *)
                mkState (tokens s) (configs s)
                  (delete (job_server job) (refreshPromises s))
                  (set_job_state (jobs s) j (Rejected msg))
                  (map (resume j (inr msg) now) (calls s)) (requests s)
          | _ => s
          end
      | None => s
      end
  | BackoffElapsed j =>
      match jobs s !! j with
      | Some job =>
          match job_state job with
          | Sleeping attempt =>
              mkState (tokens s) (configs s) (refreshPromises s)
                (set_job_state (jobs s) j (Requesting (S attempt)))
                (calls s) (requests s ++ [j])
          | _ => s
          end
      | None => s
      end
  | RefreshDirect sid token =>
      match configs s !! sid with
      | Some config =>
          if present (refreshToken token) then
            (* performTokenRefresh sends the first request; the promise
               replaces whatever refreshPromises holds for the server *)
            let j := length (jobs s) in
            mkState (tokens s) (configs s)
              (<[sid := j]> (refreshPromises s))
              (jobs s ++ [mkJob sid config token (Requesting 1)])
              (calls s) (requests s ++ [j])
          else
            (* "No refresh token available": the promise is rejected at
               once and the finally block deletes the map entry *)
            mkState (tokens s) (configs s) (delete sid (refreshPromises s))
              (jobs s) (calls s) (requests s)
      | None => s
      end
  end.

Definition run (s : State) (evs : list Event) : State := foldl step s evs.


(** The refreshes of server [sid] that have not settled. *)
Definition pending_for (s : State) (sid : string) (j : nat) : bool :=
  match jobs s !! j with
  | Some job => bool_decide (job_server job = sid) && unsettled job
  | None => false
  end.

Definition in_flight (s : State) (sid : string) : list nat :=
  filter (fun j => pending_for s sid j = true) (seq 0 (length (jobs s))).





(** The call that started refresh [j]: it waits while [j] is unsettled
    and has returned once [j] has settled. *)
Definition own_call (sid : string) (c j : nat) (token : OAuthToken)
    (s : State) : Prop :=
  (calls s !! c = Some (AwaitingOwn sid j token)
   /\ exists job, jobs s !! j = Some job /\ unsettled job = true)
  \/ ((exists r, calls s !! c = Some (Returned r))
      /\ exists job, jobs s !! j = Some job /\ unsettled job = false).

(** A server whose token expires 30 s after time 1000, with a refresh
    token and a configuration. *)
Definition example_token : OAuthToken :=
  mkToken (Some "row-1") "S" (Plain "old-access") (Some (Plain "refresh-1"))
    None "Bearer" (Some 31000%Z) (Some 0%Z) None 0 (Some 0%Z) (Some 0%Z).
Definition example_config : OAuthConfig :=
  mkConfig (Some "cfg-1") "S" "client" None (Some "https://idp.example/token")
    None None.
Definition example_state : State :=
  mkState {[ "S" := example_token ]} {[ "S" := example_config ]} ∅ [] [] [].

End TokenManager.

(* ===================================================================== *)
(** * Encrypted storage (oauth-encryption.ts, server-oauth-repository.ts) *)
(* ===================================================================== *)

Module OAuthStore.
Import OAuthTypes.

(** [OAuthSecurityEvent] (the members the code below logs). *)
Inductive OAuthSecurityEvent := KEY_ROTATED | CONFIGURATION_CHANGED.

(** An entry of the audit log: event, severity and the [action] or
    [error] text of its details. *)
Record SecurityAuditLog := mkLog {
  eventType : OAuthSecurityEvent;
  severity : string;
  detail : string
}.

(** [KeyRotationConfig] (oauth-keys.json). *)
Record KeyRotationConfig := mkRotation {
  rotationIntervalDays : Z;
  keyVersion : Z;
  lastRotation : Z;
  nextRotation : Z
}.

(** The checksum of a backup, SHA-256 over [{configs, tokens}], kept
    symbolic: two checksums are equal exactly when their inputs are. *)
Inductive digest :=
| NoDigest                          (* the empty string *)
| Sha256 (configs : list OAuthConfig) (tokens : list OAuthToken).

Global Instance digest_eq_dec : EqDecision digest.
Proof. solve_decision. Defined.

Record BackupMetadata := mkMetadata {
  version : string;
  m_createdAt : Z;
  m_machineId : string;
  m_appVersion : string;
  totalConfigs : nat;
  totalTokens : nat;
  checksum : digest
}.

(** [OAuthBackup]. *)
Record OAuthBackup := mkBackup {
  metadata : BackupMetadata;
  b_configs : list OAuthConfig;
  b_tokens : list OAuthToken;
  encrypted : bool;
  encryptionMethod : option string
}.

(** What a backup file holds: the JSON text of a backup, or the output
    of [encryptBackup], AES-256-GCM under a key derived from a password.
    The JSON text is identified with the object it parses to, and the blob
    records the password, salt and nonce it was made with. *)
Inductive FileData :=
| Json (b : OAuthBackup)
| Blob (password : string) (salt iv : list Byte.byte) (b : OAuthBackup).

(** [BackupHistory]. *)
Record BackupHistory := mkHistory {
  h_id : string;
  h_timestamp : Z;
  h_path : string;
  h_metadata : BackupMetadata;
  h_automatic : bool
}.

(** Everything the OAuth services read and write.  Rows of the two tables
    have the columns of [OAuthConfig] and [OAuthToken], with the secret
    columns holding ciphertexts. *)
Record World := mkWorld {
  keyFile : option (list Byte.byte);   (* what reading .oauth-key yields;
                                          [None] when the file is missing
                                          or the read throws *)
  entropy : nat -> Byte.byte;          (* what crypto.randomBytes will yield *)
  drawn : nat;                         (* random bytes drawn so far *)
  clock : Z;                           (* Date.now() *)
  nextUuid : nat;                      (* uuidv4() / crypto.randomUUID() *)
  machineId : string;
  appVersion : string;
  saveDialog : option string;          (* answer of dialog.showSaveDialog *)
  configRows : list OAuthConfig;       (* server_oauth_configs *)
  tokenRows : list OAuthToken;         (* server_oauth_tokens *)
  files : gmap string FileData;        (* backup files on disk *)
  backupHistory : list BackupHistory;
  keyRotationConfig : KeyRotationConfig;
  auditLogs : list SecurityAuditLog;
  fsFaults : nat -> bool;              (* the guarded file-system calls that
                                          will throw, in call order *)
  fsCalls : nat                        (* guarded calls made so far *)
}.

Definition set_keyFile (k : option (list Byte.byte)) (w : World) : World :=
  mkWorld k (entropy w) (drawn w) (clock w) (nextUuid w) (machineId w)
    (appVersion w) (saveDialog w) (configRows w) (tokenRows w) (files w)
    (backupHistory w) (keyRotationConfig w) (auditLogs w)
    (fsFaults w) (fsCalls w).
Definition set_drawn (n : nat) (w : World) : World :=
  mkWorld (keyFile w) (entropy w) n (clock w) (nextUuid w) (machineId w)
    (appVersion w) (saveDialog w) (configRows w) (tokenRows w) (files w)
    (backupHistory w) (keyRotationConfig w) (auditLogs w)
    (fsFaults w) (fsCalls w).
Definition set_nextUuid (n : nat) (w : World) : World :=
  mkWorld (keyFile w) (entropy w) (drawn w) (clock w) n (machineId w)
    (appVersion w) (saveDialog w) (configRows w) (tokenRows w) (files w)
    (backupHistory w) (keyRotationConfig w) (auditLogs w)
    (fsFaults w) (fsCalls w).
Definition set_configRows (r : list OAuthConfig) (w : World) : World :=
  mkWorld (keyFile w) (entropy w) (drawn w) (clock w) (nextUuid w)
    (machineId w) (appVersion w) (saveDialog w) r (tokenRows w) (files w)
    (backupHistory w) (keyRotationConfig w) (auditLogs w)
    (fsFaults w) (fsCalls w).
Definition set_tokenRows (r : list OAuthToken) (w : World) : World :=
  mkWorld (keyFile w) (entropy w) (drawn w) (clock w) (nextUuid w)
    (machineId w) (appVersion w) (saveDialog w) (configRows w) r (files w)
    (backupHistory w) (keyRotationConfig w) (auditLogs w)
    (fsFaults w) (fsCalls w).
Definition set_files (f : gmap string FileData) (w : World) : World :=
  mkWorld (keyFile w) (entropy w) (drawn w) (clock w) (nextUuid w)
    (machineId w) (appVersion w) (saveDialog w) (configRows w) (tokenRows w)
    f (backupHistory w) (keyRotationConfig w) (auditLogs w)
    (fsFaults w) (fsCalls w).
Definition set_backupHistory (h : list BackupHistory) (w : World) : World :=
  mkWorld (keyFile w) (entropy w) (drawn w) (clock w) (nextUuid w)
    (machineId w) (appVersion w) (saveDialog w) (configRows w) (tokenRows w)
    (files w) h (keyRotationConfig w) (auditLogs w)
    (fsFaults w) (fsCalls w).
Definition set_keyRotationConfig (c : KeyRotationConfig) (w : World) : World :=
  mkWorld (keyFile w) (entropy w) (drawn w) (clock w) (nextUuid w)
    (machineId w) (appVersion w) (saveDialog w) (configRows w) (tokenRows w)
    (files w) (backupHistory w) c (auditLogs w)
    (fsFaults w) (fsCalls w).
Definition set_fsFaults (f : nat -> bool) (w : World) : World :=
  mkWorld (keyFile w) (entropy w) (drawn w) (clock w) (nextUuid w)
    (machineId w) (appVersion w) (saveDialog w) (configRows w) (tokenRows w)
    (files w) (backupHistory w) (keyRotationConfig w) (auditLogs w)
    f (fsCalls w).
Definition set_fsCalls (n : nat) (w : World) : World :=
  mkWorld (keyFile w) (entropy w) (drawn w) (clock w) (nextUuid w)
    (machineId w) (appVersion w) (saveDialog w) (configRows w) (tokenRows w)
    (files w) (backupHistory w) (keyRotationConfig w) (auditLogs w)
    (fsFaults w) n.
Definition set_auditLogs (l : list SecurityAuditLog) (w : World) : World :=
  mkWorld (keyFile w) (entropy w) (drawn w) (clock w) (nextUuid w)
    (machineId w) (appVersion w) (saveDialog w) (configRows w) (tokenRows w)
    (files w) (backupHistory w) (keyRotationConfig w) l
    (fsFaults w) (fsCalls w).

(** Computations that read and write the world and may throw; a throw
    keeps the writes made before it. *)
Definition M (A : Type) : Type := World -> outcome A * World.

Global Instance M_ret : MRet M := fun A a w => (Ok a, w).
Global Instance M_bind : MBind M := fun A B f m w =>
  match m w with
  | (Ok a, w') => f a w'
  | (Throw msg, w') => (Throw msg, w')
  end.

Definition throw {A} (msg : string) : M A := fun w => (Throw msg, w).
Definition get {A} (f : World -> A) : M A := fun w => (Ok (f w), w).
Definition modify (f : World -> World) : M unit := fun w => (Ok tt, f w).

(** [try { body } catch (error) { handler(error.message) }] *)
Definition try_catch {A} (body : M A) (handler : string -> M A) : M A :=
  fun w =>
    match body w with
    | (Ok a, w') => (Ok a, w')
    | (Throw msg, w') => handler msg w'
    end.

(** [for (const x of xs) body(x)] *)
Fixpoint for_each {A} (xs : list A) (body : A -> M unit) : M unit :=
  match xs with
  | [] => mret tt
  | x :: rest => body x ;; for_each rest body
  end.

(** [xs.map(f)] for an [f] with effects. *)
Fixpoint map_M {A B} (f : A -> M B) (xs : list A) : M (list B) :=
  match xs with
  | [] => mret []
  | x :: rest => y ← f x; ys ← map_M f rest; mret (y :: ys)
  end.

Definition randomBytes (n : nat) : M (list Byte.byte) := fun w =>
  (Ok (map (fun i => entropy w (drawn w + i)) (seq 0 n)),
   set_drawn (drawn w + n) w).

Definition uuidv4 : M string := fun w =>
  (Ok ("uuid-" +:+ pretty (nextUuid w)), set_nextUuid (S (nextUuid w)) w).

Definition KEY_LENGTH : nat := 32.
Definition IV_LENGTH : nat := 16.

(** A file-system call whose failure the code handles where it makes the
    call ([fs.writeFileSync] on the key file in [getEncryptionKey],
    [fs.unlinkSync] in [cleanupOldBackups]): the result tells whether it
    went through.  Writing a backup file, and reading one that exists,
    are taken to go through. *)
Definition fs_call : M bool := fun w =>
  (Ok (negb (fsFaults w (fsCalls w))), set_fsCalls (S (fsCalls w)) w).

(** The second half of [getEncryptionKey]: a new random key is written to
    the key file; when the write throws the error is logged and the key
    is returned all the same, with the key file as it was. *)
Definition generate_key : M (list Byte.byte) :=
  key ← randomBytes KEY_LENGTH;
  written ← fs_call;
  (if (written : bool) then modify (set_keyFile (Some key))
   else mret tt);;
  mret key.

(** [getEncryptionKey]: the key of the key file when it can be read and
    holds 32 bytes, otherwise a new random key. *)
Definition getEncryptionKey : M (list Byte.byte) :=
  stored ← get keyFile;
  match stored with
  | Some keyData =>
      if Nat.eqb (length keyData) KEY_LENGTH then mret keyData
      else generate_key
  | None => generate_key
  end.

(** [encryptOAuthData]. *)
Definition encryptOAuthData (plaintext : text) : M text :=
  if negb (nonempty plaintext) then mret (Plain "")
  else
    key ← getEncryptionKey;
    iv ← randomBytes IV_LENGTH;
    mret (Sealed key iv plaintext).

(** [decryptOAuthData].  The authentication tag is taken to be
    unforgeable: only a ciphertext made under the current key decrypts,
    and anything else ends in ["Failed to decrypt OAuth data"]. *)
Definition decryptOAuthData (encryptedData : text) : M text :=
  if negb (nonempty encryptedData) then mret (Plain "")
  else
    key ← getEncryptionKey;
    match encryptedData with
    | Sealed k _ plaintext =>
        if decide (k = key) then mret plaintext
        else throw "Failed to decrypt OAuth data"
    | Plain _ => throw "Failed to decrypt OAuth data"
    end.

(** [encryptOAuthConfig] on the one secret field a configuration has. *)
Definition encryptOAuthConfig (c : OAuthConfig) : M OAuthConfig :=
  match c_clientSecret c with
  | Some secret =>
      if nonempty secret then
        sealed ← encryptOAuthData secret;
        mret (mkConfig (c_id c) (c_serverId c) (c_clientId c) (Some sealed)
                (c_tokenEndpoint c) (c_createdAt c) (c_updatedAt c))
      else mret c
  | None => mret c
  end.

(** [decryptOAuthConfig]: a value that fails to decrypt is kept. *)
Definition decryptOAuthConfig (c : OAuthConfig) : M OAuthConfig :=
  match c_clientSecret c with
  | Some secret =>
      if nonempty secret then
        opened ← try_catch (decryptOAuthData secret) (fun _ => mret secret);
        mret (mkConfig (c_id c) (c_serverId c) (c_clientId c) (Some opened)
                (c_tokenEndpoint c) (c_createdAt c) (c_updatedAt c))
      else mret c
  | None => mret c
  end.

(** [x || y] on optional numbers and strings. *)
Definition num_or (o : option Z) (d : Z) : Z :=
  match o with Some z => if Z.eqb z 0 then d else z | None => d end.
Definition str_or (o : option string) (d : string) : string :=
  match o with Some x => if String.eqb x "" then d else x | None => d end.

(** [secret ? encryptOAuthData(secret) : null] *)
Definition encrypt_opt (o : option text) : M (option text) :=
  match o with
  | Some t => if nonempty t then c ← encryptOAuthData t; mret (Some c)
              else mret None
  | None => mret None
  end.

(** [column ? decryptOAuthData(column) : undefined] *)
Definition decrypt_opt (o : option text) : M (option text) :=
  match o with
  | Some t => if nonempty t then p ← decryptOAuthData t; mret (Some p)
              else mret None
  | None => mret None
  end.

(** [ServerOAuthRepository.mapRowToToken]. *)
Definition mapRowToToken (row : OAuthToken) : M OAuthToken :=
  access ← decryptOAuthData (accessToken row);
  refresh ← decrypt_opt (refreshToken row);
  idt ← decrypt_opt (idToken row);
  mret (mkToken (id row) (serverId row) access refresh idt (tokenType row)
          (expiresAt row) (issuedAt row) (lastUsed row) (refreshCount row)
          (createdAt row) (updatedAt row)).

(** [ServerOAuthRepository.getTokenByServerId]. *)
Definition getTokenByServerId (sid : string) : M (option OAuthToken) :=
  rows ← get tokenRows;
  match find (fun r => String.eqb (serverId r) sid) rows with
  | Some row => t ← mapRowToToken row; mret (Some t)
  | None => mret None
  end.

(** [ServerOAuthRepository.getAllTokens]. *)
Definition getAllTokens : M (list OAuthToken) :=
  rows ← get tokenRows; map_M mapRowToToken rows.

(** [ServerOAuthRepository.saveToken]: [INSERT OR REPLACE] removes the
    rows that share the new row's [id] or [server_id]. *)
Definition saveToken (token : OAuthToken) : M OAuthToken :=
  rowId ← (if truthy (id token) then mret (str_or (id token) "")
           else uuidv4);
  now ← get clock;
  access ← encryptOAuthData (accessToken token);
  refresh ← encrypt_opt (refreshToken token);
  idt ← encrypt_opt (idToken token);
  let row :=
    mkToken (Some rowId) (serverId token) access refresh idt (tokenType token)
      (expiresAt token) (issuedAt token) (lastUsed token)
      (refreshCount token) (Some (num_or (createdAt token) now)) (Some now) in
  modify (fun w =>
    set_tokenRows
      (filter (fun r => id r <> Some rowId /\ serverId r <> serverId token)
         (tokenRows w) ++ [row]) w);;
  saved ← getTokenByServerId (serverId token);
  match saved with
  | Some t => mret t
  | None => throw "saveToken: row not found"
  end.

(** [ServerOAuthRepository.deleteToken]. *)
Definition deleteToken (sid : string) : M bool :=
  rows ← get tokenRows;
  let rows' := filter (fun r => serverId r <> sid) rows in
  modify (set_tokenRows rows');;
  mret (negb (Nat.eqb (length rows') (length rows))).

(** [ServerOAuthRepository.mapRowToConfig]. *)
Definition mapRowToConfig (row : OAuthConfig) : M OAuthConfig :=
  decryptOAuthConfig row.

(** [ServerOAuthRepository.getConfigByServerId]. *)
Definition getConfigByServerId (sid : string) : M (option OAuthConfig) :=
  rows ← get configRows;
  match find (fun r => String.eqb (c_serverId r) sid) rows with
  | Some row => c ← mapRowToConfig row; mret (Some c)
  | None => mret None
  end.

(** [ORDER BY created_at DESC] *)
Definition newer_first (a b : OAuthConfig) : Prop :=
  (num_or (c_createdAt b) 0 <= num_or (c_createdAt a) 0)%Z.

Global Instance newer_first_dec a b : Decision (newer_first a b).
Proof. unfold newer_first. apply _. Defined.

(** [ServerOAuthRepository.getAllConfigs]. *)
Definition getAllConfigs : M (list OAuthConfig) :=
  rows ← get configRows;
  map_M mapRowToConfig
    (stable_sort (fun a b => bool_decide (newer_first a b)) rows).

(** [ServerOAuthRepository.saveConfig]. *)
Definition saveConfig (config : OAuthConfig) : M OAuthConfig :=
  rowId ← (if truthy (c_id config) then mret (str_or (c_id config) "")
           else uuidv4);
  now ← get clock;
  row ← encryptOAuthConfig
          (mkConfig (Some rowId) (c_serverId config) (c_clientId config)
             (c_clientSecret config) (c_tokenEndpoint config)
             (Some (num_or (c_createdAt config) now)) (Some now));
  modify (fun w =>
    set_configRows
      (filter (fun r => c_id r <> Some rowId
                        /\ c_serverId r <> c_serverId config)
         (configRows w) ++ [row]) w);;
  saved ← getConfigByServerId (c_serverId config);
  match saved with
  | Some c => mret c
  | None => throw "saveConfig: row not found"
  end.

(* --------------------------------------------------------------------- *)
(** ** Audit log and key rotation (oauth-security.ts)                      *)

(** [OAuthSecurityService.logSecurityEvent]: the entry is appended, and
    past 10000 entries only the last 5000 are kept in memory. *)
Definition logSecurityEvent (e : SecurityAuditLog) : M unit :=
  modify (fun w =>
    let logs := auditLogs w ++ [e] in
    set_auditLogs
      (if N.ltb 10000 (N.of_nat (length logs))
       then drop (N.to_nat (N.of_nat (length logs) - 5000)) logs
       else logs) w).

(** The body of the [for] loop of [rotateEncryptionKeys]. *)
Definition rotate_token (token : OAuthToken) : M unit :=
  if nonempty (accessToken token) then
    (* Decrypt with old key *)
    decrypted ← decryptOAuthData (accessToken token);
    (* this.encryptionUtil = new EncryptionUtil() *)
    _ ← getEncryptionKey;
    (* Re-encrypt with new key *)
    reEncrypted ← encryptOAuthData decrypted;
    refresh ← match refreshToken token with
              | Some r =>
                  if nonempty r then
                    opened ← decryptOAuthData r;
                    sealed ← encryptOAuthData opened;
                    mret (Some sealed)
                  else mret None
              | None => mret None
              end;
    _ ← saveToken
          (mkToken (id token) (serverId token) reEncrypted refresh
             (idToken token) (tokenType token) (expiresAt token)
             (issuedAt token) (lastUsed token) (refreshCount token)
             (createdAt token) (updatedAt token));
    mret tt
  else mret tt.

(** [OAuthSecurityService.rotateEncryptionKeys]. *)
Definition rotateEncryptionKeys : M unit :=
  try_catch
    ((* Generate new encryption key *)
     _newKey ← randomBytes 32;
     old ← get keyRotationConfig;
     let newKeyVersion := (keyVersion old + 1)%Z in
     _allConfigs ← getAllConfigs;
     allTokens ← getAllTokens;
     for_each allTokens rotate_token;;
     now ← get clock;
     modify (set_keyRotationConfig
               (mkRotation (rotationIntervalDays old) newKeyVersion now
                  (now + rotationIntervalDays old * 24 * 60 * 60 * 1000)%Z));;
     logSecurityEvent (mkLog KEY_ROTATED "info" "rotated"))
    (fun msg => logSecurityEvent (mkLog KEY_ROTATED "error" msg)).

(* --------------------------------------------------------------------- *)
(** ** Backup and restore (oauth-backup.ts)                                *)

(** [BackupOptions] and [RestoreOptions]. *)
Record BackupOptions := mkBackupOptions {
  includeTokens : bool;
  encrypt : bool;
  password : option string;
  outputPath : option string
}.

Record RestoreOptions := mkRestoreOptions {
  overwrite : bool;
  r_password : option string;
  validateChecksum : bool
}.

(** [haystack.includes(needle)] *)
Fixpoint includes (needle haystack : string) : bool :=
  String.prefix needle haystack
  || match haystack with
     | EmptyString => false
     | String _ rest => includes needle rest
     end.

(** [OAuthBackupService.calculateChecksum]. *)
Definition calculateChecksum (b : OAuthBackup) : digest :=
  Sha256 (b_configs b) (b_tokens b).

(** [OAuthBackupService.encryptBackup]. *)
Definition encryptBackup (data : OAuthBackup) (pw : string) : M FileData :=
  salt ← randomBytes 32;
  iv ← randomBytes 16;
  mret (Blob pw salt iv data).

(** [OAuthBackupService.decryptBackup]: with another password the
    derived key differs and the authentication tag does not verify. *)
Definition decryptBackup (data : FileData) (pw : string) : M OAuthBackup :=
  match data with
  | Blob pw' _ _ b =>
      if String.eqb pw' pw then mret b
      else throw "Unsupported state or unable to authenticate data"
  | Json _ => throw "Unsupported state or unable to authenticate data"
  end.

(** The token a backup stores for [token]. *)
Definition backup_token (enc : bool) (token : OAuthToken) : M OAuthToken :=
  (* Decrypt tokens for backup if needed *)
  access ← (if enc then decryptOAuthData (accessToken token)
            else mret (Plain "[REDACTED]"));
  refresh ← (if present (refreshToken token) && enc
             then match refreshToken token with
                  | Some r => p ← decryptOAuthData r; mret (Some p)
                  | None => mret None
                  end
             else mret None);
  mret (mkToken (id token) (serverId token) access refresh (idToken token)
          (tokenType token) (expiresAt token) (issuedAt token)
          (lastUsed token) (refreshCount token) (createdAt token)
          (updatedAt token)).

(** The configuration a backup stores for [config]. *)
Definition backup_config (enc : bool) (config : OAuthConfig) : OAuthConfig :=
  (* Remove sensitive data if not encrypted *)
  mkConfig (c_id config) (c_serverId config) (c_clientId config)
    (if enc then c_clientSecret config else None)
    (c_tokenEndpoint config) (c_createdAt config) (c_updatedAt config).

(** [OAuthBackupService.createBackup]. *)
Definition createBackup (options : BackupOptions) : M string :=
  configs ← getAllConfigs;
  tokens ← (if includeTokens options then getAllTokens else mret []);
  now ← get clock;
  mid ← get machineId;
  ver ← get appVersion;
  stored ← map_M (backup_token (encrypt options)) tokens;
  let kept := map (backup_config (encrypt options)) configs in
  let draft :=
    mkBackup
      (mkMetadata "1.0.0" now mid ver (length configs) (length tokens)
         NoDigest)
      kept stored (encrypt options)
      (if encrypt options then Some "AES-256-GCM" else None) in
  (* Calculate checksum *)
  let meta :=
    mkMetadata "1.0.0" now mid ver (length configs) (length tokens)
      (calculateChecksum draft) in
  let backup :=
    mkBackup meta kept stored (encrypt options)
      (if encrypt options then Some "AES-256-GCM" else None) in
  (* Serialize backup; encrypt if requested *)
  backupData ← (if encrypt options && truthy (password options)
                then encryptBackup backup (str_or (password options) "")
                else mret (Json backup));
  (* Determine output path *)
  path ← (if truthy (outputPath options)
          then mret (str_or (outputPath options) "")
          else
            answer ← get saveDialog;
            if truthy answer then mret (str_or answer "")
            else throw "Backup canceled by user");
  (* Write backup file *)
  modify (fun w => set_files (<[path := backupData]> (files w)) w);;
  (* Record in history *)
  hid ← uuidv4;
  stamp ← get clock;
  modify (fun w =>
    set_backupHistory
      (backupHistory w
       ++ [mkHistory hid stamp path meta
             (negb (truthy (outputPath options))
              || includes "auto-backup" (str_or (outputPath options) ""))])
      w);;
  logSecurityEvent (mkLog CONFIGURATION_CHANGED "info" "backup_created");;
  mret path.

(** [sort((a, b) => b.timestamp - a.timestamp)] *)
Definition later_first (a b : BackupHistory) : Prop :=
  (h_timestamp b <= h_timestamp a)%Z.

Global Instance later_first_dec a b : Decision (later_first a b).
Proof. unfold later_first. apply _. Defined.

(** [fs.unlinkSync(path)]. *)
Definition unlinkSync (path : string) : M unit :=
  done ← fs_call;
  if (done : bool)
  then modify (fun w => set_files (delete path (files w)) w)
  else throw "EPERM: operation not permitted, unlink".

(** [findIndex((b) => b.id === id)] and [splice(index, 1)]: the first
    entry with this id is taken out. *)
Fixpoint remove_first (id : string) (history : list BackupHistory)
    : list BackupHistory :=
  match history with
  | [] => []
  | b :: rest =>
      if String.eqb (h_id b) id then rest else b :: remove_first id rest
  end.

(** The body of the [for] loop of [cleanupOldBackups]: the file is
    deleted if it is there, and the entry leaves the history; when the
    deletion throws, the error is logged and the entry stays. *)
Definition delete_old_backup (backup : BackupHistory) : M unit :=
  try_catch
    (onDisk ← get (fun w =>
                     bool_decide (is_Some (files w !! h_path backup)));
     (if (onDisk : bool) then unlinkSync (h_path backup)
      else mret tt);;
     (* Remove from history *)
     modify (fun w =>
       set_backupHistory
         (remove_first (h_id backup) (backupHistory w)) w))
    (fun _ => mret tt).

(** [OAuthBackupService.cleanupOldBackups]. *)
Definition cleanupOldBackups (keepCount : nat) : M unit :=
  history ← get backupHistory;
  let autoBackups :=
    stable_sort (fun a b => bool_decide (later_first a b))
      (filter (fun h => h_automatic h = true) history) in
  if Nat.ltb keepCount (length autoBackups) then
    for_each (drop keepCount autoBackups) delete_old_backup
  else mret tt.

(** [OAuthBackupService.createAutomaticBackup]; [timestamp] is the ISO
    date of the file name and [backupDir] the backup directory. *)
Definition createAutomaticBackup (backupDir timestamp : string) : M unit :=
  try_catch
    (let filename := "auto-backup-" +:+ timestamp +:+ ".json" in
     _ ← createBackup
           (mkBackupOptions true true None
              (Some (backupDir +:+ "/" +:+ filename)));
     (* Clean up old automatic backups (keep last 7) *)
     cleanupOldBackups 7)
    (fun _ => mret tt).

(** The re-encryption [restoreBackup] applies before [saveToken]. *)
Definition restore_token (token : OAuthToken) : M OAuthToken :=
  (* Re-encrypt tokens with current key *)
  access ← encryptOAuthData (accessToken token);
  refresh ← (if present (refreshToken token)
             then match refreshToken token with
                  | Some r => c ← encryptOAuthData r; mret (Some c)
                  | None => mret None
                  end
             else mret None);
  mret (mkToken (id token) (serverId token) access refresh (idToken token)
          (tokenType token) (expiresAt token) (issuedAt token)
          (lastUsed token) (refreshCount token) (createdAt token)
          (updatedAt token)).

(** [OAuthBackupService.restoreBackup]; the result is the pair of
    counters [restored.configs] and [restored.tokens]. *)
Definition restoreBackup (backupPath : string) (options : RestoreOptions)
    : M (nat * nat) :=
  try_catch
    (disk ← get files;
     data ← match disk !! backupPath with
            | Some d => mret d
            | None => throw "ENOENT: no such file or directory"
            end;
     backup ← match data with
              | Json b => mret b
              | Blob _ _ _ _ =>
                  if truthy (r_password options)
                  then decryptBackup data (str_or (r_password options) "")
                  else throw "Backup is encrypted but no password provided"
              end;
     (* Validate checksum *)
     (if validateChecksum options
         && negb (bool_decide (calculateChecksum backup
                               = checksum (metadata backup)))
      then throw "Backup checksum validation failed" else mret tt);;
     (* Restore configs *)
     configFlags ← map_M (fun config =>
         existing ← (if overwrite options then mret None
                     else getConfigByServerId (c_serverId config));
         match existing with
         | Some _ => mret false
         | None => _ ← saveConfig config; mret true
         end) (b_configs backup);
     (* Restore tokens if included *)
     tokenFlags ← map_M (fun token =>
         existing ← (if overwrite options then mret None
                     else getTokenByServerId (serverId token));
         match existing with
         | Some _ => mret false
         | None =>
             encryptedToken ← restore_token token;
             _ ← saveToken encryptedToken;
             mret true
         end) (b_tokens backup);
     logSecurityEvent (mkLog CONFIGURATION_CHANGED "info" "backup_restored");;
     mret (length (filter (fun x => x = true) configFlags),
           length (filter (fun x => x = true) tokenFlags)))
    (fun msg =>
       logSecurityEvent
         (mkLog CONFIGURATION_CHANGED "error" "backup_restore_failed");;
       throw msg).

(** An installation with no key file, empty tables and no backup, on a
    file system where no call throws. *)
Definition empty_world : World :=
  mkWorld None (fun i => match Byte.of_N (N.of_nat (i mod 256)) with
                         | Some x => x | None => Byte.x00 end)
    0 1700000000000 0 "machine-1" "1.0.0" None [] [] ∅ []
    (mkRotation 90 1 1700000000000 1707776000000) [] (fun _ => false) 0.

(** The same installation on a file system where every guarded call
    throws. *)
Definition read_only_world : World := set_fsFaults (fun _ => true) empty_world.

(** The world a computation leaves, and what it returns. *)
Definition exec {A} (m : M A) (w : World) : World := snd (m w).
Definition result {A} (m : M A) (w : World) : outcome A := fst (m w).

(** A computation that preserves a property of the world, whether it
    returns or throws. *)
Definition stable (P : World -> Prop) {A} (m : M A) : Prop :=
  forall w, P w -> P (exec m w).

(** [column] is a ciphertext of [secret]. *)
Definition seals (secret : text) (column : option text) : Prop :=
  match column with
  | Some (Sealed _ _ p) => p = secret
  | _ => False
  end.

(** What [encrypt_opt] produces under key [k]: nothing, or a ciphertext
    under [k]. *)
Definition sealed_opt (k : list Byte.byte) (o : option text) : Prop :=
  o = None \/ exists iv p, o = Some (Sealed k iv p).

(** A computation that, started in a world satisfying [P], throws no
    error other than [msg]. *)
Definition throws_only (P : World -> Prop) (msg : string) {A} (m : M A)
    : Prop :=
  forall w m' w', P w -> m w = (Throw m', w') -> m' = msg.

(** A configuration with a client secret and a token, as the OAuth flow
    hands them to the repository. *)
Definition new_config : OAuthConfig :=
  mkConfig None "S" "client-1" (Some (Plain "client-secret-1"))
    (Some "https://idp.example/token") None None.
Definition new_token : OAuthToken :=
  mkToken None "S" (Plain "access-1") (Some (Plain "refresh-1"))
    (Some (Plain "id-1")) "Bearer" (Some 1700003600000%Z)
    (Some 1700000000000%Z) None 0 None None.

(** Server ["S"] configured, and then authenticated. *)
Definition configured : World := exec (saveConfig new_config) empty_world.
Definition authenticated : World := exec (saveToken new_token) configured.

(** A backup of [authenticated] in the format [createBackup] is written
    to produce: plaintext secrets inside, sealed under a passphrase. *)
Definition plaintext_backup : OAuthBackup :=
  let configs :=
    [mkConfig (Some "uuid-0") "S" "client-1" (Some (Plain "client-secret-1"))
       (Some "https://idp.example/token") (Some 1700000000000%Z)
       (Some 1700000000000%Z)] in
  let tokens :=
    [mkToken (Some "uuid-1") "S" (Plain "access-1") (Some (Plain "refresh-1"))
       (Some (Plain "id-1")) "Bearer" (Some 1700003600000%Z)
       (Some 1700000000000%Z) None 0 (Some 1700000000000%Z)
       (Some 1700000000000%Z)] in
  mkBackup
    (mkMetadata "1.0.0" 1700000000000 "machine-1" "1.0.0" 1 1
       (Sha256 configs tokens))
    configs tokens true (Some "AES-256-GCM").

Definition with_backup_file : World :=
  set_files {[ "/tmp/backup.json" := Blob "passphrase" [] [] plaintext_backup ]}
    authenticated.

End OAuthStore.

(* ===================================================================== *)
(** * The rest of the modelled code                                        *)
(* ===================================================================== *)

(** The modules below follow the functions that surround the ones above:
    the rest of the two repositories and of the tool service, the
    authorization states of the OAuth flow, the rate limiter and the
    audit log, the refresh timers, the fetch wrapper, the import of a
    configuration, token revocation and the database migrations. *)

(* ===================================================================== *)
(** * Tool preferences: the rest of the repository and of the service      *)
(* ===================================================================== *)

Module ToolAdmin.
Import Tools.

(** [ServerToolsRepository.deleteToolPreference]:
    [DELETE FROM server_tools WHERE server_id = ? AND tool_name = ?]; the
    result is [changes > 0]. *)
Definition deleteToolPreference (db : Table) (sid tn : string)
    : Table * bool :=
  let db' := filter (fun r => ~ (serverId r = sid /\ toolName r = tn)) db in
  (db', negb (Nat.eqb (length db') (length db))).

(** [ToolStatistics] (tool-types.ts). *)
Record ToolStatistics := mkStats {
  total : nat;
  st_enabled : nat;
  st_disabled : nat;
  customized : nat
}.

(** [ServerToolsRepository.getToolStatistics]: one aggregate over the rows
    of the server, whatever their client. *)
Definition getToolStatistics (db : Table) (sid : string) : ToolStatistics :=
  let rows := filter (fun r => serverId r = sid) db in
  mkStats (length rows)
    (length (filter (fun r => enabled r = true) rows))
    (length (filter (fun r => enabled r = false) rows))
    (length (filter (fun r => is_Some (customName r)
                              \/ is_Some (customDescription r)) rows)).

(** The key of the [UNIQUE(server_id, tool_name, client_id)] index. *)
Definition key (r : ServerTool) : string * string * option string :=
  (serverId r, toolName r, clientId r).

(** The row an update or an insert of [upsertToolPreference] leaves. *)
Definition written (p : ToolPreferenceUpdate) (r : ServerTool) : Prop :=
  enabled r = u_enabled p
  /\ customName r = or_null (u_customName p)
  /\ customDescription r = or_null (u_customDescription p)
  /\ toolName r = u_toolName p
  /\ clientId r = or_null (u_clientId p).

End ToolAdmin.

Module ToolListing.
Import Tools ToolAdmin.

(** A JavaScript [Map] with string keys, in insertion order. *)
Definition JsMap (V : Type) : Type := list (string * V).

Definition map_get {V} (k : string) (m : JsMap V) : option V :=
  snd <$> find (fun kv => String.eqb (fst kv) k) m.

Definition map_has {V} (k : string) (m : JsMap V) : bool :=
  bool_decide (is_Some (map_get k m)).

(** [Map.set]: an existing key keeps its place. *)
Fixpoint map_set {V} (k : string) (v : V) (m : JsMap V) : JsMap V :=
  match m with
  | [] => [(k, v)]
  | (k', v') :: rest =>
      if String.eqb k' k then (k, v) :: rest else (k', v') :: map_set k v rest
  end.

(** [Array.from(map.values())] *)
Definition map_values {V} (m : JsMap V) : list V := map snd m.

(** [ORDER BY tool_name] and [ORDER BY tool_name, client_id DESC] under
    SQLite's BINARY collation; in descending order NULL comes last.  Rows
    that tie are returned in an order SQLite does not fix. *)
Definition by_tool (a b : ServerTool) : Prop :=
  String.leb (toolName a) (toolName b) = true.

Definition client_desc (a b : option string) : bool :=
  match a, b with
  | Some x, Some y => String.leb y x
  | Some _, None => true
  | None, Some _ => false
  | None, None => true
  end.

Definition by_tool_client_desc (a b : ServerTool) : Prop :=
  (if String.eqb (toolName a) (toolName b)
   then client_desc (clientId a) (clientId b)
   else String.leb (toolName a) (toolName b)) = true.

Global Instance by_tool_dec a b : Decision (by_tool a b).
Proof. unfold by_tool. apply _. Defined.

Global Instance by_tool_client_desc_dec a b :
  Decision (by_tool_client_desc a b).
Proof. unfold by_tool_client_desc. apply _. Defined.

(** The loop body of the de-duplication in [getServerTools]:
    [if (!toolMap.has(tool.toolName) || tool.clientId) toolMap.set(...)]. *)
Definition prefer_client (toolMap : JsMap ServerTool) (tool : ServerTool)
    : JsMap ServerTool :=
  if negb (map_has (toolName tool) toolMap) || truthy (clientId tool)
  then map_set (toolName tool) tool toolMap
  else toolMap.

(** [ServerToolsRepository.getServerTools]. *)
Definition getServerTools (db : Table) (sid : string) (cid : option string)
    : list ServerTool :=
  match or_null cid with
  | Some c =>
      (* Get both global and client-specific preferences *)
      let rows :=
        stable_sort (fun a b => bool_decide (by_tool_client_desc a b))
          (filter (fun r => serverId r = sid
                            /\ (clientId r = None \/ clientId r = Some c)) db) in
      (* De-duplicate, preferring client-specific over global *)
      map_values (foldl prefer_client [] rows)
  | None =>
      (* Get only global preferences *)
      stable_sort (fun a b => bool_decide (by_tool a b))
        (filter (fun r => serverId r = sid /\ clientId r = None) db)
  end.

(** A tool as an MCP server lists it; [inputSchema] is carried along as
    JSON text. *)
Record Tool := mkTool {
  t_name : string;
  t_description : option string;
  t_inputSchema : string
}.

(** [ToolWithMetadata] (tool-types.ts). *)
Record ToolWithMetadata := mkMeta {
  m_name : string;
  m_description : option string;
  m_inputSchema : string;
  m_enabled : bool;
  m_customName : option string;
  m_customDescription : option string;
  m_serverName : string;
  m_serverId : string
}.

(** [a || b] on optional strings. *)
Definition opt_or (a b : option string) : option string :=
  if truthy a then a else b.

(** [new Map(preferences.map((p) => [p.toolName, p]))] *)
Definition preference_map (preferences : list ServerTool)
    : JsMap ServerTool :=
  foldl (fun m p => map_set (toolName p) p m) [] preferences.

(** [ToolFilterService.filterTools]; [getServerToolPreferences] is
    [getServerTools] behind a [try]. *)
Definition filterTools (db : Table) (tools : list Tool)
    (sid serverName : string) (cid : option string)
    : list ToolWithMetadata :=
  let preferences := getServerTools db sid cid in
  let preferenceMap := preference_map preferences in
  filter (fun t => m_enabled t = true)
    (map (fun tool =>
            let preference := map_get (t_name tool) preferenceMap in
            mkMeta
              (default (t_name tool) (or_null (preference ≫= customName)))
              (opt_or (preference ≫= customDescription) (t_description tool))
              (t_inputSchema tool)
              (match preference with Some p => enabled p | None => true end)
              (preference ≫= customName)
              (preference ≫= customDescription)
              serverName sid) tools).

(** What [isToolEnabled] answers when nothing is cached. *)
Definition allowed (db : Table) (sid : string) (cid : option string)
    (tool : Tool) : bool :=
  fst (isToolEnabled (mkService db ∅) sid (t_name tool) cid).

(** The rows [getServerTools] selects for client [c]. *)
Definition selected (sid c : string) (r : ServerTool) : Prop :=
  serverId r = sid /\ (clientId r = None \/ clientId r = Some c).

End ToolListing.

Module ToolCleanup.
Import Tools ToolAdmin ToolListing.

(** [ToolFilterService.cleanupRemovedTools]; [getServerToolPreferences]
    is [getServerTools] behind a [try]. *)
Definition cleanupRemovedTools (svc : ToolFilterService) (sid : string)
    (currentTools : list string) : ToolFilterService :=
  let preferences := getServerTools (rows svc) sid None in
  let toRemove := filter (fun p => toolName p ∉ currentTools) preferences in
  if Nat.ltb 0 (length toRemove) then
    mkService
      (foldl (fun db p => fst (deleteToolPreference db sid (toolName p)))
         (rows svc) toRemove)
      (* Clear cache *)
      (delete sid (toolPreferencesCache svc))
  else svc.

(** The tool has a global preference row for the server. *)
Definition has_global (db : Table) (sid tn : string) : Prop :=
  exists g, g ∈ db /\ serverId g = sid /\ toolName g = tn /\ clientId g = None.

End ToolCleanup.

(* ===================================================================== *)
(** * The rest of the OAuth repository (server-oauth-repository.ts)        *)
(* ===================================================================== *)

Module OAuthRepo.
Import OAuthTypes OAuthStore.

(** [ServerOAuthRepository.deleteConfig]. *)
Definition deleteConfig (sid : string) : M bool :=
  rows ← get configRows;
  let rows' := filter (fun r => c_serverId r <> sid) rows in
  modify (set_configRows rows');;
  mret (negb (Nat.eqb (length rows') (length rows))).

(** [ServerOAuthRepository.hasOAuthConfig]: [COUNT( * ) > 0]. *)
Definition hasOAuthConfig (sid : string) : M bool :=
  rows ← get configRows;
  mret (Nat.ltb 0 (length (filter (fun r => c_serverId r = sid) rows))).

(** The test of [hasValidToken]:
    [!(token.expiresAt && token.expiresAt < Date.now())]. *)
Definition unexpired (token : OAuthToken) (now : Z) : bool :=
  negb (present_num (expiresAt token)
        && match expiresAt token with Some e => Z.ltb e now | None => false end).

(** [ServerOAuthRepository.hasValidToken]. *)
Definition hasValidToken (sid : string) : M bool :=
  token ← getTokenByServerId sid;
  match token with
  | None => mret false
  | Some t => now ← get clock; mret (unexpired t now)
  end.

(** What a secret reads back as: [secret ? ... : null] drops the empty
    string. *)
Definition kept (o : option text) : option text :=
  if present o then o else None.

(** A world whose key file holds the 32-byte key [k]. *)
Definition keyed (k : list Byte.byte) (w : World) : Prop :=
  keyFile w = Some k /\ length k = KEY_LENGTH.

(** The key the next [crypto.randomBytes(32)] yields. *)
Definition next_key (w : World) : list Byte.byte :=
  map (fun i => entropy w (drawn w + i)) (seq 0 KEY_LENGTH).

(** The next guarded file-system call goes through. *)
Definition writable (w : World) : Prop := fsFaults w (fsCalls w) = false.

(** A world whose key file cannot be read or does not hold 32 bytes. *)
Definition unkeyed (w : World) : Prop :=
  forall k, keyFile w = Some k -> length k <> KEY_LENGTH.

(** What the column of a secret holds once [encryptOAuthData] has run
    under key [k]: a ciphertext of the secret, or the empty string for the
    empty string. *)
Definition column_of (k : list Byte.byte) (p c : text) : Prop :=
  if nonempty p then exists iv, c = Sealed k iv p else c = Plain "".

(** The same for an optional secret: a falsy one is stored as [null]. *)
Definition opt_column_of (k : list Byte.byte) (o o' : option text) : Prop :=
  if present o then exists p iv, o = Some p /\ o' = Some (Sealed k iv p)
  else o' = None.

(** The id [saveToken] and [saveConfig] give a row: [x.id || uuidv4()]. *)
Definition row_id (given : option string) (w : World) : string :=
  if truthy given then str_or given "" else "uuid-" +:+ pretty (nextUuid w).

(** An installation whose key file holds a key, and one whose tables
    hold a configuration and a token sealed under another key, as after
    the key file was replaced. *)
Definition zero_key : list Byte.byte := repeat Byte.x00 32.
Definition lost_key : list Byte.byte := repeat Byte.xff 32.
Definition keyed_world : World := set_keyFile (Some zero_key) empty_world.
Definition orphan_config : OAuthConfig :=
  mkConfig (Some "cfg-1") "S" "client-1"
    (Some (Sealed lost_key [] (Plain "client-secret-1")))
    (Some "https://idp.example/token") (Some 1%Z) (Some 1%Z).
Definition orphan_token : OAuthToken :=
  mkToken (Some "tok-1") "S" (Sealed lost_key [] (Plain "access-1")) None None
    "Bearer" None None None 0 (Some 1%Z) (Some 1%Z).
Definition rekeyed_world : World :=
  set_configRows [orphan_config] (set_tokenRows [orphan_token] keyed_world).

End OAuthRepo.

Module BackupAdmin.
Import OAuthTypes OAuthStore.

(** The backups [restoreBackup] refuses before it touches the store: no
    file, an encrypted file with no password or another password than the
    one it was made with, and, when the checksum is to be validated, a
    backup whose checksum is not that of its contents. *)
Definition bad_checksum (options : RestoreOptions) (b : OAuthBackup) : Prop :=
  validateChecksum options = true /\ calculateChecksum b <> checksum (metadata b).

Definition refused (path : string) (options : RestoreOptions) (w : World)
    : Prop :=
  match files w !! path with
  | None => True
  | Some (Json b) => bad_checksum options b
  | Some (Blob pw _ _ b) =>
      truthy (r_password options) = false
      \/ str_or (r_password options) "" <> pw
      \/ bad_checksum options b
  end.

(** The automatic backups of a history. *)
Definition automatic (history : list BackupHistory) : list BackupHistory :=
  filter (fun h => h_automatic h = true) history.

(** The automatic backups of a history, the most recent first, as
    [cleanupOldBackups] sorts them. *)
Definition by_age (history : list BackupHistory) : list BackupHistory :=
  stable_sort (fun a b => bool_decide (later_first a b)) (automatic history).

(** A history of two automatic backups and a manual one. *)
Definition some_metadata : BackupMetadata :=
  mkMetadata "1.0.0" 0 "machine-1" "1.0.0" 0 0 NoDigest.
Definition three_backups : World :=
  set_backupHistory
    [mkHistory "b1" 10 "/b/auto-backup-1.json" some_metadata true;
     mkHistory "b2" 30 "/b/manual.json" some_metadata false;
     mkHistory "b3" 20 "/b/auto-backup-3.json" some_metadata true]
    empty_world.

(** The same history with the files of the automatic backups on disk,
    and the same again on a file system where every guarded call
    throws. *)
Definition stored_backups : World :=
  set_files
    {[ "/b/auto-backup-1.json" := Json plaintext_backup;
       "/b/auto-backup-3.json" := Json plaintext_backup ]}
    three_backups.
Definition locked_backups : World :=
  set_fsFaults (fun _ => true) stored_backups.

End BackupAdmin.

(* ===================================================================== *)
(** * Authorization states (server-oauth-repository.ts, oauth-flow.ts)     *)
(* ===================================================================== *)

Module AuthStates.
Import OAuthTypes OAuthStore.

(** [OAuthAuthState]. *)
Record OAuthAuthState := mkAuthState {
  a_serverId : string;
  a_state : string;
  a_codeVerifier : option text;
  a_codeChallenge : option string;
  a_redirectUri : string;
  a_scopes : list string;
  a_createdAt : Z
}.

(** A row of [oauth_auth_states]: the primary key and the columns of an
    [OAuthAuthState], the verifier column holding a ciphertext.  The
    [state] column is UNIQUE.  The servers the rows refer to are taken to
    exist. *)
Record AuthRow := mkAuthRow {
  ar_id : string;
  ar_columns : OAuthAuthState
}.

(** The flow service with the table it persists its states to:
    [authStateMap] is the in-memory map of [OAuthFlowService]. *)
Record Flow := mkFlow {
  store : World;
  authRows : list AuthRow;
  authStateMap : gmap string OAuthAuthState
}.

Definition set_store (w : World) (s : Flow) : Flow :=
  mkFlow w (authRows s) (authStateMap s).
Definition set_authRows (r : list AuthRow) (s : Flow) : Flow :=
  mkFlow (store s) r (authStateMap s).
Definition set_authStateMap (m : gmap string OAuthAuthState) (s : Flow) : Flow :=
  mkFlow (store s) (authRows s) m.

(** Computations of the flow service; the repository computations run on
    the [store]. *)
Definition F (A : Type) : Type := Flow -> outcome A * Flow.

Global Instance F_ret : MRet F := fun A a s => (Ok a, s).
Global Instance F_bind : MBind F := fun A B f m s =>
  match m s with
  | (Ok a, s') => f a s'
  | (Throw msg, s') => (Throw msg, s')
  end.

Definition lift {A} (m : M A) : F A := fun s =>
  let (r, w') := m (store s) in (r, set_store w' s).
Definition raise {A} (msg : string) : F A := fun s => (Throw msg, s).
Definition read {A} (f : Flow -> A) : F A := fun s => (Ok (f s), s).
Definition update (f : Flow -> Flow) : F unit := fun s => (Ok tt, f s).

(** [ServerOAuthRepository.saveAuthState]: a plain [INSERT], which the
    primary key and the UNIQUE [state] column can refuse. *)
Definition saveAuthState (state : OAuthAuthState) : F unit :=
  rowId ← lift uuidv4;
  now ← lift (get clock);
  verifier ← lift (encrypt_opt (a_codeVerifier state));
  rows ← read authRows;
  if existsb (fun r => String.eqb (ar_id r) rowId) rows then
    raise "UNIQUE constraint failed: oauth_auth_states.id"
  else if existsb (fun r => String.eqb (a_state (ar_columns r)) (a_state state))
            rows then
    raise "UNIQUE constraint failed: oauth_auth_states.state"
  else
    update (set_authRows
              (rows ++ [mkAuthRow rowId
                          (mkAuthState (a_serverId state) (a_state state)
                             verifier (a_codeChallenge state)
                             (a_redirectUri state) (a_scopes state) now)])).

(** [ServerOAuthRepository.getAndDeleteAuthState]: the row is deleted
    before its verifier is decrypted. *)
Definition getAndDeleteAuthState (state : string) : F (option OAuthAuthState) :=
  rows ← read authRows;
  match find (fun r => String.eqb (a_state (ar_columns r)) state) rows with
  | None => mret None
  | Some row =>
      (* Delete the state after retrieving *)
      update (set_authRows
                (filter (fun r => a_state (ar_columns r) <> state) rows));;
      verifier ← lift (decrypt_opt (a_codeVerifier (ar_columns row)));
      mret (Some (mkAuthState (a_serverId (ar_columns row))
                    (a_state (ar_columns row)) verifier
                    (a_codeChallenge (ar_columns row))
                    (a_redirectUri (ar_columns row))
                    (a_scopes (ar_columns row))
                    (a_createdAt (ar_columns row))))
  end.

(** The two statements of [OAuthFlowService.initiateAuthFlow] under
    "Store auth state": the state goes into the map and into the table. *)
Definition store_auth_state (authState : OAuthAuthState) : F unit :=
  update (fun s =>
    set_authStateMap (<[a_state authState := authState]> (authStateMap s)) s);;
  (* Also persist to database for recovery *)
  saveAuthState authState.

(** [OAuthFlowService.validateAuthState]. *)
Definition validateAuthState (state : string) : F (option OAuthAuthState) :=
  m ← read authStateMap;
  match m !! state with
  | None =>
      (* Try to retrieve from database *)
      getAndDeleteAuthState state
  | Some authState =>
      (* Remove from memory map *)
      update (fun s => set_authStateMap (delete state (authStateMap s)) s);;
      mret (Some authState)
  end.

(** A flow service that has started no flow, over an installation with a
    key, and a state as [initiateAuthFlow] builds it. *)
Definition new_flow : Flow := mkFlow OAuthRepo.keyed_world [] ∅.
Definition new_state : OAuthAuthState :=
  mkAuthState "S" "state-1" (Some (Plain "verifier-1")) (Some "challenge-1")
    "http://localhost:42424/oauth/callback" ["read"] 1700000000000.

End AuthStates.

(* ===================================================================== *)
(** * Audit log and rate limits (oauth-security.ts)                        *)
(* ===================================================================== *)

Module Security.

(** [OAuthSecurityEvent]. *)
Inductive SecurityEvent :=
| TOKEN_CREATED | TOKEN_REFRESHED | TOKEN_REVOKED | TOKEN_EXPIRED
| TOKEN_VALIDATION_FAILED | KEY_ROTATED | SUSPICIOUS_ACTIVITY
| RATE_LIMIT_EXCEEDED | AUTHENTICATION_STARTED | AUTHENTICATION_COMPLETED
| AUTHENTICATION_FAILED | CONFIGURATION_CHANGED | CONFIGURATION_DELETED.

(** What [logSecurityEvent] is given: a [SecurityAuditLog] without id and
    timestamp.  The free-form [details] are left out. *)
Record AuditEvent := mkEvent {
  ev_eventType : SecurityEvent;
  ev_serverId : option string;
  ev_severity : string
}.

(** [SecurityAuditLog]. *)
Record AuditEntry := mkEntry {
  l_id : string;
  l_timestamp : Z;
  l_event : AuditEvent
}.

(** An entry of [rateLimitTracking]. *)
Record Tracking := mkTracking {
  count : Z;
  resetTime : Z
}.

(** The fields of [OAuthSecurityService] the functions below use. *)
Record SecurityService := mkSecurity {
  auditLogs : list AuditEntry;
  rateLimitTracking : gmap string Tracking
}.

(** [OAuthSecurityService.logSecurityEvent], as far as the memory of the
    service goes; [now] is [Date.now()] and [uuid] is
    [crypto.randomUUID()]. *)
Definition logSecurityEvent (s : SecurityService) (event : AuditEvent) (now : Z)
    (uuid : string) : SecurityService :=
  let logs := auditLogs s ++ [mkEntry uuid now event] in
  mkSecurity
    ((* Keep only last 10000 logs in memory *)
     if N.ltb 10000 (N.of_nat (length logs))
     then drop (N.to_nat (N.of_nat (length logs) - 5000)) logs
     else logs)
    (rateLimitTracking s).

(** The result of [checkRateLimit]. *)
Record Verdict := mkVerdict {
  allowed : bool;
  remaining : Z;
  v_resetTime : Z
}.

(** [OAuthSecurityService.checkRateLimit]. *)
Definition checkRateLimit (s : SecurityService) (key : string) (limit windowMs : Z)
    (now : Z) (uuid : string) : Verdict * SecurityService :=
  let new_window :=
    (mkVerdict true (limit - 1) (now + windowMs),
     mkSecurity (auditLogs s)
       (<[key := mkTracking 1 (now + windowMs)]> (rateLimitTracking s))) in
  match rateLimitTracking s !! key with
  | None => new_window
  | Some tracking =>
      if Z.ltb (resetTime tracking) now then new_window
      else if Z.leb limit (count tracking) then
        (* Rate limit exceeded *)
        (mkVerdict false 0 (resetTime tracking),
         logSecurityEvent s (mkEvent RATE_LIMIT_EXCEEDED None "warning") now
           uuid)
      else
        (* Increment count *)
        (mkVerdict true (limit - (count tracking + 1)) (resetTime tracking),
         mkSecurity (auditLogs s)
           (<[key := mkTracking (count tracking + 1) (resetTime tracking)]>
              (rateLimitTracking s)))
  end.

(** Calls of [checkRateLimit] for one key, one after the other; each
    comes with its [Date.now()] and the uuid its log entry would get. *)
Fixpoint checks (s : SecurityService) (key : string) (limit windowMs : Z)
    (calls : list (Z * string)) : list Verdict :=
  match calls with
  | [] => []
  | (now, uuid) :: rest =>
      let (v, s') := checkRateLimit s key limit windowMs now uuid in
      v :: checks s' key limit windowMs rest
  end.

(** Events logged one after the other. *)
Definition log_all (s : SecurityService) (events : list (AuditEvent * Z * string))
    : SecurityService :=
  foldl (fun s e => logSecurityEvent s e.1.1 e.1.2 e.2) s events.

Definition entry_of (e : AuditEvent * Z * string) : AuditEntry :=
  mkEntry e.2 e.1.2 e.1.1.

End Security.

(* ===================================================================== *)
(** * Refresh timers (token-manager.ts)                                    *)
(* ===================================================================== *)

Module RefreshTimers.
Import OAuthTypes TokenManager.

(** Node's timers keep a delay in a signed 32-bit integer:
    [setTimeout(callback, delay)] with a delay above [TIMEOUT_MAX]
    (2^31 - 1 ms, about 24.8 days) or below 1 runs the callback after
    1 ms. *)
Definition TIMEOUT_MAX : Z := 2147483647.

Definition timeout_after (delay : Z) : Z :=
  if Z.ltb TIMEOUT_MAX delay || Z.ltb delay 1 then 1 else delay.

(** A timer set by [scheduleTokenRefresh]: [tm_after] is the time in
    milliseconds after which Node runs the callback, and the callback
    refreshes [serverId] with [token]. *)
Record Timer := mkTimer {
  tm_after : Z;
  tm_serverId : string;
  tm_token : OAuthToken
}.

(** [tokenRefreshTimers] maps a server to the handle [setTimeout]
    returned; [armed] are the timers set and not cleared. *)
Record Timers := mkTimers {
  tokenRefreshTimers : gmap string nat;
  armed : gmap nat Timer;
  nextHandle : nat
}.

(** [TokenManagerService.cancelTokenRefresh]. *)
Definition cancelTokenRefresh (s : Timers) (sid : string) : Timers :=
  match tokenRefreshTimers s !! sid with
  | Some timer =>
      mkTimers (delete sid (tokenRefreshTimers s)) (delete timer (armed s))
        (nextHandle s)
  | None => s
  end.

(** [TokenManagerService.scheduleTokenRefresh]. *)
Definition scheduleTokenRefresh (s : Timers) (sid : string)
    (token : OAuthToken) (now : Z) : Timers :=
  (* Cancel existing timer *)
  let s1 := cancelTokenRefresh s sid in
  if negb (present_num (expiresAt token)) || negb (present (refreshToken token))
  then s1
  else
    (* Calculate when to refresh (5 minutes before expiry) *)
    let refreshTime :=
      (default 0 (expiresAt token) - DEFAULT_EXPIRY_BUFFER * 1000)%Z in
    let delay := Z.max (refreshTime - now) 0 in
    if Z.ltb 0 delay then
      mkTimers (<[sid := nextHandle s1]> (tokenRefreshTimers s1))
        (* setTimeout(..., delay) *)
        (<[nextHandle s1 := mkTimer (timeout_after delay) sid token]>
           (armed s1))
        (S (nextHandle s1))
    else s1.

(** Every armed timer is the one recorded for its server, a recorded
    handle that is armed refreshes the server it is recorded for, and
    handles are not reused. *)
Definition tidy (s : Timers) : Prop :=
  (forall h t, armed s !! h = Some t ->
     tokenRefreshTimers s !! tm_serverId t = Some h)
  /\ (forall sid h t, tokenRefreshTimers s !! sid = Some h ->
        armed s !! h = Some t -> tm_serverId t = sid)
  /\ (forall sid h, tokenRefreshTimers s !! sid = Some h -> h < nextHandle s)
  /\ (forall h t, armed s !! h = Some t -> h < nextHandle s).

(** No timer set yet. *)
Definition no_timers : Timers := mkTimers ∅ ∅ 0.

(** A token that expires 30 days after time 1700000000000. *)
Definition long_lived : OAuthToken :=
  mkToken None "S" (Plain "access-1") (Some (Plain "refresh-1")) None
    "Bearer" (Some 1702592000000%Z) (Some 1700000000000%Z) None 0 None None.

End RefreshTimers.

(* ===================================================================== *)
(** * The fetch wrapper (oauth-fetch-wrapper.ts)                           *)
(* ===================================================================== *)

Module OAuthFetch.

(** Request headers, and the part of a [Response] the wrapper looks at. *)
Definition Headers : Type := gmap string string.

Record Response := mkFetched {
  status : Z;
  body : string
}.

(** What the wrapper talks to: the [n]-th call of
    [tokenInjector.injectToken] returns [inject n] for the headers it is
    given, the [n]-th call of [fetch] answers [respond n] to the headers
    it is sent, and the [n]-th call of [tokenInjector.handleUnauthorized]
    returns [refreshed n]. *)
Record Environment := mkEnvironment {
  inject : nat -> Headers -> Headers;
  respond : nat -> Headers -> Response;
  refreshed : nat -> option string
}.

(** The loop of [oauthFetch], entered with [retryCount]; [sent] lists the
    headers of the requests made so far, and [k] counts the calls of
    [handleUnauthorized].  The loop runs at most [maxRetries + 1] times,
    which is what [fuel] starts from; the code behind the loop is the
    fetch without OAuth headers. *)
Fixpoint attempt (fuel : nat) (env : Environment) (maxRetries : Z)
    (init : Headers) (retryCount : nat) (k : nat) (sent : list Headers)
    : Response * list Headers :=
  let fallback :=
    (respond env (length sent) init, sent ++ [init]) in
  match fuel with
  | 0 => fallback
  | S fuel' =>
      if Z.leb (Z.of_nat retryCount) maxRetries then
        (* Inject OAuth token into headers *)
        let oauthHeaders := inject env (length sent) init in
        (* Make the request with OAuth headers *)
        let response := respond env (length sent) oauthHeaders in
        let sent' := sent ++ [oauthHeaders] in
        if Z.eqb (status response) 401
           && Z.ltb (Z.of_nat retryCount) maxRetries then
          if truthy (refreshed env k) then
            (* Retry the request *)
            attempt fuel' env maxRetries init (S retryCount) (S k) sent'
          else (response, sent')
        else (response, sent')
      else fallback
  end.

(** [createOAuthFetch({serverId, maxRetries})(input, init)]. *)
Definition oauthFetch (env : Environment) (maxRetries : Z) (init : Headers)
    : Response * list Headers :=
  attempt (Z.to_nat (maxRetries + 1)) env maxRetries init 0 0 [].

(** A server that answers 401 until it is sent the header of the second
    injection. *)
Definition stubborn : Environment :=
  mkEnvironment
    (fun n _ => {[ "Authorization" := "Bearer token-" +:+ pretty n ]})
    (fun n h => if bool_decide (h !! "Authorization" = Some "Bearer token-1")
                then mkFetched 200 "ok" else mkFetched 401 "unauthorized")
    (fun _ => Some "token-new").

End OAuthFetch.

(* ===================================================================== *)
(** * The OAuth service and token revocation (oauth-service.ts)            *)
(* ===================================================================== *)

Module OAuthService.
Import OAuthTypes OAuthStore RefreshTimers.

(** The fields of the [Partial<OAuthConfig>] that [importConfiguration]
    reads, among those of [OAuthConfig] above. *)
Record ImportedConfig := mkImported {
  i_clientId : option string;
  i_clientSecret : option text;
  i_tokenEndpoint : option string
}.

(** [OAuthService.importConfiguration]. *)
Definition importConfiguration (sid : string) (importedConfig : ImportedConfig)
    : M OAuthConfig :=
  (* Merge with existing or create new *)
  existing ← getConfigByServerId sid;
  rowId ← (if truthy (existing ≫= c_id) then mret (str_or (existing ≫= c_id) "")
           else uuidv4);
  saveConfig
    (mkConfig (Some rowId) sid
       (str_or (i_clientId importedConfig)
          (str_or (c_clientId <$> existing) ""))
       (* Keep existing secret *)
       (existing ≫= c_clientSecret)
       (i_tokenEndpoint importedConfig) None None).

(** [TokenManagerService.revokeToken], on the store and the refresh
    timers.  The request to the revocation endpoint that stands between
    the cancel and the delete changes neither, whether it succeeds or
    fails, and is left out. *)
Definition revokeToken (sid : string) (timers : Timers)
    : World -> outcome bool * (World * Timers) := fun w =>
  match getTokenByServerId sid w with
  | (Throw msg, w1) => (Throw msg, (w1, timers))
  | (Ok token, w1) =>
      match getConfigByServerId sid w1 with
      | (Throw msg, w2) => (Throw msg, (w2, timers))
      | (Ok config, w2) =>
          match token, config with
          | Some _, Some _ =>
              (* Cancel any scheduled refresh *)
              let timers' := cancelTokenRefresh timers sid in
              (* Delete from local storage *)
              let (r, w3) := deleteToken sid w2 in
              (r, (w3, timers'))
          | _, _ => (Ok false, (w2, timers))
          end
      end
  end.

(** Server ["S"] configured under the key of [keyed_world]. *)
Definition configured_keyed : World :=
  exec (saveConfig new_config) OAuthRepo.keyed_world.

End OAuthService.

(* ===================================================================== *)
(** * Database migrations (database-migration.ts)                          *)
(* ===================================================================== *)

Module Migrations.

(** The table [migrations], as the list of its ids in insertion order,
    and the migrations whose [execute] has been called, in order. *)
Record Database := mkDatabase {
  completed : list string;
  executed : list string
}.

(** The loop of [runMigrations] over the registered ids.
    [completedMigrations] is the set read before the loop; [execute m]
    is the message of the error [migration.execute(db)] throws, if it
    throws.  [markMigrationComplete] is a plain [INSERT], which the
    primary key can refuse. *)
Fixpoint run_loop (execute : string -> option string)
    (completedMigrations : list string) (migrations : list string)
    (db : Database) : outcome unit * Database :=
  match migrations with
  | [] => (Ok tt, db)
  | migration :: rest =>
      if bool_decide (migration ∈ completedMigrations) then
        run_loop execute completedMigrations rest db
      else
        let db1 := mkDatabase (completed db) (executed db ++ [migration]) in
        match execute migration with
        | Some msg => (Throw msg, db1)
        | None =>
            if bool_decide (migration ∈ completed db1) then
              (Throw "UNIQUE constraint failed: migrations.id", db1)
            else
              run_loop execute completedMigrations rest
                (mkDatabase (completed db1 ++ [migration]) (executed db1))
        end
  end.

(** [DatabaseMigration.runMigrations]. *)
Definition runMigrations (execute : string -> option string)
    (migrations : list string) (db : Database) : outcome unit * Database :=
  run_loop execute (completed db) migrations db.

(** A database in which the first of three migrations is recorded. *)
Definition three_migrations : list string := ["m1"; "m2"; "m3"].
Definition one_done : Database := mkDatabase ["m1"] ["m1"].
Definition third_fails (m : string) : option string :=
  if String.eqb m "m3" then Some "no such table" else None.

End Migrations.

(* ===================================================================== *)
(** * Properties                                                          *)
(* ===================================================================== *)

(** ** Random strings *)

Section SecureRandomFacts.
Import SecureRandom.

(** The encoder agrees with Node on the classic test vectors. *)
Example base64url_Man :
  base64url [Byte.x4d; Byte.x61; Byte.x6e] = list_ascii_of_string "TWFu"
  /\ base64url [Byte.x4d; Byte.x61] = list_ascii_of_string "TWE"
  /\ base64url [Byte.x4d] = list_ascii_of_string "TQ"
  /\ base64url [Byte.xfb; Byte.xff; Byte.xbe] = list_ascii_of_string "-_--".
Proof. repeat split. Qed.

(** Induction on byte lists three bytes at a time, the way the encoder
    consumes them. *)
Lemma triple_ind (P : list Byte.byte -> Prop) :
  P [] -> (forall x, P [x]) -> (forall x y, P [x; y]) ->
  (forall x y z rest, P rest -> P (x :: y :: z :: rest)) ->
  forall bs, P bs.
Proof.
  intros H0 H1 H2 H3.
  fix IH 1.
  intros [|x [|y [|z rest]]];
    [apply H0 | apply H1 | apply H2 | apply H3, IH].
Qed.

Lemma length_randomBytes n rng : length (randomBytes n rng) = n.
Proof. unfold randomBytes. by rewrite length_map, length_seq. Qed.

Lemma base64url_length_ge bs : length bs <= length (base64url bs).
Proof.
  induction bs as [| | |x y z rest IH] using triple_ind; simpl in *; lia.
Qed.

(** A prefix made of whole three-byte groups is encoded on its own. *)
Lemma base64url_app k : forall pre post,
  length pre = 3 * k ->
  base64url (pre ++ post) = base64url pre ++ base64url post
  /\ length (base64url pre) = 4 * k.
Proof.
  induction k as [|k IH]; intros pre post Hlen.
  - destruct pre; [done | simpl in Hlen; lia].
  - destruct pre as [|x [|y [|z pre]]]; simpl in Hlen; try lia.
    destruct (IH pre post) as [Happ Hl]; [lia|].
    change (base64url ((x :: y :: z :: pre) ++ post))
      with (sextet (b x / 4) :: sextet ((b x mod 4) * 16 + b y / 16)
            :: sextet ((b y mod 16) * 4 + b z / 64) :: sextet (b z mod 64)
            :: base64url (pre ++ post))%N.
    rewrite Happ. split; [done|]. simpl. rewrite Hl. lia.
Qed.

Lemma bytes_used_covers n : n <= 4 * ((n + 3) / 4).
Proof.
  pose proof (Nat.div_mod_eq (n + 3) 4) as H.
  pose proof (Nat.mod_upper_bound (n + 3) 4). lia.
Qed.

(** Only the first [bytes_used n] bytes reach the first [n] characters. *)
Lemma take_base64url_prefix n bs :
  take n (base64url bs) = take n (base64url (take (bytes_used n) bs)).
Proof.
  destruct (decide (length bs <= bytes_used n)) as [Hle|Hgt].
  - rewrite (take_ge bs (bytes_used n)); [done | lia].
  - rewrite <- (take_drop (bytes_used n) bs) at 1.
    destruct (base64url_app ((n + 3) / 4) (take (bytes_used n) bs)
                (drop (bytes_used n) bs)) as [Happ Hl].
    { rewrite length_take. unfold bytes_used in *. lia. }
    rewrite Happ. rewrite take_app_le; [done|].
    rewrite Hl. apply bytes_used_covers.
Qed.

Lemma take_randomBytes m n rng rng' :
  (forall i, i < m -> rng i = rng' i) ->
  take m (randomBytes n rng) = take m (randomBytes n rng').
Proof.
  intros Heq. unfold randomBytes.
  rewrite <- !fmap_take. apply list_eq. intros i.
  rewrite !list_lookup_fmap.
  destruct (take m (seq 0 n) !! i) as [j|] eqn:Hj; [|done].
  apply lookup_take_Some in Hj as [Hj Hi].
  apply lookup_seq in Hj as [-> _]. simpl. f_equal. apply Heq. lia.
Qed.

Lemma length_generateSecureRandom n rng :
  length (generateSecureRandom n rng) = n.
Proof.
  unfold generateSecureRandom. rewrite length_take.
  pose proof (base64url_length_ge (randomBytes n rng)).
  rewrite length_randomBytes in *. lia.
Qed.

Lemma generateSecureRandom_prefix n rng rng' :
  (forall i, i < bytes_used n -> rng i = rng' i) ->
  generateSecureRandom n rng = generateSecureRandom n rng'.
Proof.
  intros Heq. unfold generateSecureRandom.
  rewrite (take_base64url_prefix n (randomBytes n rng)).
  rewrite (take_base64url_prefix n (randomBytes n rng')).
  by rewrite (take_randomBytes _ n rng rng' Heq).
Qed.

Lemma unsextet_sextet n : (n < 64)%N -> unsextet (sextet n) = n.
Proof.
  intros Hn.
  assert (H : forallb (fun i => N.eqb (unsextet (sextet (N.of_nat i)))
                                  (N.of_nat i)) (seq 0 64) = true)
    by (vm_compute; reflexivity).
  rewrite forallb_forall in H. specialize (H (N.to_nat n)).
  rewrite N2Nat.id in H. apply N.eqb_eq, H, in_seq. lia.
Qed.

Lemma sextet_inj m n : (m < 64)%N -> (n < 64)%N -> sextet m = sextet n -> m = n.
Proof.
  intros Hm Hn H. apply (f_equal unsextet) in H.
  by rewrite !unsextet_sextet in H.
Qed.

Lemma b_bounded x : (b x < 256)%N.
Proof. unfold b. pose proof (Byte.to_N_bounded x). lia. Qed.

Lemma b_inj x y : b x = b y -> x = y.
Proof.
  unfold b. intros H. apply (f_equal Byte.of_N) in H.
  rewrite !Byte.of_to_N in H. by injection H.
Qed.

(** Names quotient and remainder of [n] by [d], with their equations. *)
Ltac split_div n d :=
  let q := fresh "q" in
  let r := fresh "r" in
  pose proof (N.div_mod' n d);
  pose proof (N.mod_lt n d ltac:(lia));
  set (q := (n / d)%N) in *; set (r := (n mod d)%N) in *;
  clearbody q r.

(** Four characters determine the three bytes they encode. *)
Lemma group_inj x y z x' y' z' :
  sextet (b x / 4) = sextet (b x' / 4) ->
  sextet ((b x mod 4) * 16 + b y / 16) = sextet ((b x' mod 4) * 16 + b y' / 16) ->
  sextet ((b y mod 16) * 4 + b z / 64) = sextet ((b y' mod 16) * 4 + b z' / 64) ->
  sextet (b z mod 64) = sextet (b z' mod 64) ->
  x = x' /\ y = y' /\ z = z'.
Proof.
  intros H1 H2 H3 H4.
  pose proof (b_bounded x) as Bx. pose proof (b_bounded y) as By.
  pose proof (b_bounded z) as Bz. pose proof (b_bounded x') as Bx'.
  pose proof (b_bounded y') as By'. pose proof (b_bounded z') as Bz'.
  enough (b x = b x' /\ b y = b y' /\ b z = b z') as (? & ? & ?)
    by (repeat split; by apply b_inj).
  revert H1 H2 H3 H4 Bx By Bz Bx' By' Bz'.
  generalize (b x) (b y) (b z) (b x') (b y') (b z').
  intros a c e a' c' e' H1 H2 H3 H4 Ba Bc Be Ba' Bc' Be'.
  split_div a 4%N. split_div a' 4%N. split_div c 16%N. split_div c' 16%N.
  split_div e 64%N. split_div e' 64%N.
  apply sextet_inj in H1; [|lia..].
  apply sextet_inj in H2; [|lia..].
  apply sextet_inj in H3; [|lia..].
  apply sextet_inj in H4; [|lia..].
  lia.
Qed.

(** On whole groups of three bytes the encoding loses nothing. *)
Lemma base64url_inj q : forall bs bs',
  length bs = 3 * q -> length bs' = 3 * q ->
  base64url bs = base64url bs' -> bs = bs'.
Proof.
  induction q as [|q IH]; intros bs bs' Hl Hl' H.
  - destruct bs, bs'; simpl in *; try lia. done.
  - destruct bs as [|x [|y [|z bs]]]; simpl in Hl; try lia.
    destruct bs' as [|x' [|y' [|z' bs']]]; simpl in Hl'; try lia.
    change (base64url (x :: y :: z :: bs))
      with (sextet (b x / 4) :: sextet ((b x mod 4) * 16 + b y / 16)
            :: sextet ((b y mod 16) * 4 + b z / 64) :: sextet (b z mod 64)
            :: base64url bs)%N in H.
    change (base64url (x' :: y' :: z' :: bs'))
      with (sextet (b x' / 4) :: sextet ((b x' mod 4) * 16 + b y' / 16)
            :: sextet ((b y' mod 16) * 4 + b z' / 64) :: sextet (b z' mod 64)
            :: base64url bs')%N in H.
    injection H as H1 H2 H3 H4 H5.
    destruct (group_inj _ _ _ _ _ _ H1 H2 H3 H4) as (-> & -> & ->).
    f_equal. f_equal. f_equal. apply (IH bs bs'); [lia | lia | done].
Qed.

(** When the requested length is a multiple of four the result is the
    encoding of the first three quarters of the buffer. *)
Lemma generateSecureRandom_whole_groups q rng :
  generateSecureRandom (4 * q) rng
  = base64url (randomBytes (3 * q) rng).
Proof.
  unfold generateSecureRandom.
  assert (Hsplit : randomBytes (4 * q) rng
                   = randomBytes (3 * q) rng
                     ++ map rng (seq (3 * q) q)).
  { unfold randomBytes. rewrite <- map_app. f_equal.
    replace (4 * q) with (3 * q + q) by lia. by rewrite seq_app. }
  rewrite Hsplit.
  destruct (base64url_app q (randomBytes (3 * q) rng) (map rng (seq (3 * q) q)))
    as [-> Hl]; [apply length_randomBytes|].
  rewrite take_app_length'; [done | by rewrite Hl].
Qed.

(** Two buffers give the same string of [4 * q] characters exactly when
    they agree on their first [3 * q] bytes. *)
Lemma generateSecureRandom_encodes q rng rng' :
  generateSecureRandom (4 * q) rng = generateSecureRandom (4 * q) rng'
  <-> forall i, i < 3 * q -> rng i = rng' i.
Proof.
  rewrite !generateSecureRandom_whole_groups. split.
  - intros H i Hi.
    apply (base64url_inj q) in H; try apply length_randomBytes.
    apply (f_equal (fun l => l !! i)) in H. unfold randomBytes in H.
    change (map ?f ?l) with (f <$> l) in H.
    rewrite !list_lookup_fmap in H.
    rewrite (lookup_seq_lt 0 (3 * q) i Hi) in H. simpl in H. by injection H.
  - intros H. f_equal. unfold randomBytes. apply map_ext_in.
    intros i Hi%in_seq. apply H. lia.
Qed.

(** C9 (as stated) fails: for 32 requested bytes the result is not the
    base64url encoding of the buffer (32 characters against 43), and two
    buffers that differ in their last byte give the same OAuth state, so
    the state does not encode 32 random bytes. *)
Lemma generateSecureRandom_truncates :
  oauth_state (fun _ => Byte.x00)
    <> base64url (randomBytes 32 (fun _ => Byte.x00))
  /\ randomBytes 32 (fun _ => Byte.x00)
    <> randomBytes 32 (fun i => if Nat.eqb i 31 then Byte.xff else Byte.x00)
  /\ oauth_state (fun _ => Byte.x00)
    = oauth_state (fun i => if Nat.eqb i 31 then Byte.xff else Byte.x00).
Proof. split; [|split]; [discriminate | discriminate | reflexivity]. Qed.

(** C9 (amended): [generateSecureRandom n] returns the first [n]
    characters of the base64url encoding of [n] random bytes.  The result
    has exactly [n] characters and depends only on the first
    [3 * ceil (n / 4)] bytes of the buffer.  The 32-character OAuth state
    encodes exactly the first 24 bytes of its buffer and the 64-character
    PKCE verifier exactly the first 48: two buffers give the same string
    if and only if they agree on those bytes. *)
Theorem generateSecureRandom_prefix_of_base64url n rng rng' :
  (forall i, i < bytes_used n -> rng i = rng' i) ->
  generateSecureRandom n rng = take n (base64url (randomBytes n rng))
  /\ length (generateSecureRandom n rng) = n
  /\ generateSecureRandom n rng = generateSecureRandom n rng'
  /\ length (oauth_state rng) = 32 /\ bytes_used STATE_LENGTH = 24
  /\ length (pkce_verifier rng) = 64 /\ bytes_used VERIFIER_LENGTH = 48
  /\ (forall r r', oauth_state r = oauth_state r'
                   <-> forall i, i < 24 -> r i = r' i)
  /\ (forall r r', pkce_verifier r = pkce_verifier r'
                   <-> forall i, i < 48 -> r i = r' i).
Proof.
  intros Heq. split; [reflexivity|].
  split; [apply length_generateSecureRandom|].
  split; [by apply generateSecureRandom_prefix|].
  unfold oauth_state, pkce_verifier.
  rewrite !length_generateSecureRandom.
  do 4 (split; [reflexivity|]).
  split; intros r r'.
  - exact (generateSecureRandom_encodes 8 r r').
  - exact (generateSecureRandom_encodes 16 r r').
Qed.

Lemma generateSecureRandom_prefix_of_base64url_witness :
  (forall i, i < bytes_used 32 ->
     (fun _ : nat => Byte.x00) i
     = (fun i => if Nat.eqb i 31 then Byte.xff else Byte.x00) i)
  /\ generateSecureRandom 32 (fun _ => Byte.x00)
     = generateSecureRandom 32
         (fun i => if Nat.eqb i 31 then Byte.xff else Byte.x00).
Proof.
  assert (H : forall i, i < bytes_used 32 ->
            (fun _ : nat => Byte.x00) i
            = (fun i => if Nat.eqb i 31 then Byte.xff else Byte.x00) i).
  { intros i Hi. simpl. destruct (Nat.eqb_spec i 31) as [->|]; [|done].
    vm_compute in Hi. lia. }
  split; [exact H|].
  exact (proj1 (proj2 (proj2
    (generateSecureRandom_prefix_of_base64url 32 _ _ H)))).
Defined.

End SecureRandomFacts.

(** ** Tool preferences *)

Section ToolFacts.
Import Tools.

Lemma find_in {A} (f : A -> bool) (l : list A) (x : A) :
  x ∈ l -> f x = true -> exists y, find f l = Some y /\ y ∈ l /\ f y = true.
Proof.
  induction 1 as [x l|x z l Hin IH]; intros Hf; simpl.
  - rewrite Hf. exists x. repeat split; [constructor | done].
  - destruct (f z) eqn:Hz.
    + exists z. repeat split; [constructor | done].
    + destruct (IH Hf) as (y & Hy & Hyin & Hfy).
      exists y. repeat split; [done | by constructor | done].
Qed.

Lemma find_none {A} (f : A -> bool) (l : list A) :
  Forall (fun x => f x = false) l -> find f l = None.
Proof. induction 1 as [|x l Hx _ IH]; simpl; [done | by rewrite Hx]. Qed.

(** The repository resolves a preference in the order client-specific
    row, global row, nothing. *)
Lemma getServerTool_client_row db sid tn cid c r :
  or_null cid = Some c -> r ∈ db -> client_row sid tn c r = true ->
  exists r', getServerTool db sid tn cid = Some r'
             /\ r' ∈ db /\ client_row sid tn c r' = true.
Proof.
  intros Hc Hin Hrow. unfold getServerTool. rewrite Hc.
  destruct (find_in _ _ _ Hin Hrow) as (y & -> & Hy & Hfy). eauto.
Qed.

Lemma getServerTool_global_row db sid tn cid r :
  (forall c, or_null cid = Some c ->
             Forall (fun x => client_row sid tn c x = false) db) ->
  r ∈ db -> global_row sid tn r = true ->
  exists r', getServerTool db sid tn cid = Some r'
             /\ r' ∈ db /\ global_row sid tn r' = true.
Proof.
  intros Hnone Hin Hrow. unfold getServerTool.
  destruct (find_in _ _ _ Hin Hrow) as (y & Hfind & Hy & Hfy).
  destruct (or_null cid) as [c|]; [|eauto].
  rewrite (find_none _ _ (Hnone c eq_refl)). eauto.
Qed.

Lemma getServerTool_no_row db sid tn cid :
  (forall c, or_null cid = Some c ->
             Forall (fun x => client_row sid tn c x = false) db) ->
  Forall (fun x => global_row sid tn x = false) db ->
  getServerTool db sid tn cid = None.
Proof.
  intros Hnone Hglob. unfold getServerTool.
  destruct (or_null cid) as [c|]; [rewrite (find_none _ _ (Hnone c eq_refl))|];
    by apply find_none.
Qed.

(** With nothing cached for the tool, [isToolEnabled] answers from the
    repository and defaults to [true]. *)
Lemma isToolEnabled_cold svc sid tn cid :
  toolPreferencesCache svc !! cacheKey sid cid ≫= (fun m => m !! tn) = None ->
  (isToolEnabled svc sid tn cid).1
  = match getServerTool (rows svc) sid tn cid with
    | Some p => enabled p
    | None => true
    end.
Proof.
  intros Hcold. unfold isToolEnabled, getToolPreference. rewrite Hcold.
  by destruct (getServerTool (rows svc) sid tn cid).
Qed.

(** C5 (code defect): a global preference that disables tool ["t"] is
    stored (and cached under key ["s:global"]); [resetToolPreferences]
    then deletes every row of server ["s"] but clears cache key ["s"],
    which is not a key of the cache.  With no stored row left,
    [isToolEnabled] still answers [false] from the stale entry. *)
Theorem isToolEnabled_stale_after_reset :
  let pref := mkUpdate "t" None false None None None in
  let svc1 := (updateToolPreference fresh "s" pref 1000 "row-1").2 in
  let svc2 := (resetToolPreferences svc1 "s").2 in
  rows svc1 = [mkServerTool "row-1" "s" "t" None false None None None 1000 1000]
  /\ rows svc2 = []
  /\ getServerTool (rows svc2) "s" "t" None = None
  /\ (isToolEnabled svc2 "s" "t" None).1 = false.
Proof. vm_compute. repeat split. Qed.

Lemma length_append (a c : string) :
  String.length (a +:+ c) = String.length a + String.length c.
Proof. induction a as [|x a IH]; simpl; [done | by rewrite IH]. Qed.

(** A cache key is never the bare server id. *)
Lemma cacheKey_not_serverId sid cid : cacheKey sid cid <> sid.
Proof.
  intros H. apply (f_equal String.length) in H. unfold cacheKey in H.
  rewrite !length_append in H. simpl in H. lia.
Qed.

(** The invalidation the bulk operations perform removes no entry that
    [getToolPreference] reads for that server. *)
Lemma bulk_invalidation_misses (cache : gmap string (gmap string ServerTool))
    sid cid :
  delete sid cache !! cacheKey sid cid = cache !! cacheKey sid cid.
Proof.
  apply lookup_delete_ne. intros H. by apply (cacheKey_not_serverId sid cid).
Qed.

Lemma getServerTool_after_reset db sid tn cid :
  getServerTool (fst (deleteServerToolPreferences db sid)) sid tn cid = None.
Proof.
  apply getServerTool_no_row.
  - intros c _. apply Forall_forall. intros r [Hr _]%list_elem_of_filter.
    unfold client_row. by rewrite bool_decide_eq_false_2 by done.
  - apply Forall_forall. intros r [Hr _]%list_elem_of_filter.
    unfold global_row. by rewrite bool_decide_eq_false_2 by done.
Qed.

(** Whatever preference is cached for a tool survives
    [resetToolPreferences]: no row of the server is left, and
    [isToolEnabled] still answers from the cached preference. *)
Lemma isToolEnabled_after_reset svc sid tn cid p :
  toolPreferencesCache svc !! cacheKey sid cid ≫= (fun m => m !! tn) = Some p ->
  let svc' := snd (resetToolPreferences svc sid) in
  getServerTool (rows svc') sid tn cid = None
  /\ fst (isToolEnabled svc' sid tn cid) = enabled p.
Proof.
  intros Hc svc'. split.
  - apply getServerTool_after_reset.
  - unfold isToolEnabled, getToolPreference. subst svc'. simpl.
    by rewrite bulk_invalidation_misses, Hc.
Qed.

Lemma filter_other_set_enabled flag db sid now :
  filter (fun r => serverId r <> sid) (set_enabled_where_server flag db sid now)
  = filter (fun r => serverId r <> sid) db.
Proof.
  induction db as [|r db IH]; [done|].
  unfold set_enabled_where_server in *. cbn [map].
  case_bool_decide as Hr.
  - rewrite !filter_cons. cbn [serverId].
    destruct (decide (serverId r <> sid)); [done | exact IH].
  - rewrite !filter_cons.
    destruct (decide (serverId r <> sid)); [by rewrite IH | done].
Qed.

Lemma filter_mine_set_enabled flag db sid now :
  Forall (fun r => enabled r = flag)
    (filter (fun r => serverId r = sid)
       (set_enabled_where_server flag db sid now)).
Proof.
  induction db as [|r db IH]; [constructor|].
  unfold set_enabled_where_server in *. cbn [map].
  case_bool_decide as Hr; rewrite filter_cons; cbn [serverId].
  - rewrite decide_True by done. by constructor.
  - by rewrite decide_False by done.
Qed.

(** The bulk operations rewrite, or delete, every row of the server,
    whatever its client id, and leave the rows of other servers as they
    are. *)
Lemma bulk_operations_cover_whole_server svc sid now :
  Forall (fun r => enabled r = true)
    (filter (fun r => serverId r = sid) (rows (enableAllTools svc sid now)))
  /\ Forall (fun r => enabled r = false)
    (filter (fun r => serverId r = sid) (rows (disableAllTools svc sid now)))
  /\ filter (fun r => serverId r = sid) (rows (snd (resetToolPreferences svc sid)))
     = []
  /\ filter (fun r => serverId r <> sid) (rows (enableAllTools svc sid now))
     = filter (fun r => serverId r <> sid) (rows svc)
  /\ filter (fun r => serverId r <> sid) (rows (disableAllTools svc sid now))
     = filter (fun r => serverId r <> sid) (rows svc)
  /\ filter (fun r => serverId r <> sid) (rows (snd (resetToolPreferences svc sid)))
     = filter (fun r => serverId r <> sid) (rows svc).
Proof.
  split; [apply filter_mine_set_enabled|].
  split; [apply filter_mine_set_enabled|].
  split.
  { simpl. induction (rows svc) as [|r db IH]; [done|].
    rewrite filter_cons. destruct (decide (serverId r <> sid)) as [Hr|Hr].
    - rewrite filter_cons. by rewrite decide_False by done.
    - exact IH. }
  split; [apply filter_other_set_enabled|].
  split; [apply filter_other_set_enabled|].
  simpl. induction (rows svc) as [|r db IH]; [done|].
  rewrite !filter_cons. destruct (decide (serverId r <> sid)) as [Hr|Hr].
  - rewrite filter_cons. rewrite decide_True by done. by rewrite IH.
  - exact IH.
Qed.

(** Whatever client id the renderer sends, a row of the server that
    differs from what the operation writes does not survive it: a disabled
    row is rewritten by enable-all, an enabled row by disable-all, and any
    row is deleted by a reset, also when the row belongs to another client
    or is a global row. *)
Lemma bulk_operations_ignore_the_client svc sid cid now r :
  r ∈ rows svc -> serverId r = sid ->
  (enabled r = false -> r ∉ rows (api_enableAllTools svc sid cid now))
  /\ (enabled r = true -> r ∉ rows (api_disableAllTools svc sid cid now))
  /\ r ∉ rows (snd (api_resetToolPreferences svc sid cid)).
Proof.
  intros Hin Hsid.
  destruct (bulk_operations_cover_whole_server svc sid now)
    as (Hon & Hoff & Hreset & _).
  split; [|split].
  - intros He Hr. rewrite Forall_forall in Hon.
    assert (H : enabled r = true).
    { apply Hon, list_elem_of_filter. by split. }
    congruence.
  - intros He Hr. rewrite Forall_forall in Hoff.
    assert (H : enabled r = false).
    { apply Hoff, list_elem_of_filter. by split. }
    congruence.
  - intros Hr.
    assert (H : r ∈ filter (fun r => serverId r = sid)
                      (rows (snd (resetToolPreferences svc sid)))).
    { apply list_elem_of_filter. by split. }
    rewrite Hreset in H. by apply elem_of_nil in H.
Qed.

(** C6 (code defect): server ["s"] has a global row and one row each for
    the clients ["c1"] and ["c2"], all three disabled.  The renderer asks
    to enable all tools for the scope of client ["c1"]; the handler drops
    the client id, and the global row and the row of ["c2"], which are
    outside that scope, are rewritten too.  A reset issued for the scope
    of ["c1"] deletes all three rows. *)
Theorem enableAllTools_crosses_scopes :
  let g := mkServerTool "row-1" "s" "t" None false None None None 5 5 in
  let c1 := mkServerTool "row-2" "s" "t" (Some "c1") false None None None 6 6 in
  let c2 := mkServerTool "row-3" "s" "t" (Some "c2") false None None None 7 7 in
  let svc := mkService [g; c1; c2] ∅ in
  in_scope "s" (Some "c1") c1
  /\ ~ in_scope "s" (Some "c1") g
  /\ ~ in_scope "s" (Some "c1") c2
  /\ rows (api_enableAllTools svc "s" (Some "c1") 10)
     = [mkServerTool "row-1" "s" "t" None true None None None 5 10;
        mkServerTool "row-2" "s" "t" (Some "c1") true None None None 6 10;
        mkServerTool "row-3" "s" "t" (Some "c2") true None None None 7 10]
  /\ (g ∉ rows (api_enableAllTools svc "s" (Some "c1") 10))
  /\ (c2 ∉ rows (api_enableAllTools svc "s" (Some "c1") 10))
  /\ rows (snd (api_resetToolPreferences svc "s" (Some "c1"))) = [].
Proof.
  intros g c1 c2 svc.
  assert (Hrows : rows (api_enableAllTools svc "s" (Some "c1") 10)
     = [mkServerTool "row-1" "s" "t" None true None None None 5 10;
        mkServerTool "row-2" "s" "t" (Some "c1") true None None None 6 10;
        mkServerTool "row-3" "s" "t" (Some "c2") true None None None 7 10])
    by reflexivity.
  split; [by split|].
  split; [intros [_ H]; discriminate H|].
  split; [intros [_ H]; discriminate H|].
  split; [exact Hrows|].
  split; [|split; [|reflexivity]].
  - rewrite Hrows, list_elem_of_In. simpl.
    intros [H|[H|[H|[]]]]; discriminate H.
  - rewrite Hrows, list_elem_of_In. simpl.
    intros [H|[H|[H|[]]]]; discriminate H.
Qed.

End ToolFacts.

(** ** Server lifecycle *)

Section ServerManagerFacts.
Import ServerManager.

Lemma servers_get_Some m id r server :
  servers_get m id = Some (r, server)
  <-> servers m !! id = Some r /\ objects m !! r = Some server.
Proof.
  unfold servers_get. split.
  - destruct (servers m !! id) as [r'|]; [|done]. simpl.
    destruct (objects m !! r') as [sv|] eqn:E; [|done]. simpl.
    intros [= -> ->]. done.
  - intros [-> H]. simpl. by rewrite H.
Qed.

Lemma servers_get_None m id :
  servers_get m id = None
  <-> forall r, servers m !! id = Some r -> objects m !! r = None.
Proof.
  unfold servers_get. split.
  - destruct (servers m !! id) as [r'|]; [|done]. simpl.
    destruct (objects m !! r') as [sv|] eqn:E; [done|].
    by intros _ r [= <-].
  - intros H. destruct (servers m !! id) as [r'|]; [|done]. simpl.
    by rewrite (H r' eq_refl).
Qed.



(** ** The invariant *)

















(** ** Servers that nothing has exposed *)











Lemma servers_get_alter m id r server f cl nm sm :
  servers m !! id = Some r -> objects m !! r = Some server ->
  servers_get (mkManager (alter f r (objects m)) (servers m) cl nm sm) id
  = Some (r, f server).
Proof.
  intros Hr Hsv. apply servers_get_Some. split; [done|].
  cbn [objects]. by rewrite list_lookup_alter_eq, Hsv.
Qed.



(** A start whose connection fails, with no other start of the server
    under way and no client in the pool, leaves the server in status
    [error] with no client. *)
Lemma startServer_error l id r server p err log :
  servers_get (manager l) id = Some (r, server) ->
  starts l !! p = Some (Connecting id r) -> transports l id = 0 ->
  let l' := step l (Connected p (inr err) log) in
  status_of l' id = Some error /\ transports l' id = 0.
Proof.
  intros Hget Hp Ht l'. subst l'. unfold transports in *.
  cbn [step]. rewrite Hp. cbn [startServer_resume assign manager clients].
  apply servers_get_Some in Hget as [Hr Hsv]. split; [|done].
  unfold status_of, assign. cbn [manager].
  by rewrite (servers_get_alter _ id r server).
Qed.



(** Two starts of a server that overlap and both connect: the client of
    the second replaces the client of the first in the pool, and the
    first is never closed. *)
Lemma overlapping_starts_replace_client :
  let l := run one_server
             [Start "a"; Start "a"; Connected 0 (inl 7) None;
              Connected 1 (inl 8) None] in
  status_of l "a" = Some running
  /\ clients (manager l) !! "a" = Some 8
  /\ starts l = [Finished (Ok true); Finished (Ok true)].
Proof. by vm_compute. Qed.



End ServerManagerFacts.

(** ** Token lifecycle *)

Section TokenManagerFacts.
Import OAuthTypes TokenManager.



Lemma set_job_state_lookup js j st j' :
  set_job_state js j st !! j'
  = if decide (j = j')
    then (fun job => mkJob (job_server job) (job_config job) (job_token job) st)
           <$> js !! j'
    else js !! j'.
Proof.
  unfold set_job_state. rewrite list_lookup_alter.
  by destruct (decide (j = j')) as [->|Hne].
Qed.








Lemma returned_stable s ev c r :
  calls s !! c = Some (Returned r) -> calls (step s ev) !! c = Some (Returned r).
Proof.
  intros Hc.
  assert (Happ : forall x, (calls s ++ [x]) !! c = Some (Returned r))
    by (intros x; by apply lookup_app_l_Some).
  assert (Hmap : forall j o now,
             map (resume j o now) (calls s) !! c = Some (Returned r)).
  { intros j o now. change (map (resume j o now) (calls s))
      with (resume j o now <$> calls s).
    by rewrite list_lookup_fmap, Hc. }
  destruct ev as [sid now|j resp now uuid|j msg now|j|sid token]; simpl.
  - unfold getValidToken.
    repeat (match goal with
            | |- context [match ?x with _ => _ end] => destruct x
            end); simpl; auto.
  - destruct (jobs s !! j) as [job|]; [|done].
    destruct (job_state job); simpl; auto.
  - destruct (jobs s !! j) as [job|]; [|done].
    destruct (job_state job) as [k| | |]; simpl; auto.
    destruct (k <? MAX_REFRESH_RETRIES)%nat; simpl; auto.
  - destruct (jobs s !! j) as [job|]; [|done].
    destruct (job_state job); simpl; auto.
  - destruct (configs s !! sid); [|done].
    destruct (present (refreshToken token)); simpl; auto.
Qed.

Lemma settled_stable s ev j job :
  jobs s !! j = Some job -> unsettled job = false ->
  jobs (step s ev) !! j = Some job.
Proof.
  intros Hj Hu.
  assert (Happ : forall x, (jobs s ++ [x]) !! j = Some job)
    by (intros x; by apply lookup_app_l_Some).
  assert (Hset : forall j0 job0 st, jobs s !! j0 = Some job0 ->
             unsettled job0 = true ->
             set_job_state (jobs s) j0 st !! j = Some job).
  { intros j0 job0 st Hj0 Hu0. rewrite set_job_state_lookup.
    destruct (decide (j0 = j)) as [->|]; [congruence | done]. }
  destruct ev as [sid now|j0 resp now uuid|j0 msg now|j0|sid token]; simpl.
  - unfold getValidToken.
    repeat (match goal with
            | |- context [match ?x with _ => _ end] => destruct x
            end); simpl; auto.
  - destruct (jobs s !! j0) as [job0|] eqn:Hj0; [|done].
    destruct (job_state job0) eqn:Hst; simpl; auto.
    eapply Hset; [done|]. unfold unsettled. by rewrite Hst.
  - destruct (jobs s !! j0) as [job0|] eqn:Hj0; [|done].
    destruct (job_state job0) as [k| | |] eqn:Hst; simpl; auto.
    destruct (k <? MAX_REFRESH_RETRIES)%nat; simpl;
      (eapply Hset; [done|]; unfold unsettled; by rewrite Hst).
  - destruct (jobs s !! j0) as [job0|] eqn:Hj0; [|done].
    destruct (job_state job0) eqn:Hst; simpl; auto.
    eapply Hset; [done|]. unfold unsettled. by rewrite Hst.
  - destruct (configs s !! sid); [|done].
    destruct (present (refreshToken token)); simpl; auto.
Qed.

Lemma own_call_step sid c j token s ev :
  own_call sid c j token s -> own_call sid c j token (step s ev).
Proof.
  intros [[Hc (job & Hj & Hu)]|[[r Hc] (job & Hj & Hu)]].
  2:{ right. split; [exists r; by apply returned_stable|].
      exists job. split; [by apply settled_stable | done]. }
  assert (Hresume : forall j0 o now, j0 <> j ->
            map (resume j0 o now) (calls s) !! c
            = Some (AwaitingOwn sid j token)).
  { intros j0 o now Hne. change (map (resume j0 o now) (calls s))
      with (resume j0 o now <$> calls s).
    rewrite list_lookup_fmap, Hc. simpl.
    by destruct (Nat.eqb_spec j j0) as [->|]. }
  assert (Hsettle : forall o now, exists r,
            map (resume j o now) (calls s) !! c = Some (Returned r)).
  { intros o now. change (map (resume j o now) (calls s))
      with (resume j o now <$> calls s).
    rewrite list_lookup_fmap, Hc. simpl. rewrite Nat.eqb_refl.
    destruct o; [eauto|]. destruct (isTokenExpired token now); eauto. }
  assert (Hset : forall j0 st,
            exists job', set_job_state (jobs s) j0 st !! j = Some job'
              /\ unsettled job'
                 = if decide (j0 = j)
                   then match st with Requesting _ | Sleeping _ => true
                                 | _ => false end
                   else true).
  { intros j0 st. rewrite set_job_state_lookup, Hj. simpl.
    destruct (decide (j0 = j)); eauto. }
  destruct ev as [sid' now|j0 resp now uuid|j0 msg now|j0|sid' token'];
    simpl.
  - left. unfold getValidToken.
    repeat (match goal with
            | |- context [match ?x with _ => _ end] => destruct x
            end); simpl.
    all: split; [by apply lookup_app_l_Some|].
    all: exists job; split; [|done].
    all: try done; by apply lookup_app_l_Some.
  - destruct (jobs s !! j0) as [job0|] eqn:Hj0; [|by left; eauto].
    destruct (job_state job0) eqn:Hst; simpl; try (by left; eauto).
    destruct (Hset j0 (Fulfilled (refreshedToken (job_server job0)
                (refreshToken (job_token job0)) resp now uuid)))
      as (job' & Hj' & Hu').
    destruct (decide (j0 = j)) as [->|Hne].
    + right. split; [apply Hsettle | eauto].
    + left. split; [by apply Hresume | eauto].
  - destruct (jobs s !! j0) as [job0|] eqn:Hj0; [|by left; eauto].
    destruct (job_state job0) as [k| | |] eqn:Hst; simpl; try (by left; eauto).
    destruct (k <? MAX_REFRESH_RETRIES)%nat; simpl.
    + destruct (Hset j0 (Sleeping k)) as (job' & Hj' & Hu').
      left. split; [done|]. exists job'. split; [done|].
      rewrite Hu'. by destruct (decide (j0 = j)).
    + destruct (Hset j0 (Rejected msg)) as (job' & Hj' & Hu').
      destruct (decide (j0 = j)) as [->|Hne].
      * right. split; [apply Hsettle | eauto].
      * left. split; [by apply Hresume | eauto].
  - destruct (jobs s !! j0) as [job0|] eqn:Hj0; [|by left; eauto].
    destruct (job_state job0) as [|k| |] eqn:Hst; simpl; try (by left; eauto).
    destruct (Hset j0 (Requesting (S k))) as (job' & Hj' & Hu').
    left. split; [done|]. exists job'. split; [done|].
    rewrite Hu'. by destruct (decide (j0 = j)).
  - left. destruct (configs s !! sid'); [|by eauto].
    destruct (present (refreshToken token')); simpl; [|by eauto].
    split; [done|]. exists job. split; [by apply lookup_app_l_Some | done].
Qed.

Lemma own_call_run evs : forall sid c j token s,
  own_call sid c j token s -> own_call sid c j token (run s evs).
Proof.
  induction evs as [|ev evs IH]; intros sid c j token s H; [done|].
  simpl. apply IH. by apply own_call_step.
Qed.

Lemma returned_run evs : forall s c r,
  calls s !! c = Some (Returned r) -> calls (run s evs) !! c = Some (Returned r).
Proof.
  induction evs as [|ev evs IH]; intros s c r H; [done|].
  simpl. apply IH. by apply returned_stable.
Qed.





(** A refresh started by the scheduled timer while a refresh started by
    [getAccessToken] is in flight is not coalesced with it: two refreshes
    of server ["S"] are in flight, each has sent a request, and the map
    now holds the second. *)
Lemma direct_refresh_not_coalesced :
  let s := run example_state
             [CallGetValidToken "S" 1000; RefreshDirect "S" example_token] in
  in_flight s "S" = [0; 1]
  /\ requests s = [0; 1]
  /\ refreshPromises s !! "S" = Some 1.
Proof. by vm_compute. Qed.





(** The delay between two attempts leaves the token table as it is. *)
Lemma backoff_keeps_tokens s j :
  tokens (step s (BackoffElapsed j)) = tokens s.
Proof.
  simpl. destruct (jobs s !! j) as [job|]; [|done].
  by destruct (job_state job).
Qed.



(** C10: a call of [getAccessToken] that finds a token in need of a
    refresh and no refresh in flight returns null at once when the server
    has no configuration or the token no refresh token.  Otherwise it
    starts the refresh and never raises, whatever happens next; when the
    last attempt fails it returns null if the stored token has expired by
    then and the old access token if it has not. *)
Theorem refresh_failure_falls_back s sid now token evs msg now' :
  tokens s !! sid = Some token ->
  shouldRefreshToken token now = true ->
  refreshPromises s !! sid = None ->
  let c := length (calls s) in
  let j := length (jobs s) in
  let s1 := step s (CallGetValidToken sid now) in
  let s2 := run s1 evs in
  if bool_decide (is_Some (configs s !! sid)) && present (refreshToken token)
  then
    calls s1 !! c = Some (AwaitingOwn sid j token)
    /\ (forall m, calls s2 !! c <> Some (Raised m))
    /\ ((job_state <$> jobs s2 !! j) = Some (Requesting MAX_REFRESH_RETRIES) ->
        exists e, expiresAt token = Some e
        /\ calls (step s2 (TokenResponseError j msg now')) !! c
           = Some (Returned (if Z.leb e now' then None
                             else Some (accessToken token))))
  else
    calls s1 !! c = Some (Returned None)
    /\ calls s2 !! c = Some (Returned None).
Proof.
  intros Htok Hshould Hrp c j s1 s2.
  assert (Hs1 : s1 = getValidToken s sid now) by done.
  unfold getValidToken in Hs1. rewrite Htok, Hshould, Hrp in Hs1.
  destruct (configs s !! sid) as [config|] eqn:Hcfg; simpl.
  2:{ assert (Hc : calls s1 !! c = Some (Returned None)).
      { rewrite Hs1. simpl. rewrite lookup_app_r by done.
        by rewrite Nat.sub_diag. }
      split; [done | by apply returned_run]. }
  destruct (present (refreshToken token)) eqn:Hpres.
  2:{ assert (Hc : calls s1 !! c = Some (Returned None)).
      { rewrite Hs1. simpl. rewrite lookup_app_r by done.
        by rewrite Nat.sub_diag. }
      split; [done | by apply returned_run]. }
  assert (Hc : calls s1 !! c = Some (AwaitingOwn sid j token)).
  { rewrite Hs1. simpl. rewrite lookup_app_r by done.
    by rewrite Nat.sub_diag. }
  assert (Hown : own_call sid c j token s2).
  { apply own_call_run. left. split; [done|]. rewrite Hs1. simpl.
    eexists. split; [rewrite lookup_app_r by done; by rewrite Nat.sub_diag|].
    done. }
  split; [done|]. split.
  - intros m. destruct Hown as [[-> _]|[[r ->] _]]; done.
  - intros Hst.
    assert (He : exists e, expiresAt token = Some e /\ Z.eqb e 0 = false).
    { unfold shouldRefreshToken in Hshould. destruct (expiresAt token) as [e|];
        [|done]. exists e. split; [done|]. by destruct (Z.eqb e 0). }
    destruct He as (e & He & Hnz). exists e. split; [done|].
    destruct Hown as [[Hcall _]|[_ (job & Hj & Hu)]].
    2:{ rewrite Hj in Hst. simpl in Hst. injection Hst as Hst.
        unfold unsettled in Hu. by rewrite Hst in Hu. }
    simpl. destruct (jobs s2 !! j) as [job|]; [|done]. simpl in Hst.
    injection Hst as ->. simpl.
    change (map ?f ?l) with (f <$> l). rewrite list_lookup_fmap, Hcall. simpl.
    rewrite Nat.eqb_refl. unfold isTokenExpired. rewrite He, Hnz.
    by destruct (Z.leb e now').
Qed.

Lemma refresh_failure_falls_back_witness :
  tokens example_state !! "S" = Some example_token
  /\ shouldRefreshToken example_token 1000 = true
  /\ refreshPromises example_state !! "S" = None
  /\ exists e, expiresAt example_token = Some e
     /\ calls (run example_state
                 [CallGetValidToken "S" 1000;
                  TokenResponseError 0 "timeout" 1500; BackoffElapsed 0;
                  TokenResponseError 0 "timeout" 3000; BackoffElapsed 0;
                  TokenResponseError 0 "invalid_grant" 40000]) !! 0
        = Some (Returned (if Z.leb e 40000 then None
                          else Some (accessToken example_token))).
Proof.
  assert (H1 : tokens example_state !! "S" = Some example_token)
    by reflexivity.
  assert (H2 : shouldRefreshToken example_token 1000 = true) by reflexivity.
  assert (H3 : refreshPromises example_state !! "S" = None) by reflexivity.
  repeat (split; [assumption|]).
  pose proof (refresh_failure_falls_back example_state "S" 1000 example_token
                [TokenResponseError 0 "timeout" 1500; BackoffElapsed 0;
                 TokenResponseError 0 "timeout" 3000; BackoffElapsed 0]
                "invalid_grant" 40000 H1 H2 H3) as T.
  destruct T as (_ & _ & T). exact (T eq_refl).
Defined.

End TokenManagerFacts.

(** ** Encrypted storage, key rotation and backups *)

Section OAuthStoreFacts.
Import OAuthTypes OAuthStore.

(** The repository seals what it stores and opens what it returns. *)
Lemma repository_round_trip :
  Forall (fun r => seals (Plain "client-secret-1") (c_clientSecret r))
    (configRows configured)
  /\ Forall (fun r => seals (Plain "access-1") (Some (accessToken r))
                      /\ seals (Plain "refresh-1") (refreshToken r)
                      /\ seals (Plain "id-1") (idToken r))
       (tokenRows authenticated)
  /\ result (t ← getTokenByServerId "S"; mret (accessToken <$> t))
       authenticated
     = Ok (Some (Plain "access-1"))
  /\ result (c ← getConfigByServerId "S"; mret (c ≫= c_clientSecret))
       authenticated
     = Ok (Some (Plain "client-secret-1")).
Proof.
  split; [|split; [|split]].
  - vm_compute. by repeat constructor.
  - vm_compute. by repeat constructor.
  - reflexivity.
  - reflexivity.
Qed.

Section Stable.
Variable k : list Byte.byte.
Hypothesis Hk : length k = KEY_LENGTH.
Variable P : World -> Prop.
Hypothesis P_key : forall w, P w -> keyFile w = Some k.
Hypothesis P_drawn : forall w n, P w -> P (set_drawn n w).
Hypothesis P_uuid : forall w n, P w -> P (set_nextUuid n w).
Hypothesis P_logs : forall w l, P w -> P (set_auditLogs l w).
Hypothesis P_tokenRows : forall w r, P w -> P (set_tokenRows r w).
Hypothesis P_rotation :
  forall w c, P w -> P (set_keyRotationConfig c w).

Lemma stable_ret {A} (a : A) : stable P (mret a).
Proof. by intros w Hw. Qed.

Lemma stable_throw {A} msg : stable P (@throw A msg).
Proof. by intros w Hw. Qed.

Lemma stable_get {A} (f : World -> A) : stable P (get f).
Proof. by intros w Hw. Qed.

Lemma stable_modify (f : World -> World) :
  (forall w, P w -> P (f w)) -> stable P (modify f).
Proof. intros Hf w Hw. by apply Hf. Qed.

Lemma stable_bind {A B} (m : M A) (f : A -> M B) :
  stable P m -> (forall a, stable P (f a)) -> stable P (m ≫= f).
Proof.
  intros Hm Hf w Hw. specialize (Hm w Hw). unfold exec in *.
  unfold mbind, M_bind. destruct (m w) as [[a|msg] w']; simpl in *.
  - by apply Hf.
  - done.
Qed.

Lemma stable_try_catch {A} (m : M A) (h : string -> M A) :
  stable P m -> (forall msg, stable P (h msg)) -> stable P (try_catch m h).
Proof.
  intros Hm Hh w Hw. specialize (Hm w Hw). unfold exec, try_catch in *.
  destruct (m w) as [[a|msg] w']; simpl in *; [done | by apply Hh].
Qed.

Lemma stable_for_each {A} (xs : list A) (body : A -> M unit) :
  (forall x, stable P (body x)) -> stable P (for_each xs body).
Proof.
  intros Hb. induction xs as [|x xs IH]; simpl.
  - apply stable_ret.
  - apply stable_bind; [apply Hb | intros _; apply IH].
Qed.

Lemma stable_map_M {A B} (f : A -> M B) (xs : list A) :
  (forall x, stable P (f x)) -> stable P (map_M f xs).
Proof.
  intros Hf. induction xs as [|x xs IH]; simpl.
  - apply stable_ret.
  - apply stable_bind; [apply Hf | intros y].
    apply stable_bind; [apply IH | intros ys; apply stable_ret].
Qed.

Lemma stable_randomBytes n : stable P (randomBytes n).
Proof. intros w Hw. by apply P_drawn. Qed.

Lemma stable_uuidv4 : stable P uuidv4.
Proof. intros w Hw. by apply P_uuid. Qed.

Lemma getEncryptionKey_present w :
  P w -> getEncryptionKey w = (Ok k, w).
Proof.
  intros Hw. unfold getEncryptionKey, mbind, M_bind, get.
  by rewrite (P_key w Hw), Hk.
Qed.

Lemma stable_getEncryptionKey : stable P getEncryptionKey.
Proof. intros w Hw. unfold exec. by rewrite getEncryptionKey_present. Qed.

(** Discharges [stable] goals by following the structure of the
    computation. *)
Ltac stable :=
  repeat first
    [ solve [auto]
    | apply stable_ret | apply stable_throw | apply stable_get
    | apply stable_randomBytes | apply stable_uuidv4
    | apply stable_getEncryptionKey
    | apply stable_modify; solve [auto]
    | apply stable_bind; [|intros]
    | apply stable_try_catch; [|intros]
    | apply stable_for_each; intros
    | apply stable_map_M; intros
    | match goal with
      | |- stable _ (if ?b then _ else _) => destruct b
      | |- stable _ (match ?x with _ => _ end) => destruct x
      end ].

Lemma stable_encryptOAuthData p : stable P (encryptOAuthData p).
Proof. unfold encryptOAuthData. stable. Qed.

Lemma stable_decryptOAuthData c : stable P (decryptOAuthData c).
Proof. unfold decryptOAuthData. stable. Qed.

Lemma stable_mapRowToToken row : stable P (mapRowToToken row).
Proof.
  unfold mapRowToToken, decrypt_opt. pose proof stable_decryptOAuthData.
  stable.
Qed.

Lemma stable_getTokenByServerId sid : stable P (getTokenByServerId sid).
Proof. unfold getTokenByServerId. pose proof stable_mapRowToToken. stable. Qed.

Lemma stable_getAllTokens : stable P getAllTokens.
Proof. unfold getAllTokens. pose proof stable_mapRowToToken. stable. Qed.

Lemma stable_getAllConfigs : stable P getAllConfigs.
Proof.
  unfold getAllConfigs, mapRowToConfig, decryptOAuthConfig.
  pose proof stable_decryptOAuthData. stable.
Qed.

Lemma stable_logSecurityEvent e : stable P (logSecurityEvent e).
Proof. unfold logSecurityEvent. stable. Qed.

Lemma stable_saveToken t : stable P (saveToken t).
Proof.
  unfold saveToken, encrypt_opt.
  pose proof stable_encryptOAuthData. pose proof stable_getTokenByServerId.
  stable.
Qed.

Lemma stable_rotate_token t : stable P (rotate_token t).
Proof.
  unfold rotate_token.
  pose proof stable_encryptOAuthData. pose proof stable_decryptOAuthData.
  pose proof stable_saveToken. stable.
Qed.

Lemma stable_rotateEncryptionKeys : stable P rotateEncryptionKeys.
Proof.
  unfold rotateEncryptionKeys.
  pose proof stable_getAllConfigs. pose proof stable_getAllTokens.
  pose proof stable_rotate_token. pose proof stable_logSecurityEvent. stable.
Qed.

Lemma decryptOAuthData_sealed w iv p :
  P w -> decryptOAuthData (Sealed k iv p) w = (Ok p, w).
Proof.
  intros Hw. unfold decryptOAuthData. cbn [nonempty negb].
  unfold mbind, M_bind at 1. rewrite (getEncryptionKey_present w Hw).
  by rewrite decide_True.
Qed.

Lemma decryptOAuthData_plain w s :
  P w -> s <> "" ->
  decryptOAuthData (Plain s) w = (Throw "Failed to decrypt OAuth data", w).
Proof.
  intros Hw Hs. unfold decryptOAuthData. cbn [nonempty].
  destruct (String.eqb_spec s "") as [->|_]; [done|]. cbn [negb].
  unfold mbind, M_bind at 1. by rewrite (getEncryptionKey_present w Hw).
Qed.

(** The access token [mapRowToToken] returns is the plaintext of the
    column. *)
Lemma mapRowToToken_access w row iv p t w' :
  P w -> accessToken row = Sealed k iv p ->
  mapRowToToken row w = (Ok t, w') -> accessToken t = p.
Proof.
  intros Hw Hrow. unfold mapRowToToken. unfold mbind, M_bind at 1.
  rewrite Hrow, (decryptOAuthData_sealed w iv p Hw).
  unfold mbind, M_bind at 1.
  destruct (decrypt_opt (refreshToken row) w) as [[r|m] w1]; [|done].
  unfold mbind, M_bind at 1.
  destruct (decrypt_opt (idToken row) w1) as [[i|m] w2]; [|done].
  by intros [= <- _].
Qed.

(** Offered a plaintext access token, the loop body fails at once. *)
Lemma rotate_token_plain w t s :
  P w -> accessToken t = Plain s -> s <> "" ->
  rotate_token t w = (Throw "Failed to decrypt OAuth data", w).
Proof.
  intros Hw Ht Hs. unfold rotate_token. rewrite Ht. cbn [nonempty].
  destruct (String.eqb_spec s "") as [->|_]; [done|]. cbn [negb].
  unfold mbind, M_bind at 1.
  by rewrite (decryptOAuthData_plain w s Hw) by (by intros ->).
Qed.

(** Under a valid key file the only error the repository raises when it
    reads tokens is ["Failed to decrypt OAuth data"]. *)
Lemma throws_only_ret msg {A} (a : A) : throws_only P msg (mret a).
Proof. by intros w m' w' _ [=]. Qed.

Lemma throws_only_bind msg {A B} (m : M A) (f : A -> M B) :
  stable P m -> throws_only P msg m -> (forall a, throws_only P msg (f a)) ->
  throws_only P msg (m ≫= f).
Proof.
  intros Hs Hm Hf w m' w' Hw. specialize (Hs w Hw). unfold exec in Hs.
  unfold mbind, M_bind. specialize (Hm w).
  destruct (m w) as [[a|e] w1]; simpl in *.
  - by apply Hf.
  - intros [= <- <-]. by eapply Hm.
Qed.

Lemma throws_only_decryptOAuthData c :
  throws_only P "Failed to decrypt OAuth data" (decryptOAuthData c).
Proof.
  intros w m' w' Hw. unfold decryptOAuthData.
  destruct (negb (nonempty c)); [by intros [=]|].
  unfold mbind, M_bind. rewrite (getEncryptionKey_present w Hw).
  destruct c as [s|k' iv p]; [by intros [= <- _]|].
  destruct (decide (k' = k)); [by intros [=] | by intros [= <- _]].
Qed.

Lemma stable_decrypt_opt o : stable P (decrypt_opt o).
Proof. unfold decrypt_opt. pose proof stable_decryptOAuthData. stable. Qed.

Lemma throws_only_decrypt_opt o :
  throws_only P "Failed to decrypt OAuth data" (decrypt_opt o).
Proof.
  unfold decrypt_opt. destruct o as [t|]; [|apply throws_only_ret].
  destruct (nonempty t); [|apply throws_only_ret].
  apply throws_only_bind;
    [apply stable_decryptOAuthData | apply throws_only_decryptOAuthData |].
  intros a. apply throws_only_ret.
Qed.

Lemma throws_only_mapRowToToken row :
  throws_only P "Failed to decrypt OAuth data" (mapRowToToken row).
Proof.
  unfold mapRowToToken.
  apply throws_only_bind;
    [apply stable_decryptOAuthData | apply throws_only_decryptOAuthData |].
  intros a. apply throws_only_bind;
    [apply stable_decrypt_opt | apply throws_only_decrypt_opt |].
  intros r. apply throws_only_bind;
    [apply stable_decrypt_opt | apply throws_only_decrypt_opt |].
  intros i. apply throws_only_ret.
Qed.

Lemma throws_only_getAllTokens :
  throws_only P "Failed to decrypt OAuth data" getAllTokens.
Proof.
  unfold getAllTokens. apply throws_only_bind.
  - by intros w Hw.
  - by intros w m' w' _ [=].
  - intros rows. induction rows as [|r rows IH]; simpl.
    + apply throws_only_ret.
    + apply throws_only_bind;
        [apply stable_mapRowToToken | apply throws_only_mapRowToToken |].
      intros t. apply throws_only_bind;
        [apply stable_map_M; intros x; apply stable_mapRowToToken
        |apply IH|intros ts; apply throws_only_ret].
Qed.

End Stable.

Lemma getAllTokens_first k (P : World -> Prop) w row rest iv p toks w' :
  length k = KEY_LENGTH -> (forall w, P w -> keyFile w = Some k) ->
  P w -> tokenRows w = row :: rest -> accessToken row = Sealed k iv p ->
  getAllTokens w = (Ok toks, w') ->
  exists t ts, toks = t :: ts /\ accessToken t = p.
Proof.
  intros Hk HP Hw Hrows Hrow. unfold getAllTokens.
  unfold mbind, M_bind at 1. unfold get. rewrite Hrows. cbn [map_M].
  unfold mbind, M_bind at 1.
  destruct (mapRowToToken row w) as [[t|m] w1] eqn:E; [|done].
  unfold mbind, M_bind at 1.
  destruct (map_M mapRowToToken rest w1) as [[ts|m] w2]; [|done].
  intros [= <- _]. exists t, ts. split; [done|].
  by eapply (mapRowToToken_access k Hk P HP).
Qed.

(** [getAllConfigs] never throws: a secret that fails to decrypt is kept
    as it is. *)
Lemma getAllConfigs_returns w :
  exists cfgs w', getAllConfigs w = (Ok cfgs, w').
Proof.
  unfold getAllConfigs. unfold mbind, M_bind at 1. unfold get.
  generalize (stable_sort (fun a b => bool_decide (newer_first a b))
                (configRows w)).
  intros rows.
  revert w. induction rows as [|r rows IH]; intros w; simpl.
  - by eexists _, _.
  - unfold mbind, M_bind at 1.
    assert (H : exists c w1, mapRowToConfig r w = (Ok c, w1)).
    { unfold mapRowToConfig, decryptOAuthConfig.
      destruct (c_clientSecret r) as [s|]; [|by eexists _, _].
      destruct (nonempty s); [|by eexists _, _].
      unfold mbind, M_bind, try_catch.
      destruct (decryptOAuthData s w) as [[p|m] w1]; by eexists _, _. }
    destruct H as (c & w1 & ->).
    unfold mbind, M_bind at 1.
    destruct (IH w1) as (cs & w2 & ->). by eexists _, _.
Qed.

(** An encrypted backup cannot be made of a store that holds a token:
    whenever the first token row carries a ciphertext of a non-empty access
    token under the current key, [createBackup] with [includeTokens] and
    [encrypt] throws and writes no file. *)
Lemma encrypted_backup_fails w k row rest iv s options :
  keyFile w = Some k -> length k = KEY_LENGTH ->
  tokenRows w = row :: rest -> accessToken row = Sealed k iv (Plain s) ->
  s <> "" ->
  includeTokens options = true -> encrypt options = true ->
  result (createBackup options) w = Throw "Failed to decrypt OAuth data"
  /\ files (exec (createBackup options) w) = files w.
Proof.
  intros Hkey Hk Hrows Hrow Hs Hinc Henc.
  set (P := fun x : World => keyFile x = Some k /\ tokenRows x = row :: rest
                  /\ files x = files w).
  assert (HPk : forall x, P x -> keyFile x = Some k) by (by intros x [? _]).
  assert (Hw : P w) by done.
  enough (exists w', createBackup options w
                     = (Throw "Failed to decrypt OAuth data", w') /\ P w')
    as (w' & E & _ & _ & Hf) by (unfold result, exec; by rewrite E).
  unfold createBackup. rewrite Hinc, Henc.
  unfold mbind, M_bind at 1.
  pose proof (stable_getAllConfigs k Hk P HPk w Hw) as H1. unfold exec in H1.
  destruct (getAllConfigs_returns w) as (cfgs & w1 & E1).
  rewrite E1 in H1 |- *. simpl in H1. cbv beta iota.
  unfold mbind, M_bind at 1.
  pose proof (stable_getAllTokens k Hk P HPk w1 H1) as H2. unfold exec in H2.
  pose proof (throws_only_getAllTokens k Hk P HPk w1) as T2.
  destruct (getAllTokens w1) as [[toks|m] w2] eqn:E2; simpl in H2.
  2:{ rewrite (T2 m w2 H1 eq_refl). by exists w2. }
  destruct H1 as (? & Hrows1 & ?).
  destruct (getAllTokens_first k P w1 row rest iv (Plain s) toks w2
              Hk HPk ltac:(done) Hrows1 Hrow E2) as (t & ts & -> & Ht).
  unfold mbind, M_bind at 1. unfold get at 1.
  unfold mbind, M_bind at 1. unfold get at 1.
  unfold mbind, M_bind at 1. unfold get at 1.
  unfold mbind, M_bind at 1. cbn [map_M].
  unfold mbind, M_bind at 1. unfold backup_token at 1.
  unfold mbind, M_bind at 1. rewrite Ht.
  rewrite (decryptOAuthData_plain k Hk P HPk w2 s H2 Hs).
  by exists w2.
Qed.

Section Sealing.
Variable k : list Byte.byte.
Hypothesis Hk : length k = KEY_LENGTH.

Lemma getEncryptionKey_valid w :
  keyFile w = Some k -> getEncryptionKey w = (Ok k, w).
Proof.
  intros Hw.
  exact (getEncryptionKey_present k Hk (fun x => keyFile x = Some k)
           (fun x H => H) w Hw).
Qed.

Lemma encryptOAuthData_sealed w p :
  keyFile w = Some k -> nonempty p = true ->
  exists iv, encryptOAuthData p w
             = (Ok (Sealed k iv p), set_drawn (drawn w + IV_LENGTH) w).
Proof.
  intros Hw Hp. unfold encryptOAuthData. rewrite Hp. cbn [negb].
  unfold mbind, M_bind at 1. rewrite (getEncryptionKey_valid w Hw).
  by eexists.
Qed.

Lemma encrypt_opt_sealed w o :
  keyFile w = Some k ->
  exists o' n, encrypt_opt o w = (Ok o', set_drawn n w) /\ sealed_opt k o'.
Proof.
  intros Hw. unfold encrypt_opt.
  destruct o as [t|]; [|exists None, (drawn w); split; [by destruct w | by left]].
  destruct (nonempty t) eqn:Ht;
    [|exists None, (drawn w); split; [by destruct w | by left]].
  unfold mbind, M_bind.
  destruct (encryptOAuthData_sealed w t Hw Ht) as (iv & ->).
  eexists _, _. split; [done|]. right. by eexists _, _.
Qed.

Lemma decrypt_opt_sealed w o :
  keyFile w = Some k -> sealed_opt k o ->
  exists o', decrypt_opt o w = (Ok o', w).
Proof.
  intros Hw [->|(iv & p & ->)]; [by eexists|].
  unfold decrypt_opt. cbn [nonempty]. unfold mbind, M_bind.
  rewrite (decryptOAuthData_sealed k Hk (fun x => keyFile x = Some k)
             (fun x H => H) w iv p Hw).
  by eexists.
Qed.

(** After [INSERT OR REPLACE] the row read back for the server is the
    row just written. *)
Lemma find_saved_row (rows : list OAuthToken) row rowId :
  find (fun r => String.eqb (serverId r) (serverId row))
    (filter (fun r => id r <> Some rowId /\ serverId r <> serverId row) rows
     ++ [row])
  = Some row.
Proof.
  induction rows as [|r rows IH]; simpl.
  - by rewrite String.eqb_refl.
  - rewrite filter_cons.
    destruct (decide (id r <> Some rowId /\ serverId r <> serverId row))
      as [[_ Hne]|_]; [|exact IH].
    simpl. destruct (String.eqb_spec (serverId r) (serverId row)); [done|].
    exact IH.
Qed.

(** [saveToken] seals the access token it is given, whatever it is, and
    returns it as it was given. *)
Lemma saveToken_access w t :
  keyFile w = Some k -> nonempty (accessToken t) = true ->
  exists t' w', saveToken t w = (Ok t', w')
    /\ accessToken t' = accessToken t
    /\ keyFile w' = Some k
    /\ exists row iv,
         find (fun r => String.eqb (serverId r) (serverId t)) (tokenRows w')
         = Some row
         /\ accessToken row = Sealed k iv (accessToken t).
Proof.
  intros Hw Hne. unfold saveToken.
  unfold mbind, M_bind at 1.
  assert (Hid : exists rowId n,
            (if truthy (id t) then mret (str_or (id t) "") else uuidv4) w
            = (Ok rowId, set_nextUuid n w)).
  { destruct (truthy (id t)).
    - exists (str_or (id t) ""), (nextUuid w). by destruct w.
    - by eexists _, _. }
  destruct Hid as (rowId & n & ->).
  set (w1 := set_nextUuid n w). assert (H1 : keyFile w1 = Some k) by done.
  unfold mbind, M_bind at 1. unfold get at 1.
  unfold mbind, M_bind at 1.
  destruct (encryptOAuthData_sealed w1 (accessToken t) H1 Hne) as (iv & ->).
  set (w2 := set_drawn _ w1). assert (H2 : keyFile w2 = Some k) by done.
  unfold mbind, M_bind at 1.
  destruct (encrypt_opt_sealed w2 (refreshToken t) H2) as (r' & n3 & -> & Hr).
  set (w3 := set_drawn n3 w2). assert (H3 : keyFile w3 = Some k) by done.
  unfold mbind, M_bind at 1.
  destruct (encrypt_opt_sealed w3 (idToken t) H3) as (i' & n4 & -> & Hi).
  set (w4 := set_drawn n4 w3). assert (H4 : keyFile w4 = Some k) by done.
  unfold mbind, M_bind at 1. unfold modify at 1.
  set (row := mkToken (Some rowId) (serverId t) (Sealed k iv (accessToken t))
                r' i' (tokenType t) (expiresAt t) (issuedAt t) (lastUsed t)
                (refreshCount t) (Some (num_or (createdAt t) (clock w1)))
                (Some (clock w1))).
  set (w5 := set_tokenRows _ w4). assert (H5 : keyFile w5 = Some k) by done.
  assert (Hfind : find (fun r => String.eqb (serverId r) (serverId t))
                    (tokenRows w5) = Some row).
  { exact (find_saved_row (tokenRows w4) row rowId). }
  unfold mbind, M_bind at 1. unfold getTokenByServerId.
  unfold mbind, M_bind at 1. unfold get at 1. rewrite Hfind.
  unfold mbind, M_bind at 1. unfold mapRowToToken.
  change (accessToken row) with (Sealed k iv (accessToken t)).
  change (refreshToken row) with r'. change (idToken row) with i'.
  unfold mbind, M_bind at 1.
  rewrite (decryptOAuthData_sealed k Hk (fun x => keyFile x = Some k)
             (fun x H => H) w5 iv (accessToken t) H5).
  unfold mbind, M_bind at 1.
  destruct (decrypt_opt_sealed w5 r' H5 Hr) as (r'' & ->).
  unfold mbind, M_bind at 1.
  destruct (decrypt_opt_sealed w5 i' H5 Hi) as (i'' & ->).
  cbn. eexists _, _. split; [done|]. split; [done|]. split; [done|].
  by exists row, iv.
Qed.

(** [restore_token] seals the access token of the backup. *)
Lemma restore_token_sealed w t s :
  keyFile w = Some k -> accessToken t = Plain s -> s <> "" ->
  exists iv x n, restore_token t w = (Ok x, set_drawn n w)
                 /\ accessToken x = Sealed k iv (Plain s).
Proof.
  intros Hw Ht Hs.
  assert (Hne : nonempty (Plain s) = true).
  { simpl. by destruct (String.eqb_spec s ""). }
  unfold restore_token. unfold mbind, M_bind at 1. rewrite Ht.
  destruct (encryptOAuthData_sealed w (Plain s) Hw Hne) as (iv & ->).
  set (w1 := set_drawn _ w). assert (H1 : keyFile w1 = Some k) by done.
  unfold mbind, M_bind at 1.
  destruct (refreshToken t) as [r|]; cbn [present];
    [destruct (nonempty r) eqn:Hr|]; try by eexists _, _, _.
  unfold mbind, M_bind at 1.
  destruct (encryptOAuthData_sealed w1 r H1 Hr) as (iv' & ->).
  by eexists _, _, _.
Qed.

End Sealing.

(** Restoring a token that a backup carries in plaintext stores it sealed
    twice: [restoreBackup] seals it and [saveToken] seals the result, so
    what the repository hands out afterwards as the access token is a
    ciphertext of the access token the backup held. *)
Lemma restored_token_reads_as_ciphertext w k t s :
  keyFile w = Some k -> length k = KEY_LENGTH ->
  accessToken t = Plain s -> s <> "" ->
  exists iv t' w',
    (x ← restore_token t; saveToken x) w = (Ok t', w')
    /\ accessToken t' = Sealed k iv (Plain s).
Proof.
  intros Hw Hk Ht Hs.
  destruct (restore_token_sealed k Hk w t s Hw Ht Hs) as (iv & x & n & E & Hx).
  unfold mbind, M_bind. rewrite E.
  destruct (saveToken_access k Hk (set_drawn n w) x)
    as (t' & w' & -> & Hacc & _); [done | by rewrite Hx |].
  exists iv, t', w'. by rewrite Hacc.
Qed.

(** Whatever the store holds, a rotation leaves a valid key file as it
    is: the key is never replaced. *)
Lemma rotation_never_replaces_key w k :
  keyFile w = Some k -> length k = KEY_LENGTH ->
  keyFile (exec rotateEncryptionKeys w) = Some k.
Proof.
  intros Hkey Hk.
  by apply (stable_rotateEncryptionKeys k Hk (fun x => keyFile x = Some k)).
Qed.

(** When the first token row holds a ciphertext of a non-empty access
    token under the current key, the rotation is abandoned: key file,
    token rows and key version stay as they were. *)
Lemma rotation_abandoned w k row rest iv s :
  keyFile w = Some k -> length k = KEY_LENGTH ->
  tokenRows w = row :: rest -> accessToken row = Sealed k iv (Plain s) ->
  s <> "" ->
  keyFile (exec rotateEncryptionKeys w) = Some k
  /\ tokenRows (exec rotateEncryptionKeys w) = tokenRows w
  /\ keyRotationConfig (exec rotateEncryptionKeys w) = keyRotationConfig w.
Proof.
  intros Hkey Hk Hrows Hrow Hs.
  set (P := fun x : World => keyFile x = Some k /\ tokenRows x = row :: rest
                  /\ keyRotationConfig x = keyRotationConfig w).
  assert (HPk : forall x, P x -> keyFile x = Some k) by (by intros x [? _]).
  assert (HPd : forall x n, P x -> P (set_drawn n x)) by (by intros x n Hx).
  assert (HPl : forall x l, P x -> P (set_auditLogs l x)) by (by intros x l Hx).
  assert (Hw : P w) by done.
  enough (P (exec rotateEncryptionKeys w)) as (? & ? & ?)
    by (rewrite Hrows; done).
  assert (Hlog : forall e x, P x -> P (exec (logSecurityEvent e) x)).
  { intros e x Hx. by apply HPl. }
  unfold rotateEncryptionKeys, exec, try_catch.
  unfold mbind, M_bind at 1. cbn [randomBytes].
  set (w1 := set_drawn (drawn w + 32) w). assert (H1 : P w1) by by apply HPd.
  unfold mbind, M_bind at 1. cbn [get].
  unfold mbind, M_bind at 1.
  pose proof (stable_getAllConfigs k Hk P HPk w1 H1) as H2.
  unfold exec in H2.
  destruct (getAllConfigs w1) as [[cfgs|m] w2]; simpl in H2;
    [|by apply Hlog].
  unfold mbind, M_bind at 1.
  pose proof (stable_getAllTokens k Hk P HPk w2 H2) as H3.
  unfold exec in H3.
  destruct (getAllTokens w2) as [[toks|m] w3] eqn:E3; simpl in H3;
    [|by apply Hlog].
  destruct H2 as (? & Hrows2 & ?).
  destruct (getAllTokens_first k P w2 row rest iv (Plain s) toks w3
              Hk HPk ltac:(done) Hrows2 Hrow E3) as (t & ts & -> & Ht).
  unfold mbind, M_bind at 1. cbn [for_each].
  unfold mbind, M_bind at 1.
  rewrite (rotate_token_plain k Hk P HPk w3 t s H3 Ht Hs).
  by apply Hlog.
Qed.


(** C1 (code defect): server ["S"] is configured with a client secret,
    which the repository stores sealed.  The daily automatic backup asks
    for an encrypted backup but passes no password, so [createBackup]
    skips [encryptBackup] and writes the JSON text itself: the backup
    file, marked [encrypted], holds the client secret in plaintext. *)
Theorem automatic_backup_writes_client_secret :
  let w := exec (createAutomaticBackup "/data/oauth-backups"
                   "2023-11-14T22-13-20") configured in
  Forall (fun r => seals (Plain "client-secret-1") (c_clientSecret r))
    (configRows configured)
  /\ exists b,
       files w !! "/data/oauth-backups/auto-backup-2023-11-14T22-13-20.json"
       = Some (Json b)
       /\ encrypted b = true
       /\ c_clientSecret <$> b_configs b = [Some (Plain "client-secret-1")].
Proof.
  split.
  - vm_compute. by repeat constructor.
  - eexists. split; [vm_compute; reflexivity|]. split; reflexivity.
Qed.


(** Once a backup that carries plaintext tokens has been restored, the
    tokens are stored sealed twice, [createBackup] can open them, and the
    next automatic backup writes access, refresh and id token in
    plaintext. *)
Lemma automatic_backup_after_restore_writes_tokens :
  let restored :=
    exec (restoreBackup "/tmp/backup.json"
            (mkRestoreOptions true (Some "passphrase") true))
      with_backup_file in
  let w := exec (createAutomaticBackup "/data/oauth-backups"
                   "2023-11-15T22-13-20") restored in
  exists b,
    files w !! "/data/oauth-backups/auto-backup-2023-11-15T22-13-20.json"
    = Some (Json b)
    /\ accessToken <$> b_tokens b = [Plain "access-1"]
    /\ refreshToken <$> b_tokens b = [Some (Plain "refresh-1")]
    /\ idToken <$> b_tokens b = [Some (Plain "id-1")].
Proof.
  eexists. split; [vm_compute; reflexivity|]. repeat split.
Qed.

(** A backup made without encryption redacts the access token and drops
    the refresh token, but keeps the id token as the repository returned
    it. *)
Lemma unencrypted_backup_keeps_id_token :
  let w := exec (createBackup (mkBackupOptions true false None
                                 (Some "/tmp/export.json"))) authenticated in
  exists b,
    files w !! "/tmp/export.json" = Some (Json b)
    /\ accessToken <$> b_tokens b = [Plain "[REDACTED]"]
    /\ refreshToken <$> b_tokens b = [None]
    /\ idToken <$> b_tokens b = [Some (Plain "id-1")].
Proof.
  eexists. split; [vm_compute; reflexivity|]. repeat split.
Qed.

(** C2 (code defect): with a token stored, [rotateEncryptionKeys] reads
    the tokens already decrypted, fails to decrypt the plaintext access
    token, and gives up: the key file, the rows and the key version are as
    before and an error is logged.  With no token stored the rotation
    "succeeds": the key version goes from 1 to 2 while the key file still
    holds the old key. *)
Theorem rotation_keeps_the_old_key :
  let w := exec rotateEncryptionKeys authenticated in
  let w' := exec rotateEncryptionKeys configured in
  keyFile w = keyFile authenticated
  /\ tokenRows w = tokenRows authenticated
  /\ keyVersion (keyRotationConfig w) = keyVersion (keyRotationConfig authenticated)
  /\ last (auditLogs w)
     = Some (mkLog KEY_ROTATED "error" "Failed to decrypt OAuth data")
  /\ keyFile w' = keyFile configured
  /\ keyVersion (keyRotationConfig w')
     = (keyVersion (keyRotationConfig configured) + 1)%Z
  /\ last (auditLogs w') = Some (mkLog KEY_ROTATED "info" "rotated").
Proof. vm_compute. repeat split. Qed.


(** C7 (code defect): an encrypted backup of a store that holds a token
    cannot be made, because [createBackup] decrypts tokens the repository
    has already decrypted; no file is written.  Restoring a backup that
    carries the plaintext tokens under the matching passphrase encrypts
    them twice, once in [restoreBackup] and once in [saveToken], so the
    access token read back is a ciphertext of the original, not the
    original.  A non-matching passphrase is rejected. *)
Theorem backup_restore_does_not_round_trip :
  let options := mkBackupOptions true true (Some "passphrase")
                   (Some "/tmp/backup.json") in
  let restore pw := restoreBackup "/tmp/backup.json"
                      (mkRestoreOptions true (Some pw) true) in
  result (createBackup options) authenticated
  = Throw "Failed to decrypt OAuth data"
  /\ files (exec (createBackup options) authenticated) = ∅
  /\ result (restore "passphrase") with_backup_file = Ok (1, 1)
  /\ (exists key iv,
       result (t ← getTokenByServerId "S"; mret (accessToken <$> t))
         (exec (restore "passphrase") with_backup_file)
       = Ok (Some (Sealed key iv (Plain "access-1"))))
  /\ result (restore "wrong") with_backup_file
     = Throw "Unsupported state or unable to authenticate data".
Proof.
  split; [reflexivity|]. split; [reflexivity|]. split; [reflexivity|].
  split; [|reflexivity]. eexists _, _. vm_compute. reflexivity.
Qed.

End OAuthStoreFacts.

(* ===================================================================== *)
(** * Properties of the rest of the code                                   *)
(* ===================================================================== *)

(** ** Sorting *)

Section SortFacts.
Context {A : Type} (R : relation A) `{!forall x y, Decision (R x y)}.

Lemma insert_sorted_Permutation before (x : A) l :
  insert_sorted before x l ≡ₚ x :: l.
Proof.
  induction l as [|y l IH]; simpl; [done|].
  destruct (before x y); [done|]. rewrite IH. apply Permutation_swap.
Qed.

Lemma stable_sort_Permutation before (l : list A) : stable_sort before l ≡ₚ l.
Proof.
  induction l as [|x l IH]; simpl; [done|].
  by rewrite insert_sorted_Permutation, IH.
Qed.

Lemma insert_sorted_StronglySorted x l :
  Transitive R -> Total R -> StronglySorted R l ->
  StronglySorted R (insert_sorted (fun a b => bool_decide (R a b)) x l).
Proof.
  intros Htrans Htotal. induction 1 as [|y l Hl IH Hy]; simpl.
  - repeat constructor.
  - case_bool_decide as Hxy.
    + constructor; [by constructor|]. constructor; [done|].
      eapply Forall_impl; [exact Hy|]. intros z Hz. by transitivity y.
    + constructor; [done|].
      rewrite insert_sorted_Permutation. constructor; [|done].
      by destruct (Htotal x y).
Qed.

Lemma stable_sort_StronglySorted l :
  Transitive R -> Total R ->
  StronglySorted R (stable_sort (fun a b => bool_decide (R a b)) l).
Proof.
  intros Htrans Htotal. induction l as [|x l IH]; simpl; [constructor|].
  by apply insert_sorted_StronglySorted.
Qed.

(** Elements that tie keep their order: sorting a list that is sorted
    already changes nothing. *)
Lemma stable_sort_sorted l :
  StronglySorted R l -> stable_sort (fun a b => bool_decide (R a b)) l = l.
Proof.
  induction 1 as [|x l Hl IH Hx]; simpl; [done|]. rewrite IH.
  destruct l as [|y l']; simpl; [done|].
  apply Forall_cons in Hx as [Hxy _]. by rewrite bool_decide_eq_true_2.
Qed.

End SortFacts.

Section ToolAdminFacts.
Import Tools ToolAdmin.

Lemma find_map_preserved {A} (f : A -> bool) (g : A -> A) (l : list A) :
  (forall x, f (g x) = f x) -> find f (map g l) = g <$> find f l.
Proof.
  intros Hfg. induction l as [|x l IH]; simpl; [done|].
  rewrite Hfg. by destruct (f x).
Qed.

Lemma find_snoc_none {A} (f : A -> bool) (l : list A) (x : A) :
  find f l = None -> find f (l ++ [x]) = if f x then Some x else None.
Proof.
  induction l as [|y l IH]; simpl; [done|].
  destruct (f y); [done | exact IH].
Qed.

Lemma find_Some_true {A} (f : A -> bool) (l : list A) (x : A) :
  find f l = Some x -> f x = true /\ x ∈ l.
Proof.
  induction l as [|y l IH]; simpl; [done|].
  destruct (f y) eqn:Hy.
  - intros [= <-]. split; [done | left].
  - intros H. destruct (IH H). split; [done | by right].
Qed.

Lemma global_row_spec sid tn r :
  global_row sid tn r = true
  <-> serverId r = sid /\ toolName r = tn /\ clientId r = None.
Proof.
  unfold global_row. rewrite !andb_true_iff, !bool_decide_eq_true. tauto.
Qed.

Lemma client_row_spec sid tn c r :
  client_row sid tn c r = true
  <-> serverId r = sid /\ toolName r = tn /\ clientId r = Some c.
Proof.
  unfold client_row. rewrite !andb_true_iff, !bool_decide_eq_true. tauto.
Qed.

Lemma getServerTool_map (g : ServerTool -> ServerTool) db sid tn cid :
  (forall x c, client_row sid tn c (g x) = client_row sid tn c x) ->
  (forall x, global_row sid tn (g x) = global_row sid tn x) ->
  getServerTool (map g db) sid tn cid = g <$> getServerTool db sid tn cid.
Proof.
  intros Hc Hg. unfold getServerTool.
  destruct (or_null cid) as [c|].
  - rewrite (find_map_preserved _ g db (fun x => Hc x c)).
    destruct (find (client_row sid tn c) db); [done|].
    by rewrite (find_map_preserved _ g db Hg).
  - by rewrite (find_map_preserved _ g db Hg).
Qed.

(** X1: A preference written for a scope is read back from that scope: when
    the scope is the global one, or the client already has a row of its own,
    or no global row stands in for it, [upsertToolPreference] returns the row
    [getServerTool] finds afterwards, and that row carries the flag and the
    custom texts just written. *)
Theorem upsert_then_get db sid p now uuid :
  (forall c, or_null (u_clientId p) = Some c ->
     find (client_row sid (u_toolName p) c) db = None ->
     find (global_row sid (u_toolName p)) db = None) ->
  exists r,
    snd (upsertToolPreference db sid p now uuid) = Some r
    /\ getServerTool (fst (upsertToolPreference db sid p now uuid)) sid
         (u_toolName p) (u_clientId p) = Some r
    /\ serverId r = sid /\ written p r.
Proof.
  intros Hscope. unfold upsertToolPreference. cbn [fst snd].
  set (upd := fun r : ServerTool =>
        if scope_row sid (u_toolName p) (u_clientId p) r then
          mkServerTool (id r) (serverId r) (toolName r) (clientId r)
            (u_enabled p)
            (coalesce (or_null (u_originalDescription p))
               (originalDescription r))
            (or_null (u_customName p)) (or_null (u_customDescription p))
            (createdAt r) now
        else r).
  set (new := mkServerTool uuid sid (u_toolName p) (or_null (u_clientId p))
                (u_enabled p) (or_null (u_originalDescription p))
                (or_null (u_customName p)) (or_null (u_customDescription p))
                now now).
  destruct (getServerTool db sid (u_toolName p) (u_clientId p)) as [ex|]
    eqn:Hex.
  - (* Update existing *)
    rewrite (getServerTool_map upd db sid (u_toolName p) (u_clientId p)), Hex.
    2:{ intros x c. unfold upd. by destruct (scope_row _ _ _ x). }
    2:{ intros x. unfold upd. by destruct (scope_row _ _ _ x). }
    exists (upd ex). split; [done|]. split; [done|].
    assert (Hs : scope_row sid (u_toolName p) (u_clientId p) ex = true
                 /\ serverId ex = sid /\ toolName ex = u_toolName p
                 /\ clientId ex = or_null (u_clientId p)).
    { unfold getServerTool in Hex. unfold scope_row.
      destruct (or_null (u_clientId p)) as [c|] eqn:Hcid.
      - destruct (find (client_row sid (u_toolName p) c) db) as [cr|] eqn:Hcr.
        + injection Hex as ->. apply find_Some_true in Hcr as [Hcr _].
          split; [done|]. by apply client_row_spec in Hcr.
        + rewrite (Hscope c eq_refl Hcr) in Hex. done.
      - apply find_Some_true in Hex as [Hg _].
        split; [done|]. by apply global_row_spec in Hg. }
    destruct Hs as (Hs & ? & ? & ?). unfold upd. rewrite Hs.
    by repeat split.
  - (* Insert new *)
    assert (Hnew : getServerTool (db ++ [new]) sid (u_toolName p)
                     (u_clientId p) = Some new).
    { unfold getServerTool in *.
      destruct (or_null (u_clientId p)) as [c|] eqn:Hcid.
      - destruct (find (client_row sid (u_toolName p) c) db) eqn:Hcr;
          [done|].
        rewrite (find_snoc_none _ db _ Hcr).
        assert (client_row sid (u_toolName p) c new = true) as ->; [|done].
        apply client_row_spec. unfold new. simpl. by rewrite ?Hcid.
      - rewrite (find_snoc_none _ db _ Hex).
        assert (global_row sid (u_toolName p) new = true) as ->; [|done].
        apply global_row_spec. unfold new. simpl. by rewrite ?Hcid. }
    exists new. split; [done|]. split; [done|]. by repeat split.
Qed.

Lemma upsert_then_get_witness :
  exists r,
    snd (upsertToolPreference [] "s" (mkUpdate "t" (Some "c1") false None
                                         (Some "alias") None) 7 "row-1")
    = Some r
    /\ enabled r = false /\ customName r = Some "alias"
    /\ clientId r = Some "c1".
Proof.
  destruct (upsert_then_get [] "s"
              (mkUpdate "t" (Some "c1") false None (Some "alias") None)
              7 "row-1")
    as (r & Hr & _ & _ & He & Hn & _ & _ & Hc); [done|].
  exists r. by repeat split.
Defined.

(** X2: A client cannot get a preference of its own through
    [upsertToolPreference] once a global row exists for the tool: the lookup
    falls back to the global row, the code takes the update branch, the
    [UPDATE] matches no row of the client, and the table is left as it was.
    The call returns the global row, unchanged. *)
Theorem upsert_for_client_shadowed_by_global db sid p now uuid c g :
  or_null (u_clientId p) = Some c ->
  find (client_row sid (u_toolName p) c) db = None ->
  find (global_row sid (u_toolName p)) db = Some g ->
  upsertToolPreference db sid p now uuid = (db, Some g).
Proof.
  intros Hcid Hcr Hgr. unfold upsertToolPreference.
  assert (Hget : getServerTool db sid (u_toolName p) (u_clientId p) = Some g).
  { unfold getServerTool. by rewrite Hcid, Hcr. }
  rewrite Hget.
  assert (Hmap : map (fun r =>
             if scope_row sid (u_toolName p) (u_clientId p) r then
               mkServerTool (id r) (serverId r) (toolName r) (clientId r)
                 (u_enabled p)
                 (coalesce (or_null (u_originalDescription p))
                    (originalDescription r))
                 (or_null (u_customName p)) (or_null (u_customDescription p))
                 (createdAt r) now
             else r) db = db).
  { rewrite <- (map_id db) at 2. apply map_ext_in. intros r Hr.
    unfold scope_row. rewrite Hcid.
    destruct (client_row sid (u_toolName p) c r) eqn:E; [|done].
    exfalso. apply list_elem_of_In in Hr.
    destruct (find_in _ _ _ Hr E) as (y & Hy & _). congruence. }
  rewrite Hmap. by rewrite Hget.
Qed.

Lemma upsert_for_client_shadowed_by_global_witness :
  let g := mkServerTool "row-1" "s" "t" None true None None None 5 5 in
  upsertToolPreference [g] "s" (mkUpdate "t" (Some "c1") false None None None)
    9 "row-2"
  = ([g], Some g).
Proof.
  intros g.
  exact (upsert_for_client_shadowed_by_global [g] "s"
           (mkUpdate "t" (Some "c1") false None None None) 9 "row-2" "c1" g
           eq_refl eq_refl eq_refl).
Defined.

(** X3: [deleteToolPreference] removes the preference of a tool for every
    client at once: afterwards no scope resolves the tool, the rows of other
    tools and servers are untouched, and the result tells whether a row was
    deleted. *)
Theorem deleteToolPreference_all_scopes db sid tn :
  let '(db', deleted) := deleteToolPreference db sid tn in
  (forall cid, getServerTool db' sid tn cid = None)
  /\ (forall r, r ∈ db' <-> r ∈ db /\ ~ (serverId r = sid /\ toolName r = tn))
  /\ (deleted = true <-> exists r, r ∈ db /\ serverId r = sid /\ toolName r = tn).
Proof.
  unfold deleteToolPreference.
  set (keep := fun r : ServerTool => ~ (serverId r = sid /\ toolName r = tn)).
  split; [|split].
  - intros cid. apply getServerTool_no_row.
    + intros c _. apply Forall_forall. intros r [Hr _]%list_elem_of_filter.
      destruct (client_row sid tn c r) eqn:E; [|done].
      apply client_row_spec in E as (? & ? & ?). by destruct Hr.
    + apply Forall_forall. intros r [Hr _]%list_elem_of_filter.
      destruct (global_row sid tn r) eqn:E; [|done].
      apply global_row_spec in E as (? & ? & ?). by destruct Hr.
  - intros r. rewrite list_elem_of_filter. unfold keep. tauto.
  - rewrite negb_true_iff, Nat.eqb_neq. split.
    + intros Hlen.
      destruct (decide (Forall keep db)) as [Hall|Hnot].
      * exfalso. apply Hlen. f_equal.
        clear Hlen. induction Hall as [|r l Hr _ IH]; [done|].
        rewrite filter_cons, decide_True by done. by rewrite IH.
      * apply not_Forall_Exists in Hnot; [|apply _].
        apply Exists_exists in Hnot as (r & Hr & Hk).
        exists r. split; [done|]. unfold keep, compose in Hk.
        destruct (decide (serverId r = sid)), (decide (toolName r = tn));
          tauto.
    + intros (r & Hr & Hs & Ht) Hlen.
      assert (Hin : r ∈ filter keep db).
      { pose proof (length_filter keep db) as Hle.
        assert (Heq : filter keep db = db).
        { clear -Hlen. induction db as [|x l IH]; [done|].
          rewrite filter_cons in *. destruct (decide (keep x)).
          - simpl in Hlen. f_equal. apply IH. lia.
          - pose proof (length_filter keep l). simpl in Hlen. lia. }
        by rewrite Heq. }
      apply list_elem_of_filter in Hin as [Hk _]. by apply Hk.
Qed.

(** X4: The statistics of a server count rows, not tools: every row of the
    server is counted once as enabled or as disabled, whatever its client, and
    the customised rows are among them. *)
Theorem getToolStatistics_partition db sid :
  let s := getToolStatistics db sid in
  total s = st_enabled s + st_disabled s
  /\ customized s <= total s
  /\ total s = length (filter (fun r => serverId r = sid) db).
Proof.
  unfold getToolStatistics. cbn [total st_enabled st_disabled customized].
  set (rows := filter (fun r => serverId r = sid) db).
  split; [|split; [apply length_filter | done]].
  induction rows as [|r rows IH]; [done|].
  rewrite !filter_cons. destruct (enabled r) eqn:E.
  - rewrite decide_True by done. rewrite decide_False by done.
    simpl. lia.
  - rewrite decide_False by done. rewrite decide_True by done.
    simpl. lia.
Qed.

End ToolAdminFacts.

Section ToolListingFacts.
Import Tools ToolAdmin ToolListing.

Lemma map_get_set {V} (k k0 : string) (v : V) (m : JsMap V) :
  map_get k (map_set k0 v m) = if String.eqb k0 k then Some v else map_get k m.
Proof.
  unfold map_get. induction m as [|[k' v'] m IH]; simpl.
  - by destruct (String.eqb k0 k).
  - destruct (String.eqb_spec k' k0) as [->|Hne]; simpl.
    + by destruct (String.eqb k0 k).
    + destruct (String.eqb_spec k' k) as [->|Hne'].
      * destruct (String.eqb_spec k0 k) as [->|]; [done|done].
      * exact IH.
Qed.

Lemma map_set_keys {V} (k0 : string) (v : V) (m : JsMap V) :
  NoDup (map fst m) ->
  NoDup (map fst (map_set k0 v m))
  /\ forall k, k ∈ map fst (map_set k0 v m) <-> k = k0 \/ k ∈ map fst m.
Proof.
  induction m as [|[k' v'] m IH]; simpl; intros Hnd.
  - split; [apply NoDup_singleton|].
    intros k. rewrite list_elem_of_singleton, elem_of_nil. tauto.
  - apply NoDup_cons in Hnd as [Hk Hnd]. destruct (IH Hnd) as [IH1 IH2].
    destruct (String.eqb_spec k' k0) as [->|Hne]; simpl.
    + split; [by apply NoDup_cons|].
      intros k. rewrite !elem_of_cons. tauto.
    + split.
      * apply NoDup_cons. split; [|done]. rewrite IH2. tauto.
      * intros k. rewrite !elem_of_cons, IH2. tauto.
Qed.

Lemma map_set_values {V} (f : V -> string) (k0 : string) (v : V)
    (m : JsMap V) :
  f v = k0 -> Forall (fun kv => fst kv = f (snd kv)) m ->
  Forall (fun kv => fst kv = f (snd kv)) (map_set k0 v m).
Proof.
  intros Hv. induction 1 as [|[k' v'] m Hk Hm IH]; simpl.
  - by repeat constructor.
  - destruct (String.eqb k' k0); constructor; simpl; auto.
Qed.

(** Looking a key up in the map, or its value up in the list of values. *)
Lemma find_map_values {V} (f : V -> string) (k : string) (m : JsMap V) :
  Forall (fun kv => fst kv = f (snd kv)) m ->
  find (fun v => String.eqb (f v) k) (map_values m) = map_get k m.
Proof.
  unfold map_get, map_values.
  induction 1 as [|[k' v'] m Hk _ IH]; simpl; [done|].
  simpl in Hk. rewrite <- Hk. by destruct (String.eqb k' k).
Qed.

Lemma find_snoc {A} (f : A -> bool) (l : list A) (x : A) :
  find f (l ++ [x])
  = match find f l with
    | Some y => Some y
    | None => if f x then Some x else None
    end.
Proof.
  induction l as [|y l IH]; simpl; [done|]. by destruct (f y).
Qed.

(** Two rows with the same key are the same row. *)
Lemma key_unique (l : list ServerTool) x y :
  NoDup (map key l) -> x ∈ l -> y ∈ l -> key x = key y -> x = y.
Proof.
  induction l as [|z l IH]; simpl; intros Hnd Hx Hy Hk;
    [by apply elem_of_nil in Hx|].
  apply NoDup_cons in Hnd as [Hz Hnd].
  apply elem_of_cons in Hx as [->|Hx]; apply elem_of_cons in Hy as [->|Hy].
  - done.
  - exfalso. apply Hz. rewrite Hk. by apply list_elem_of_fmap_2.
  - exfalso. apply Hz. rewrite <- Hk. by apply list_elem_of_fmap_2.
  - by apply IH.
Qed.

(** With unique keys [find] does not depend on the order of the rows. *)
Lemma find_unique (p : ServerTool -> bool) (l : list ServerTool) r :
  (forall x y, x ∈ l -> y ∈ l -> p x = true -> p y = true -> x = y) ->
  find p l = Some r <-> r ∈ l /\ p r = true.
Proof.
  intros Hu. split.
  - intros H. apply find_Some_true in H. tauto.
  - intros [Hr Hp]. destruct (find_in p l r Hr Hp) as (y & Hy & Hyl & Hpy).
    by rewrite (Hu r y Hr Hyl Hp Hpy).
Qed.

Lemma find_None_iff {A} (p : A -> bool) (l : list A) :
  find p l = None <-> forall x, x ∈ l -> p x = false.
Proof.
  split.
  - intros H x Hx. destruct (p x) eqn:E; [|done].
    destruct (find_in p l x Hx E) as (y & Hy & _). congruence.
  - intros H. apply find_none, Forall_forall. exact H.
Qed.

Lemma find_same (p : ServerTool -> bool) (l l' : list ServerTool) :
  (forall x y, x ∈ l -> y ∈ l -> p x = true -> p y = true -> x = y) ->
  (forall x, p x = true -> (x ∈ l' <-> x ∈ l)) ->
  find p l' = find p l.
Proof.
  intros Hu Hin.
  destruct (find p l) as [r|] eqn:E.
  - apply find_unique in E as [Hr Hp]; [|done].
    apply find_unique; [|by rewrite Hin].
    intros x y Hx Hy Hpx Hpy. apply Hu; try done; by apply Hin.
  - apply find_None_iff. intros x Hx. destruct (p x) eqn:Hp; [|done].
    rewrite find_None_iff in E. rewrite <- (E x); [done|]. by apply Hin.
Qed.

Section Resolve.
Variables (sid c : string).
Hypothesis Hc : c <> "".

Lemma map_get_dedupe (l : list ServerTool) tn :
  NoDup (map key l) -> Forall (selected sid c) l ->
  map_get tn (foldl prefer_client [] l)
  = match find (client_row sid tn c) l with
    | Some r => Some r
    | None => find (global_row sid tn) l
    end.
Proof.
  induction l as [|x l IH] using rev_ind; intros Hnd Hsel; [done|].
  rewrite fmap_app in Hnd. apply NoDup_app in Hnd as (Hnd & Hfresh & _).
  apply Forall_app in Hsel as [Hsel Hx]. apply Forall_inv in Hx.
  specialize (IH Hnd Hsel).
  rewrite foldl_app. simpl. rewrite !find_snoc.
  assert (Hnew : forall y, y ∈ l -> key y <> key x).
  { intros y Hy Hk. apply (Hfresh (key y)); [by apply list_elem_of_fmap_2|].
    rewrite Hk. simpl. left. }
  destruct Hx as [Hsx Hcx].
  unfold prefer_client at 1.
  destruct (String.eqb_spec (toolName x) tn) as [Htn|Htn].
  - (* a row of this tool *)
    destruct Hcx as [Hcx|Hcx].
    + (* the global row *)
      assert (client_row sid tn c x = false) as ->.
      { apply not_true_is_false. rewrite client_row_spec. rewrite Hcx.
        by intros (_ & _ & ?). }
      assert (global_row sid tn x = true) as ->
        by (by apply global_row_spec).
      assert (Hg : find (global_row sid tn) l = None).
      { apply find_None_iff. intros y Hy. apply not_true_is_false.
        rewrite global_row_spec. intros (? & ? & ?).
        apply (Hnew y Hy). unfold key. congruence. }
      rewrite Hg in *. rewrite Hcx. cbn [truthy]. rewrite orb_false_r.
      unfold map_has. rewrite Htn, IH.
      destruct (find (client_row sid tn c) l) as [r|] eqn:Hr.
      * rewrite bool_decide_eq_true_2 by eauto. simpl. exact IH.
      * rewrite bool_decide_eq_false_2 by (by intros [? ?]). simpl.
        rewrite map_get_set. by rewrite String.eqb_refl.
    + (* the row of the client *)
      assert (Hcr : find (client_row sid tn c) l = None).
      { apply find_None_iff. intros y Hy. apply not_true_is_false.
        rewrite client_row_spec. intros (? & ? & ?).
        apply (Hnew y Hy). unfold key. congruence. }
      rewrite Hcr.
      assert (client_row sid tn c x = true) as ->
        by (by apply client_row_spec).
      rewrite Hcx. cbn [truthy].
      destruct (String.eqb_spec c "") as [|_]; [done|]. cbn [negb].
      rewrite orb_true_r, map_get_set, Htn. by rewrite String.eqb_refl.
  - (* a row of another tool *)
    assert (client_row sid tn c x = false) as ->.
    { apply not_true_is_false. rewrite client_row_spec. by intros (_ & ? & _). }
    assert (global_row sid tn x = false) as ->.
    { apply not_true_is_false. rewrite global_row_spec. by intros (_ & ? & _). }
    transitivity (map_get tn (foldl prefer_client [] l)).
    + destruct (negb (map_has (toolName x) (foldl prefer_client [] l))
                || truthy (clientId x)); [|done].
      rewrite map_get_set. by destruct (String.eqb_spec (toolName x) tn).
    + rewrite IH. destruct (find (client_row sid tn c) l); [done|].
      by destruct (find (global_row sid tn) l).
Qed.

Lemma dedupe_shape (l : list ServerTool) :
  NoDup (map fst (foldl prefer_client [] l))
  /\ Forall (fun kv => fst kv = toolName (snd kv)) (foldl prefer_client [] l).
Proof.
  induction l as [|x l IH] using rev_ind; [split; constructor|].
  rewrite foldl_app. simpl. destruct IH as [IH1 IH2].
  set (M := foldl prefer_client [] l) in *. unfold prefer_client.
  destruct (negb (map_has (toolName x) M) || truthy (clientId x));
    [|by split].
  split; [by apply map_set_keys | by apply map_set_values].
Qed.

End Resolve.

Lemma NoDup_key_Permutation (l l' : list ServerTool) :
  l ≡ₚ l' -> NoDup (map key l') -> NoDup (map key l).
Proof. intros Hp. by rewrite Hp. Qed.

Lemma NoDup_key_filter (P : ServerTool -> Prop) `{!forall x, Decision (P x)}
    (l : list ServerTool) :
  NoDup (map key l) -> NoDup (map key (filter P l)).
Proof.
  induction l as [|x l IH]; [done|]. simpl. intros [Hx Hnd]%NoDup_cons.
  rewrite filter_cons. destruct (decide (P x)); [|by apply IH].
  simpl. apply NoDup_cons. split; [|by apply IH].
  intros (y & Hk & Hy)%list_elem_of_fmap.
  apply list_elem_of_filter in Hy as [_ Hy].
  apply Hx. rewrite Hk. by apply list_elem_of_fmap_2.
Qed.

Lemma getServerTools_resolves db sid cid tn :
  NoDup (map key db) ->
  find (fun r => String.eqb (toolName r) tn) (getServerTools db sid cid)
  = getServerTool db sid tn cid
  /\ NoDup (map toolName (getServerTools db sid cid)).
Proof.
  intros Hnd. unfold getServerTools, getServerTool.
  assert (Huniq : forall (p : ServerTool -> bool) k,
            (forall x, p x = true -> key x = k) ->
            forall x y, x ∈ db -> y ∈ db -> p x = true -> p y = true -> x = y).
  { intros p k Hp x y Hx Hy Hpx Hpy.
    apply (key_unique db); try done. by rewrite (Hp x Hpx), (Hp y Hpy). }
  assert (Hcu := fun c => Huniq (client_row sid tn c) (sid, tn, Some c)
            (fun x Hx => ltac:(apply client_row_spec in Hx as (? & ? & ?);
                               unfold key; congruence))).
  assert (Hgu := Huniq (global_row sid tn) (sid, tn, None)
            (fun x Hx => ltac:(apply global_row_spec in Hx as (? & ? & ?);
                               unfold key; congruence))).
  destruct (or_null cid) as [c|] eqn:Hcid.
  - assert (Hc : c <> "").
    { unfold or_null in Hcid. destruct cid as [s|]; simpl in Hcid; [|done].
      destruct (String.eqb_spec s ""); simpl in Hcid; [done|]. congruence. }
    set (P := fun r => serverId r = sid
                       /\ (clientId r = None \/ clientId r = Some c)).
    set (L := stable_sort _ (filter P db)).
    assert (HL : L ≡ₚ filter P db) by apply stable_sort_Permutation.
    assert (HndL : NoDup (map key L)).
    { eapply NoDup_key_Permutation; [exact HL|]. by apply NoDup_key_filter. }
    assert (HselL : Forall (selected sid c) L).
    { rewrite HL. apply Forall_forall. by intros x [? _]%list_elem_of_filter. }
    destruct (dedupe_shape L) as [Hkeys Hvals].
    split.
    + rewrite (find_map_values toolName tn _ Hvals).
      rewrite (map_get_dedupe sid c Hc L tn HndL HselL).
      assert (E1 : find (client_row sid tn c) L
                   = find (client_row sid tn c) db).
      { apply find_same; [apply Hcu|]. intros x Hx. rewrite HL.
        rewrite list_elem_of_filter. apply client_row_spec in Hx as (? & ? & ?).
        unfold P. tauto. }
      assert (E2 : find (global_row sid tn) L = find (global_row sid tn) db).
      { apply find_same; [apply Hgu|]. intros x Hx. rewrite HL.
        rewrite list_elem_of_filter. apply global_row_spec in Hx as (? & ? & ?).
        unfold P. tauto. }
      by rewrite E1, E2.
    + unfold map_values.
      assert (E : map toolName (map snd (foldl prefer_client [] L))
                  = map fst (foldl prefer_client [] L)).
      { clear -Hvals. induction Hvals as [|[k v] m Hk _ IH]; [done|].
        simpl in *. by rewrite IH, Hk. }
      by rewrite E.
  - set (P := fun r => serverId r = sid /\ clientId r = None).
    set (L := stable_sort _ (filter P db)).
    assert (HL : L ≡ₚ filter P db) by apply stable_sort_Permutation.
    split.
    + transitivity (find (global_row sid tn) L).
      * assert (HPL : Forall P L).
        { rewrite HL. apply Forall_forall.
          by intros x [? _]%list_elem_of_filter. }
        clear -HPL. induction HPL as [|x l [Hs Hc] _ IH]; [done|]. simpl.
        rewrite IH. unfold global_row.
        rewrite (bool_decide_eq_true_2 _ Hs), (bool_decide_eq_true_2 _ Hc).
        simpl. rewrite andb_true_r.
        destruct (String.eqb_spec (toolName x) tn).
        -- by rewrite bool_decide_eq_true_2.
        -- by rewrite bool_decide_eq_false_2.
      * apply find_same; [apply Hgu|]. intros x Hx. rewrite HL.
        rewrite list_elem_of_filter. apply global_row_spec in Hx as (? & ? & ?).
        unfold P. tauto.
    + assert (HndL : NoDup (map key L)).
      { eapply NoDup_key_Permutation; [exact HL|]. by apply NoDup_key_filter. }
      assert (HPL : Forall P L).
      { rewrite HL. apply Forall_forall.
        by intros x [? _]%list_elem_of_filter. }
      clear -HndL HPL. induction HPL as [|x l [Hs Hc] HPl IH]; [constructor|].
      simpl in *. apply NoDup_cons in HndL as [Hx Hnd].
      apply NoDup_cons. split; [|by apply IH].
      intros (y & Hk & Hy)%list_elem_of_fmap. apply Hx.
      apply list_elem_of_fmap. exists y. split; [|done].
      rewrite Forall_forall in HPl. destruct (HPl y Hy) as [Hsy Hcy].
      unfold key. congruence.
Qed.

(** X5: The list [getServerTools] returns and the lookup [getServerTool]
    resolve every tool to the same row, as long as no two rows share a key
    (server, tool and client): the entry of the list for a tool is the row of
    the client if there is one and the global row otherwise, and no tool is
    listed twice. *)
Theorem getServerTools_agrees_with_getServerTool db sid cid tn :
  NoDup (map key db) ->
  find (fun r => String.eqb (toolName r) tn) (getServerTools db sid cid)
  = getServerTool db sid tn cid
  /\ NoDup (map toolName (getServerTools db sid cid)).
Proof. exact (getServerTools_resolves db sid cid tn). Qed.

Lemma getServerTools_agrees_with_getServerTool_witness :
  let g := mkServerTool "row-1" "s" "t" None true None None None 5 5 in
  let c := mkServerTool "row-2" "s" "t" (Some "c1") false None None None 6 6 in
  NoDup (map key [g; c])
  /\ find (fun r => String.eqb (toolName r) "t")
       (getServerTools [g; c] "s" (Some "c1"))
     = getServerTool [g; c] "s" "t" (Some "c1").
Proof.
  intros g c.
  assert (H : NoDup (map key [g; c])).
  { apply NoDup_cons. split; [|apply NoDup_singleton].
    intros H%list_elem_of_singleton. discriminate H. }
  split; [exact H|].
  exact (proj1 (getServerTools_agrees_with_getServerTool [g; c] "s"
                  (Some "c1") "t" H)).
Defined.

Lemma map_get_preference_map (l : list ServerTool) k :
  NoDup (map toolName l) ->
  map_get k (preference_map l) = find (fun r => String.eqb (toolName r) k) l.
Proof.
  unfold preference_map.
  induction l as [|x l IH] using rev_ind; intros Hnd; [done|].
  rewrite fmap_app in Hnd. apply NoDup_app in Hnd as (Hnd & Hfresh & _).
  rewrite foldl_app. simpl. rewrite map_get_set, find_snoc, <- (IH Hnd).
  destruct (String.eqb_spec (toolName x) k) as [<-|Hne].
  - rewrite (IH Hnd).
    assert (find (fun r => String.eqb (toolName r) (toolName x)) l = None)
      as ->; [|done].
    apply find_None_iff. intros y Hy.
    destruct (String.eqb_spec (toolName y) (toolName x)) as [E|]; [|done].
    exfalso. apply (Hfresh (toolName y)); [by apply list_elem_of_fmap_2|].
    rewrite E. simpl. left.
  - by destruct (map_get k (foldl (fun m p => map_set (toolName p) p m) [] l)).
Qed.

Lemma allowed_spec db sid cid tool :
  allowed db sid cid tool
  = match getServerTool db sid (t_name tool) cid with
    | Some p => enabled p
    | None => true
    end.
Proof. unfold allowed. by rewrite isToolEnabled_cold. Qed.

(** X6: [filterTools] lists, in the order given, exactly the tools that
    [isToolEnabled] accepts when nothing is cached, each under the custom name
    and description of the preference [getServerTool] resolves for it (as long
    as no two rows share a key). *)
Theorem filterTools_lists_what_isToolEnabled_accepts db tools sid sname cid :
  NoDup (map key db) ->
  Forall2 (fun m tool =>
      let preference := getServerTool db sid (t_name tool) cid in
      m_enabled m = true
      /\ m_name m = default (t_name tool) (or_null (preference ≫= customName))
      /\ m_description m
         = opt_or (preference ≫= customDescription) (t_description tool)
      /\ m_inputSchema m = t_inputSchema tool
      /\ m_serverId m = sid /\ m_serverName m = sname)
    (filterTools db tools sid sname cid)
    (filter (fun tool => allowed db sid cid tool = true) tools).
Proof.
  intros Hnd. unfold filterTools.
  assert (Hget : forall k,
            map_get k (preference_map (getServerTools db sid cid))
            = getServerTool db sid k cid).
  { intros k.
    destruct (getServerTools_resolves db sid cid k Hnd)
      as [<- Hnames].
    by apply map_get_preference_map. }
  induction tools as [|tool tools IH]; [constructor|].
  cbn [map]. rewrite !filter_cons. cbn [m_enabled].
  rewrite allowed_spec, Hget.
  destruct (getServerTool db sid (t_name tool) cid) as [p|] eqn:Hp.
  - destruct (enabled p) eqn:He.
    + rewrite !decide_True by done. constructor; [|exact IH].
      cbn. rewrite Hp. by repeat split.
    + rewrite !decide_False by done. exact IH.
  - rewrite !decide_True by done. constructor; [|exact IH].
    cbn. rewrite Hp. by repeat split.
Qed.

Lemma filterTools_lists_what_isToolEnabled_accepts_witness :
  let g := mkServerTool "row-1" "s" "t" None true None (Some "alias") None
             5 5 in
  let c := mkServerTool "row-2" "s" "u" (Some "c1") false None None None
             6 6 in
  NoDup (map key [g; c])
  /\ length (filterTools [g; c]
               [mkTool "t" None "{}"; mkTool "u" None "{}";
                mkTool "v" None "{}"] "s" "alpha" (Some "c1")) = 2.
Proof.
  intros g c.
  assert (H : NoDup (map key [g; c])).
  { apply NoDup_cons. split; [|apply NoDup_singleton].
    intros H%list_elem_of_singleton. discriminate H. }
  split; [exact H|].
  exact (Forall2_length _ _ _
           (filterTools_lists_what_isToolEnabled_accepts [g; c]
              [mkTool "t" None "{}"; mkTool "u" None "{}";
               mkTool "v" None "{}"] "s" "alpha" (Some "c1") H)).
Defined.

(** X7: [upsertToolPreference] keeps the rows apart: if no two rows share
    server, tool and client before, none do afterwards. The code sees to this
    itself, by looking the row up before it inserts. *)
Theorem upsert_keeps_rows_apart db sid p now uuid :
  NoDup (map key db) ->
  NoDup (map key (fst (upsertToolPreference db sid p now uuid))).
Proof.
  intros Hnd. unfold upsertToolPreference. cbn [fst].
  destruct (getServerTool db sid (u_toolName p) (u_clientId p)) as [r|] eqn:E.
  - rewrite map_map.
    erewrite map_ext; [exact Hnd|].
    intros x. by destruct (scope_row _ _ _ x).
  - rewrite map_app. cbn [map]. apply NoDup_app. split; [done|].
    split; [|apply NoDup_singleton].
    intros k Hk ->%list_elem_of_singleton.
    apply list_elem_of_fmap_1 in Hk as (x & Hkey & Hx).
    unfold key in Hkey. cbn [serverId toolName clientId] in Hkey.
    injection Hkey as Hs Ht Hc.
    unfold getServerTool in E.
    destruct (or_null (u_clientId p)) as [c|].
    + destruct (find (client_row sid (u_toolName p) c) db) eqn:Ec; [done|].
      rewrite find_None_iff in Ec. specialize (Ec x Hx).
      apply not_true_iff_false in Ec. apply Ec.
      by apply client_row_spec.
    + rewrite find_None_iff in E. specialize (E x Hx).
      apply not_true_iff_false in E. apply E.
      by apply global_row_spec.
Qed.

Lemma upsert_keeps_rows_apart_witness :
  let g := mkServerTool "row-1" "s" "t" None true None None None 5 5 in
  NoDup (map key (fst (upsertToolPreference [g] "s"
                         (mkUpdate "u" (Some "c1") false None None None)
                         9 "row-2"))).
Proof.
  intros g.
  apply (upsert_keeps_rows_apart [g] "s"
           (mkUpdate "u" (Some "c1") false None None None) 9 "row-2").
  apply NoDup_singleton.
Defined.

End ToolListingFacts.

Section ToolCleanupFacts.
Import Tools ToolAdmin ToolListing ToolCleanup.

Lemma delete_each (sid : string) (ps : list ServerTool) : forall db r,
  r ∈ foldl (fun db p => fst (deleteToolPreference db sid (toolName p))) db ps
  <-> r ∈ db /\ ~ (serverId r = sid
                   /\ exists p, p ∈ ps /\ toolName p = toolName r).
Proof.
  induction ps as [|p ps IH]; intros db r; cbn [foldl].
  - split; [|tauto]. intros Hr. split; [done|].
    intros (_ & p & Hp & _). by apply elem_of_nil in Hp.
  - rewrite IH. unfold deleteToolPreference. cbn [fst].
    rewrite list_elem_of_filter. split.
    + intros [[Hk Hr] Hn]. split; [done|].
      intros (Hs & q & Hq & Hname). apply elem_of_cons in Hq as [->|Hq].
      * by apply Hk.
      * apply Hn. split; [done|]. by exists q.
    + intros [Hr Hn]. split; [split; [|done]|].
      * intros [Hs Ht]. apply Hn. split; [done|]. exists p. split; [left|done].
      * intros (Hs & q & Hq & Hname). apply Hn. split; [done|].
        exists q. split; [by right | done].
Qed.

(** X8: [cleanupRemovedTools] removes the preferences of a tool, for every
    client, when the tool is no longer offered and has a global row; the
    client rows of a removed tool that has no global row stay behind, and so
    does everything the cache holds under the keys the lookups use. *)
Theorem cleanupRemovedTools_rows svc sid currentTools :
  let svc' := cleanupRemovedTools svc sid currentTools in
  (forall r, r ∈ rows svc'
     <-> r ∈ rows svc
         /\ ~ (serverId r = sid /\ (toolName r ∉ currentTools)
               /\ has_global (rows svc) sid (toolName r)))
  /\ (forall cid, toolPreferencesCache svc' !! cacheKey sid cid
                  = toolPreferencesCache svc !! cacheKey sid cid).
Proof.
  cbn zeta. unfold cleanupRemovedTools.
  set (toRemove := filter _ (getServerTools (rows svc) sid None)).
  assert (Hrem : forall p, p ∈ toRemove
            <-> (p ∈ rows svc /\ serverId p = sid /\ clientId p = None)
                /\ toolName p ∉ currentTools).
  { intros p. unfold toRemove, getServerTools. cbn [or_null truthy].
    rewrite list_elem_of_filter, stable_sort_Permutation,
      list_elem_of_filter.
    tauto. }
  assert (Hiff : forall r : ServerTool,
            (serverId r = sid /\ exists p, p ∈ toRemove /\ toolName p = toolName r)
            <-> (serverId r = sid /\ (toolName r ∉ currentTools)
                 /\ has_global (rows svc) sid (toolName r))).
  { intros r. unfold has_global. split.
    - intros (Hs & p & Hp & Hn). apply Hrem in Hp as [(Hin & Hps & Hc) Hout].
      split; [done|]. split; [by rewrite <- Hn|]. by exists p.
    - intros (Hs & Hout & g & Hg & Hgs & Hgn & Hgc). split; [done|].
      exists g. split; [|done]. apply Hrem. by rewrite Hgn. }
  destruct (Nat.ltb_spec 0 (length toRemove)) as [Hlt|Hge].
  - cbn [rows toolPreferencesCache]. split.
    + intros r. rewrite delete_each, Hiff. done.
    + intros cid. apply lookup_delete_ne. apply not_eq_sym, cacheKey_not_serverId.
  - split; [|done]. intros r. split; [|tauto]. intros Hr. split; [done|].
    rewrite <- Hiff. intros (_ & p & Hp & _).
    destruct toRemove; [by apply elem_of_nil in Hp | simpl in Hge; lia].
Qed.

End ToolCleanupFacts.

Section EncryptionFacts.
Import OAuthTypes OAuthStore OAuthRepo.

Lemma length_next_key w : length (next_key w) = KEY_LENGTH.
Proof. unfold next_key. by rewrite length_map, length_seq. Qed.

Lemma getEncryptionKey_keyed k w :
  keyed k w -> getEncryptionKey w = (Ok k, w).
Proof.
  intros [Hk Hlen]. unfold getEncryptionKey, mbind, M_bind, get.
  rewrite Hk. by rewrite (proj2 (Nat.eqb_eq _ _) Hlen).
Qed.

(** A new key: it is the next 32 random bytes, and it reaches the key
    file exactly when the write goes through. *)
Lemma generate_key_spec w :
  generate_key w
  = (Ok (next_key w),
     let w1 := set_fsCalls (S (fsCalls w))
                 (set_drawn (drawn w + KEY_LENGTH) w) in
     if fsFaults w (fsCalls w) then w1
     else set_keyFile (Some (next_key w)) w1).
Proof.
  unfold generate_key, mbind, M_bind, randomBytes, fs_call, next_key.
  cbn [fsFaults fsCalls set_drawn]. by destruct (fsFaults w (fsCalls w)).
Qed.

Lemma getEncryptionKey_cases w :
  (exists k0, keyed k0 w /\ getEncryptionKey w = (Ok k0, w))
  \/ (unkeyed w /\ getEncryptionKey w = generate_key w).
Proof.
  unfold getEncryptionKey, mbind, M_bind, get, keyed, unkeyed.
  destruct (keyFile w) as [k0|] eqn:Hk.
  - destruct (Nat.eqb_spec (length k0) KEY_LENGTH) as [Hlen|Hlen].
    + left. by exists k0.
    + right. split; [by intros k1 [= <-]|done].
  - right. split; [by intros k1|done].
Qed.

(** X9: [getEncryptionKey] always hands out a 32-byte key, and a key file
    of 32 bytes is never touched.  A missing key file, or one of another
    size, is replaced by the new key when the write goes through: the key
    is then in the key file, where the next call finds it.  When the write
    throws, the new key is handed out all the same and the key file is
    left as it was. *)
Theorem getEncryptionKey_settles w :
  exists k,
    result getEncryptionKey w = Ok k
    /\ length k = KEY_LENGTH
    /\ (forall k0, keyFile w = Some k0 -> length k0 = KEY_LENGTH ->
          k = k0 /\ exec getEncryptionKey w = w)
    /\ ((exists k0, keyed k0 w) \/ writable w ->
          keyFile (exec getEncryptionKey w) = Some k
          /\ getEncryptionKey (exec getEncryptionKey w)
             = (Ok k, exec getEncryptionKey w))
    /\ (unkeyed w -> ~ writable w ->
          keyFile (exec getEncryptionKey w) = keyFile w).
Proof.
  destruct (getEncryptionKey_cases w) as [(k0 & [Hk Hlen] & E)|(Hbad & E)];
    unfold result, exec; rewrite E.
  - exists k0. cbn [fst snd]. split; [done|]. split; [done|].
    split; [intros k1 Hk1 _; split; [congruence | done]|].
    split; [intros _; by split|]. intros Hun. by destruct (Hun k0 Hk).
  - rewrite generate_key_spec. cbn [fst snd]. exists (next_key w).
    split; [done|]. split; [apply length_next_key|].
    split; [intros k1 Hk1 Hl; by destruct (Hbad k1 Hk1)|].
    unfold writable. split.
    + intros [(k0 & Hk0 & Hl)|Hw]; [by destruct (Hbad k0 Hk0)|].
      rewrite Hw. split; [done|].
      apply getEncryptionKey_keyed. split; [done | apply length_next_key].
    + intros _ Hw. by destruct (fsFaults w (fsCalls w)).
Qed.

(** X10: [encryptOAuthData] always returns, a ciphertext for a non-empty
    plaintext and the empty string for the empty string.  What was
    encrypted decrypts to itself when the key file holds a key or the
    write of the new key goes through.  When there is no key in the key
    file and the write throws, the key of the ciphertext is stored
    nowhere: [decryptOAuthData] draws another key and throws, unless the
    random bytes it draws are the same again. *)
Theorem encrypt_then_decrypt p w :
  exists c,
    result (encryptOAuthData p) w = Ok c
    /\ (if nonempty p then exists k iv, c = Sealed k iv p else c = Plain "")
    /\ (nonempty p = false \/ (exists k0, keyed k0 w) \/ writable w ->
          result (decryptOAuthData c) (exec (encryptOAuthData p) w)
          = Ok (if nonempty p then p else Plain ""))
    /\ (nonempty p = true -> unkeyed w -> ~ writable w ->
          let w1 := exec (encryptOAuthData p) w in
          result (decryptOAuthData c) w1
          = if decide (next_key w = next_key w1) then Ok p
            else Throw "Failed to decrypt OAuth data").
Proof.
  unfold result, exec. unfold encryptOAuthData.
  destruct (nonempty p) eqn:Hp; cbn [negb].
  2:{ exists (Plain ""). split; [done|]. split; [done|]. by split. }
  unfold mbind, M_bind.
  destruct (getEncryptionKey_cases w) as [(k0 & Hkeyed & ->)|(Hbad & ->)].
  - cbn [randomBytes fst snd]. eexists. split; [done|].
    split; [by eexists _, _|]. split.
    + intros _. unfold decryptOAuthData. cbn [nonempty negb].
      unfold mbind, M_bind. rewrite (getEncryptionKey_keyed k0); [|done].
      by rewrite decide_True.
    + intros _ Hun. destruct Hkeyed as [Hk0 Hl]. by destruct (Hun k0 Hk0).
  - rewrite generate_key_spec. cbn [randomBytes fst snd]. eexists.
    split; [done|]. split; [by eexists _, _|]. unfold writable. split.
    + intros [?|[(k0 & Hk0 & Hl)|Hw]]; [done | by destruct (Hbad k0 Hk0)|].
      rewrite Hw. unfold decryptOAuthData. cbn [nonempty negb].
      unfold mbind, M_bind.
      rewrite (getEncryptionKey_keyed (next_key w));
        [by rewrite decide_True|].
      split; [done | apply length_next_key].
    + intros _ _ Hw. destruct (fsFaults w (fsCalls w)) eqn:Hf; [|done].
      cbn [mret M_ret fst snd].
      set (w1 := set_drawn _ (set_fsCalls _ _)).
      unfold decryptOAuthData. cbn [nonempty negb]. unfold mbind, M_bind.
      assert (Hbad1 : unkeyed w1) by exact Hbad.
      destruct (getEncryptionKey_cases w1) as [(k0 & [Hk0 Hl] & _)|(_ & ->)];
        [by destruct (Hbad1 k0 Hk0)|].
      rewrite generate_key_spec. cbn [fst snd].
      by destruct (decide (next_key w = next_key w1)).
Qed.

(** With no key file and a key file that cannot be written, what was
    encrypted is lost: the next call draws another key. *)
Lemma unwritable_key_loses_plaintext :
  let sealed := encryptOAuthData (Plain "access-1") in
  exists c,
    result sealed read_only_world = Ok c
    /\ result (decryptOAuthData c) (exec sealed read_only_world)
       = Throw "Failed to decrypt OAuth data".
Proof. eexists. split; reflexivity. Qed.

End EncryptionFacts.

Section RepositoryFacts.
Import OAuthTypes OAuthStore OAuthRepo.
Variable k : list Byte.byte.
Hypothesis Hk : length k = KEY_LENGTH.

Lemma nonempty_false p : nonempty p = false -> p = Plain "".
Proof.
  destruct p as [s|]; simpl; [|done].
  destruct (String.eqb_spec s "") as [->|]; done.
Qed.

Lemma set_drawn_same w : set_drawn (drawn w) w = w.
Proof. by destruct w. Qed.

Lemma set_nextUuid_same w : set_nextUuid (nextUuid w) w = w.
Proof. by destruct w. Qed.

Lemma encryptOAuthData_column w p :
  keyFile w = Some k ->
  exists c n, encryptOAuthData p w = (Ok c, set_drawn n w) /\ column_of k p c.
Proof.
  intros Hw. unfold encryptOAuthData, column_of.
  destruct (nonempty p) eqn:Hp; cbn [negb].
  - unfold mbind, M_bind. rewrite (getEncryptionKey_keyed k w); [|done].
    cbn [randomBytes]. eexists _, _. split; [done|]. by eexists.
  - exists (Plain ""), (drawn w). by rewrite set_drawn_same.
Qed.

Lemma decryptOAuthData_column w p c :
  keyFile w = Some k -> column_of k p c -> decryptOAuthData c w = (Ok p, w).
Proof.
  intros Hw. unfold column_of. destruct (nonempty p) eqn:Hp.
  - intros [iv ->]. unfold decryptOAuthData. cbn [nonempty negb].
    unfold mbind, M_bind. rewrite (getEncryptionKey_keyed k w); [|done].
    by rewrite decide_True.
  - intros ->. by rewrite (nonempty_false p Hp).
Qed.

Lemma encrypt_opt_column w o :
  keyFile w = Some k ->
  exists o' n, encrypt_opt o w = (Ok o', set_drawn n w) /\ opt_column_of k o o'.
Proof.
  intros Hw. unfold encrypt_opt, opt_column_of.
  destruct o as [t|]; cbn [present];
    [|exists None, (drawn w); by rewrite set_drawn_same].
  destruct (nonempty t) eqn:Ht;
    [|exists None, (drawn w); by rewrite set_drawn_same].
  unfold mbind, M_bind.
  destruct (encryptOAuthData_column w t Hw) as (c & n & -> & Hc).
  unfold column_of in Hc. rewrite Ht in Hc. destruct Hc as [iv ->].
  eexists _, _. split; [done|]. by eexists _, _.
Qed.

Lemma decrypt_opt_column w o o' :
  keyFile w = Some k -> opt_column_of k o o' ->
  decrypt_opt o' w = (Ok (kept o), w).
Proof.
  intros Hw. unfold opt_column_of, kept. destruct (present o) eqn:Ho.
  - intros (p & iv & -> & ->). unfold decrypt_opt. cbn [nonempty].
    unfold mbind, M_bind.
    rewrite (decryptOAuthData_column w p (Sealed k iv p) Hw).
    + done.
    + unfold column_of. simpl in Ho. rewrite Ho. by eexists.
  - by intros ->.
Qed.

Lemma row_id_spec (given : option string) w :
  (if truthy given then mret (str_or given "") else uuidv4) w
  = (Ok (row_id given w),
     set_nextUuid (if truthy given then nextUuid w else S (nextUuid w)) w).
Proof.
  unfold row_id. destruct (truthy given); [|done].
  by rewrite set_nextUuid_same.
Qed.

(** After [INSERT OR REPLACE] the table holds one row for the server, the
    one just written. *)
Lemma filter_saved_row (rows : list OAuthToken) row rowId :
  filter (fun r => serverId r = serverId row)
    (filter (fun r => id r <> Some rowId /\ serverId r <> serverId row) rows
     ++ [row])
  = [row].
Proof.
  induction rows as [|r rows IH]; simpl.
  - by rewrite filter_cons, decide_True.
  - rewrite (filter_cons _ r).
    destruct (decide (id r <> Some rowId /\ serverId r <> serverId row))
      as [[_ Hne]|_]; [|exact IH].
    simpl. by rewrite filter_cons, decide_False.
Qed.

(** X11: What [saveToken] is given is what it returns and what
    [getTokenByServerId] returns afterwards, with the row id and the
    timestamps filled in and an empty refresh or id token dropped; the table
    then holds exactly one row for the server, and its three secret columns
    are ciphertexts under the key of the key file. *)
Theorem saveToken_then_get w t :
  keyFile w = Some k ->
  let t' :=
    mkToken (Some (row_id (id t) w)) (serverId t) (accessToken t)
      (kept (refreshToken t)) (kept (idToken t)) (tokenType t) (expiresAt t)
      (issuedAt t) (lastUsed t) (refreshCount t)
      (Some (num_or (createdAt t) (clock w))) (Some (clock w)) in
  exists w',
    saveToken t w = (Ok t', w')
    /\ getTokenByServerId (serverId t) w' = (Ok (Some t'), w')
    /\ (exists row,
          filter (fun r => serverId r = serverId t) (tokenRows w') = [row]
          /\ column_of k (accessToken t) (accessToken row)
          /\ opt_column_of k (refreshToken t) (refreshToken row)
          /\ opt_column_of k (idToken t) (idToken row))
    /\ configRows w' = configRows w
    /\ keyFile w' = Some k.
Proof.
  intros Hw t'. unfold saveToken.
  unfold mbind, M_bind at 1. rewrite row_id_spec.
  set (w1 := set_nextUuid _ w). assert (H1 : keyFile w1 = Some k) by done.
  unfold mbind, M_bind at 1. unfold get at 1.
  unfold mbind, M_bind at 1.
  destruct (encryptOAuthData_column w1 (accessToken t) H1) as (a & n2 & -> & Ha).
  set (w2 := set_drawn n2 w1). assert (H2 : keyFile w2 = Some k) by done.
  unfold mbind, M_bind at 1.
  destruct (encrypt_opt_column w2 (refreshToken t) H2) as (r' & n3 & -> & Hr).
  set (w3 := set_drawn n3 w2). assert (H3 : keyFile w3 = Some k) by done.
  unfold mbind, M_bind at 1.
  destruct (encrypt_opt_column w3 (idToken t) H3) as (i' & n4 & -> & Hi).
  set (w4 := set_drawn n4 w3). assert (H4 : keyFile w4 = Some k) by done.
  unfold mbind, M_bind at 1. unfold modify at 1.
  set (row := mkToken (Some (row_id (id t) w)) (serverId t) a r' i'
                (tokenType t) (expiresAt t) (issuedAt t) (lastUsed t)
                (refreshCount t) (Some (num_or (createdAt t) (clock w1)))
                (Some (clock w1))).
  set (w5 := set_tokenRows _ w4). assert (H5 : keyFile w5 = Some k) by done.
  assert (Hfind : find (fun r => String.eqb (serverId r) (serverId t))
                    (tokenRows w5) = Some row).
  { exact (find_saved_row (tokenRows w4) row (row_id (id t) w)). }
  assert (Hget : getTokenByServerId (serverId t) w5 = (Ok (Some t'), w5)).
  { unfold getTokenByServerId.
    unfold mbind, M_bind at 1. unfold get at 1. rewrite Hfind.
    unfold mbind, M_bind at 1. unfold mapRowToToken.
    change (accessToken row) with a.
    change (refreshToken row) with r'. change (idToken row) with i'.
    unfold mbind, M_bind at 1.
    rewrite (decryptOAuthData_column w5 (accessToken t) a H5 Ha).
    unfold mbind, M_bind at 1.
    rewrite (decrypt_opt_column w5 (refreshToken t) r' H5 Hr).
    unfold mbind, M_bind at 1.
    rewrite (decrypt_opt_column w5 (idToken t) i' H5 Hi).
    done. }
  exists w5. split; [|split; [exact Hget|split; [|done]]].
  - unfold mbind, M_bind at 1. by rewrite Hget.
  - exists row. split; [|done].
    exact (filter_saved_row (tokenRows w4) row (row_id (id t) w)).
Qed.

Lemma find_saved_config (rows : list OAuthConfig) row rowId :
  find (fun r => String.eqb (c_serverId r) (c_serverId row))
    (filter (fun r => c_id r <> Some rowId /\ c_serverId r <> c_serverId row)
       rows ++ [row])
  = Some row.
Proof.
  induction rows as [|r rows IH]; simpl.
  - by rewrite String.eqb_refl.
  - rewrite filter_cons.
    destruct (decide (c_id r <> Some rowId /\ c_serverId r <> c_serverId row))
      as [[_ Hne]|_]; [|exact IH].
    simpl. destruct (String.eqb_spec (c_serverId r) (c_serverId row)); [done|].
    exact IH.
Qed.

Lemma filter_saved_config (rows : list OAuthConfig) row rowId :
  filter (fun r => c_serverId r = c_serverId row)
    (filter (fun r => c_id r <> Some rowId /\ c_serverId r <> c_serverId row)
       rows ++ [row])
  = [row].
Proof.
  induction rows as [|r rows IH]; simpl.
  - by rewrite filter_cons, decide_True.
  - rewrite (filter_cons _ r).
    destruct (decide (c_id r <> Some rowId /\ c_serverId r <> c_serverId row))
      as [[_ Hne]|_]; [|exact IH].
    simpl. by rewrite filter_cons, decide_False.
Qed.

(** [encryptOAuthConfig] seals the client secret and nothing else, and
    [decryptOAuthConfig] undoes it. *)
Lemma encryptOAuthConfig_column w c :
  keyFile w = Some k ->
  exists row n,
    encryptOAuthConfig c w = (Ok row, set_drawn n w)
    /\ c_serverId row = c_serverId c
    /\ (forall s, c_clientSecret c = Some s -> nonempty s = true ->
          exists iv, c_clientSecret row = Some (Sealed k iv s))
    /\ forall w', keyFile w' = Some k -> decryptOAuthConfig row w' = (Ok c, w').
Proof.
  intros Hw. unfold encryptOAuthConfig.
  destruct (c_clientSecret c) as [s|] eqn:Hs.
  - destruct (nonempty s) eqn:Hne.
    + unfold mbind, M_bind.
      destruct (encryptOAuthData_column w s Hw) as (x & n & -> & Hx).
      unfold column_of in Hx. rewrite Hne in Hx. destruct Hx as [iv ->].
      eexists _, n. split; [done|]. split; [done|]. split.
      * intros s' [= <-] _. by exists iv.
      * intros w' Hw'. unfold decryptOAuthConfig. cbn [c_clientSecret nonempty].
        unfold mbind, M_bind, try_catch.
        rewrite (decryptOAuthData_column w' s (Sealed k iv s) Hw').
        -- cbn. rewrite <- Hs. by destruct c.
        -- unfold column_of. rewrite Hne. by eexists.
    + exists c, (drawn w). rewrite set_drawn_same. split; [done|].
      split; [done|]. split.
      * intros s' [= <-] Hs'. congruence.
      * intros w' _. unfold decryptOAuthConfig. by rewrite Hs, Hne.
  - exists c, (drawn w). rewrite set_drawn_same. split; [done|].
    split; [done|]. split; [done|].
    intros w' _. unfold decryptOAuthConfig. by rewrite Hs.
Qed.

Lemma saveConfig_spec w c :
  keyFile w = Some k ->
  let c' :=
    mkConfig (Some (row_id (c_id c) w)) (c_serverId c) (c_clientId c)
      (c_clientSecret c) (c_tokenEndpoint c)
      (Some (num_or (c_createdAt c) (clock w))) (Some (clock w)) in
  exists w',
    saveConfig c w = (Ok c', w')
    /\ getConfigByServerId (c_serverId c) w' = (Ok (Some c'), w')
    /\ (exists row,
          filter (fun r => c_serverId r = c_serverId c) (configRows w') = [row]
          /\ forall s, c_clientSecret c = Some s -> nonempty s = true ->
               exists iv, c_clientSecret row = Some (Sealed k iv s))
    /\ tokenRows w' = tokenRows w
    /\ keyFile w' = Some k.
Proof.
  intros Hw c'. unfold saveConfig.
  unfold mbind, M_bind at 1. rewrite row_id_spec.
  set (w1 := set_nextUuid _ w). assert (H1 : keyFile w1 = Some k) by done.
  unfold mbind, M_bind at 1. unfold get at 1.
  unfold mbind, M_bind at 1.
  change (clock w1) with (clock w). fold c'.
  destruct (encryptOAuthConfig_column w1 c' H1)
    as (row & n2 & -> & Hsid & Hsealed & Hopen).
  set (w2 := set_drawn n2 w1).
  change (c_serverId c') with (c_serverId c) in Hsid. rewrite <- Hsid.
  unfold mbind, M_bind at 1. unfold modify at 1.
  set (w3 := set_configRows _ w2). assert (H3 : keyFile w3 = Some k) by done.
  assert (Hfind : find (fun r => String.eqb (c_serverId r) (c_serverId row))
                    (configRows w3) = Some row).
  { exact (find_saved_config (configRows w2) row (row_id (c_id c) w)). }
  assert (Hget : getConfigByServerId (c_serverId row) w3 = (Ok (Some c'), w3)).
  { unfold getConfigByServerId.
    unfold mbind, M_bind at 1. unfold get at 1. rewrite Hfind.
    unfold mbind, M_bind at 1. unfold mapRowToConfig.
    by rewrite (Hopen w3 H3). }
  exists w3. split; [|split; [exact Hget|split; [|done]]].
  - unfold mbind, M_bind at 1. by rewrite Hget.
  - exists row. split; [|exact Hsealed].
    exact (filter_saved_config (configRows w2) row (row_id (c_id c) w)).
Qed.


End RepositoryFacts.

Section RepositoryEdgeFacts.
Import OAuthTypes OAuthStore OAuthRepo TokenManager.

Lemma saveToken_then_get_witness :
  exists w',
    getTokenByServerId "S" w'
    = (Ok (Some (mkToken (Some "uuid-0") "S" (Plain "access-1")
                   (Some (Plain "refresh-1")) (Some (Plain "id-1")) "Bearer"
                   (Some 1700003600000%Z) (Some 1700000000000%Z) None 0
                   (Some 1700000000000%Z) (Some 1700000000000%Z))), w').
Proof.
  destruct (saveToken_then_get zero_key eq_refl keyed_world new_token eq_refl)
    as (w' & _ & H & _).
  exists w'. exact H.
Defined.


(** [changes > 0] after a [DELETE]: some row matched. *)
Lemma filter_shrinks {A} (P : A -> Prop) `{forall x, Decision (P x)}
    (l : list A) :
  negb (Nat.eqb (length (filter P l)) (length l)) = true
  <-> exists x, x ∈ l /\ ~ P x.
Proof.
  rewrite negb_true_iff, Nat.eqb_neq. split.
  - intros Hlen. destruct (decide (Forall P l)) as [Hall|Hnot].
    + exfalso. apply Hlen. f_equal.
      clear Hlen. induction Hall as [|r l' Hr _ IH]; [done|].
      rewrite filter_cons, decide_True by done. by rewrite IH.
    + apply not_Forall_Exists in Hnot; [|apply _].
      apply Exists_exists in Hnot as (r & Hr & Hk). by exists r.
  - intros (r & Hr & Hn) Hlen.
    pose proof (length_filter_lt P l r Hr Hn). lia.
Qed.

Lemma find_filter_other {A} (f : A -> bool) (P : A -> Prop)
    `{forall x, Decision (P x)} (l : list A) :
  (forall x, f x = true -> P x) -> find f (filter P l) = find f l.
Proof.
  intros Hf. induction l as [|x l IH]; [done|].
  rewrite filter_cons. destruct (decide (P x)) as [Hp|Hp]; simpl.
  - by rewrite IH.
  - destruct (f x) eqn:E; [by destruct Hp; apply Hf | exact IH].
Qed.

Lemma find_filter_none {A} (f : A -> bool) (P : A -> Prop)
    `{forall x, Decision (P x)} (l : list A) :
  (forall x, f x = true -> ~ P x) -> find f (filter P l) = None.
Proof.
  intros Hf. induction l as [|x l IH]; [done|].
  rewrite filter_cons. destruct (decide (P x)) as [Hp|Hp]; simpl; [|done].
  destruct (f x) eqn:E; [by destruct (Hf x E) | exact IH].
Qed.

(** X13: Deleting the token of a server: the result tells whether a row was
    there, afterwards the server has no token and no valid token, and the
    tokens of other servers and all configurations are as before. Deleting its
    configuration does the same to the configuration table, and leaves the
    token of the server in place. *)
Theorem delete_then_lookup w sid :
  (exists b w',
     deleteToken sid w = (Ok b, w')
     /\ (b = true <-> exists r, r ∈ tokenRows w /\ serverId r = sid)
     /\ getTokenByServerId sid w' = (Ok None, w')
     /\ hasValidToken sid w' = (Ok false, w')
     /\ (forall sid', sid' <> sid ->
           find (fun r => String.eqb (serverId r) sid') (tokenRows w')
           = find (fun r => String.eqb (serverId r) sid') (tokenRows w))
     /\ configRows w' = configRows w)
  /\ (exists b w',
        deleteConfig sid w = (Ok b, w')
        /\ (b = true <-> exists r, r ∈ configRows w /\ c_serverId r = sid)
        /\ getConfigByServerId sid w' = (Ok None, w')
        /\ hasOAuthConfig sid w' = (Ok false, w')
        /\ (forall sid', sid' <> sid ->
              find (fun r => String.eqb (c_serverId r) sid') (configRows w')
              = find (fun r => String.eqb (c_serverId r) sid') (configRows w))
        /\ tokenRows w' = tokenRows w).
Proof.
  split.
  - exists (negb (Nat.eqb
                    (length (filter (fun r => serverId r <> sid) (tokenRows w)))
                    (length (tokenRows w)))),
      (set_tokenRows (filter (fun r => serverId r <> sid) (tokenRows w)) w).
    split; [reflexivity|].
    assert (Hnone : find (fun r => String.eqb (serverId r) sid)
                      (filter (fun r => serverId r <> sid) (tokenRows w))
                    = None).
    { apply find_filter_none. intros x Hx%String.eqb_eq. tauto. }
    split; [|split; [|split; [|split]]].
    + rewrite filter_shrinks. split; intros (r & Hr & Hn); exists r;
        (split; [done|]); [by destruct (decide (serverId r = sid)) | tauto].
    + unfold getTokenByServerId, mbind, M_bind, get. cbn [tokenRows set_tokenRows].
      by rewrite Hnone.
    + unfold hasValidToken, getTokenByServerId, mbind, M_bind, get.
      cbn [tokenRows set_tokenRows]. by rewrite Hnone.
    + intros sid' Hne. cbn [tokenRows set_tokenRows].
      apply find_filter_other. intros x Hx%String.eqb_eq. congruence.
    + done.
  - exists (negb (Nat.eqb
                    (length (filter (fun r => c_serverId r <> sid)
                               (configRows w)))
                    (length (configRows w)))),
      (set_configRows (filter (fun r => c_serverId r <> sid) (configRows w)) w).
    split; [reflexivity|].
    assert (Hnone : find (fun r => String.eqb (c_serverId r) sid)
                      (filter (fun r => c_serverId r <> sid) (configRows w))
                    = None).
    { apply find_filter_none. intros x Hx%String.eqb_eq. tauto. }
    split; [|split; [|split; [|split]]].
    + rewrite filter_shrinks. split; intros (r & Hr & Hn); exists r;
        (split; [done|]); [by destruct (decide (c_serverId r = sid)) | tauto].
    + unfold getConfigByServerId, mbind, M_bind, get.
      cbn [configRows set_configRows]. by rewrite Hnone.
    + unfold hasOAuthConfig, mbind, M_bind, get.
      cbn [configRows set_configRows].
      assert (Hnil : filter (fun r => c_serverId r = sid)
                       (filter (fun r => c_serverId r <> sid) (configRows w))
                     = []).
      { clear Hnone. induction (configRows w) as [|r l IH]; [done|].
        rewrite (filter_cons _ r).
        destruct (decide (c_serverId r <> sid)); [|exact IH].
        by rewrite filter_cons, decide_False. }
      by rewrite Hnil.
    + intros sid' Hne. cbn [configRows set_configRows].
      apply find_filter_other. intros x Hx%String.eqb_eq. congruence.
    + done.
Qed.

(** X14: When the key file holds another key than the one a row was sealed
    with, the two lookups part ways: [getConfigByServerId] returns, and hands
    out the stored ciphertext as the client secret, while [getTokenByServerId]
    throws. *)
Theorem key_mismatch_reads w k0 k' sid :
  keyFile w = Some k0 -> length k0 = KEY_LENGTH -> k' <> k0 ->
  (forall row iv p,
     find (fun r => String.eqb (c_serverId r) sid) (configRows w) = Some row ->
     c_clientSecret row = Some (Sealed k' iv p) ->
     getConfigByServerId sid w = (Ok (Some row), w))
  /\ (forall row iv p,
        find (fun r => String.eqb (serverId r) sid) (tokenRows w) = Some row ->
        accessToken row = Sealed k' iv p ->
        getTokenByServerId sid w = (Throw "Failed to decrypt OAuth data", w)).
Proof.
  intros Hw Hlen Hne.
  assert (Hkey : getEncryptionKey w = (Ok k0, w))
    by (by apply getEncryptionKey_keyed).
  split.
  - intros row iv p Hfind Hsecret.
    unfold getConfigByServerId, mbind, M_bind at 1. unfold get at 1.
    rewrite Hfind. unfold mapRowToConfig, decryptOAuthConfig. rewrite Hsecret.
    cbn [nonempty]. unfold mbind, M_bind, try_catch, decryptOAuthData.
    cbn [nonempty negb]. unfold mbind, M_bind. rewrite Hkey.
    rewrite decide_False by done. cbn. rewrite <- Hsecret. by destruct row.
  - intros row iv p Hfind Haccess.
    unfold getTokenByServerId, mbind, M_bind at 1. unfold get at 1.
    rewrite Hfind. unfold mapRowToToken. rewrite Haccess.
    unfold mbind, M_bind, decryptOAuthData.
    cbn [nonempty negb]. unfold mbind, M_bind. rewrite Hkey.
    by rewrite decide_False.
Qed.

Lemma key_mismatch_reads_witness :
  getConfigByServerId "S" rekeyed_world = (Ok (Some orphan_config), rekeyed_world)
  /\ getTokenByServerId "S" rekeyed_world
     = (Throw "Failed to decrypt OAuth data", rekeyed_world).
Proof.
  destruct (key_mismatch_reads rekeyed_world zero_key lost_key "S" eq_refl
              eq_refl ltac:(discriminate)) as [Hc Ht].
  split.
  - exact (Hc orphan_config [] (Plain "client-secret-1") eq_refl eq_refl).
  - exact (Ht orphan_token [] (Plain "access-1") eq_refl eq_refl).
Defined.

(** X15: The three expiry tests: a token [isTokenExpired] calls expired is one
    [shouldRefreshToken] wants refreshed, and a token [hasValidToken] rejects
    is one [isTokenExpired] calls expired; the converse fails at one instant,
    the expiry time itself, where [hasValidToken] still accepts a token that
    [isTokenExpired] calls expired. *)
Theorem expiry_tests t now :
  (isTokenExpired t now = true -> shouldRefreshToken t now = true)
  /\ (unexpired t now = false -> isTokenExpired t now = true)
  /\ (isTokenExpired t now = true /\ unexpired t now = true
      <-> expiresAt t = Some now /\ now <> 0%Z).
Proof.
  unfold isTokenExpired, shouldRefreshToken, unexpired, present_num,
    DEFAULT_EXPIRY_BUFFER.
  destruct (expiresAt t) as [e|]; cbn [negb andb].
  2:{ split; [done|]. split; [done|]. split; [by intros [? ?] | by intros [? ?]]. }
  destruct (Z.eqb_spec e 0) as [->|He]; cbn [negb andb].
  { split; [done|]. split; [done|].
    split; [by intros [? ?] | intros [[= <-] ?]; done]. }
  destruct (Z.leb_spec e now) as [Hle|Hgt],
    (Z.ltb_spec e now) as [Hlt|Hge],
    (Z.leb_spec e (now + 300 * 1000)) as [Hb|Hb];
    cbn [negb]; try lia.
  - split; [done|]. split; [done|]. split; [by intros [? ?]|].
    intros [[= ->] ?]. lia.
  - split; [done|]. split; [done|]. split; [|done].
    intros _. split; [f_equal; lia | lia].
  - split; [done|]. split; [done|]. split; [by intros [? ?]|].
    intros [[= ->] ?]. lia.
  - split; [done|]. split; [done|]. split; [by intros [? ?]|].
    intros [[= ->] ?]. lia.
Qed.

End RepositoryEdgeFacts.

Section BackupFacts.
Import OAuthTypes OAuthStore BackupAdmin.

(** X16: A backup that is refused leaves the store as it was: [restoreBackup]
    throws, both tables, the key file and the backup files are untouched, and
    the only trace is the error entry at the end of the audit log. *)
Theorem restoreBackup_refused path options w :
  refused path options w ->
  exists msg w',
    restoreBackup path options w = (Throw msg, w')
    /\ configRows w' = configRows w
    /\ tokenRows w' = tokenRows w
    /\ keyFile w' = keyFile w
    /\ files w' = files w
    /\ last (auditLogs w')
       = Some (mkLog CONFIGURATION_CHANGED "error" "backup_restore_failed").
Proof.
  unfold refused, bad_checksum. intros Href.
  assert (Hlog : forall msg w0,
            (logSecurityEvent
               (mkLog CONFIGURATION_CHANGED "error" "backup_restore_failed");;
             @throw (nat * nat) msg) w0
            = (Throw msg,
               exec (logSecurityEvent
                       (mkLog CONFIGURATION_CHANGED "error"
                          "backup_restore_failed")) w0)) by done.
  assert (Hlast : forall w0,
            last (auditLogs
                    (exec (logSecurityEvent
                             (mkLog CONFIGURATION_CHANGED "error"
                                "backup_restore_failed")) w0))
            = Some (mkLog CONFIGURATION_CHANGED "error" "backup_restore_failed")).
  { intros w0. unfold exec, logSecurityEvent, modify. cbn [snd auditLogs set_auditLogs].
    destruct (N.ltb 10000 _) eqn:E.
    - apply N.ltb_lt in E. rewrite length_app in *. simpl in *.
      rewrite drop_app_le by lia. rewrite last_snoc. done.
    - by rewrite last_snoc. }
  unfold restoreBackup, try_catch.
  unfold mbind, M_bind at 1. unfold get at 1.
  destruct (files w !! path) as [[b|pw salt iv b]|] eqn:Hfile.
  - unfold mbind, M_bind at 1. cbn [mret M_ret].
    unfold mbind, M_bind at 1. cbn [mret M_ret].
    unfold mbind, M_bind at 1.
    destruct Href as [-> Hsum]. rewrite bool_decide_eq_false_2 by done.
    cbn [andb negb throw]. rewrite Hlog. eexists _, _. split; [done|].
    by rewrite Hlast.
  - unfold mbind, M_bind at 1. cbn [mret M_ret].
    unfold mbind, M_bind at 1.
    destruct (truthy (r_password options)) eqn:Hpw.
    + unfold decryptBackup.
      destruct (String.eqb_spec pw (str_or (r_password options) "")) as [Heq|Hne].
      * destruct Href as [?|[?|[-> Hsum]]]; try done.
        cbn [mret M_ret]. unfold mbind, M_bind at 1.
        rewrite bool_decide_eq_false_2 by done.
        cbn [andb negb throw]. rewrite Hlog. eexists _, _. split; [done|].
        by rewrite Hlast.
      * cbn [throw]. rewrite Hlog. eexists _, _. split; [done|].
        by rewrite Hlast.
    + cbn [throw]. rewrite Hlog. eexists _, _. split; [done|].
      by rewrite Hlast.
  - unfold mbind, M_bind at 1. cbn [throw]. rewrite Hlog.
    eexists _, _. split; [done|]. by rewrite Hlast.
Qed.

Lemma restoreBackup_refused_witness :
  exists msg w',
    restoreBackup "/tmp/backup.json" (mkRestoreOptions true (Some "wrong") true)
      with_backup_file
    = (Throw msg, w')
    /\ tokenRows w' = tokenRows with_backup_file.
Proof.
  assert (H : refused "/tmp/backup.json"
                (mkRestoreOptions true (Some "wrong") true) with_backup_file).
  { unfold refused, with_backup_file. cbn [files set_files].
    rewrite lookup_singleton_eq. right. left. discriminate. }
  destruct (restoreBackup_refused _ _ _ H) as (msg & w' & E & _ & Ht & _).
  by exists msg, w'.
Defined.

Lemma later_first_total : Total later_first.
Proof. intros a b. unfold later_first. lia. Qed.

Lemma later_first_trans : Transitive later_first.
Proof. intros a b c. unfold later_first. lia. Qed.

(** Two entries of a history with unique ids that share an id are the
    same entry. *)
Lemma same_id (l : list BackupHistory) a b :
  NoDup (map h_id l) -> a ∈ l -> b ∈ l -> h_id a = h_id b -> a = b.
Proof.
  induction l as [|x l IH]; intros Hnd Ha Hb Hid; [by inversion Ha|].
  apply NoDup_cons in Hnd as [Hx Hnd].
  apply elem_of_cons in Ha as [->|Ha]; apply elem_of_cons in Hb as [->|Hb].
  - done.
  - destruct Hx. rewrite Hid. by apply (list_elem_of_fmap_2 h_id).
  - destruct Hx. rewrite <- Hid. by apply (list_elem_of_fmap_2 h_id).
  - by apply IH.
Qed.

(** In a history with unique ids, taking out the first entry with the id
    of [x] takes out [x] and nothing else. *)
Lemma remove_first_spec l x h :
  NoDup (map h_id l) -> x ∈ l ->
  h ∈ remove_first (h_id x) l <-> h ∈ l /\ h <> x.
Proof.
  induction l as [|y l IH]; intros Hnd Hx; [by inversion Hx|].
  pose proof Hnd as Hnd'. apply NoDup_cons in Hnd' as [Hy Hndl].
  cbn [remove_first]. destruct (String.eqb_spec (h_id y) (h_id x)) as [Heq|Hne].
  - assert (y = x) as ->.
    { apply (same_id (y :: l)); [done | by left | done | done]. }
    rewrite elem_of_cons. split.
    + intros Hh. split; [by right|]. intros ->.
      apply Hy. by apply (list_elem_of_fmap_2 h_id).
    + intros [[->|Hh] Hne]; done.
  - apply elem_of_cons in Hx as [->|Hx]; [done|].
    rewrite !elem_of_cons, (IH Hndl Hx). split.
    + intros [->|[Hh Hhx]]; [|by auto]. split; [by left|]. by intros ->.
    + intros [[->|Hh] Hhx]; [by left | by right].
Qed.

Lemma remove_first_NoDup id l :
  NoDup (map h_id l) -> NoDup (map h_id (remove_first id l)).
Proof.
  induction l as [|y l IH]; intros Hnd; [done|].
  apply NoDup_cons in Hnd as [Hy Hndl]. cbn [remove_first].
  destruct (String.eqb (h_id y) id); [done|].
  cbn [map]. apply NoDup_cons. split; [|by apply IH].
  intros (z & Hz & Hin)%list_elem_of_fmap_1. apply Hy.
  rewrite Hz. apply (list_elem_of_fmap_2 h_id).
  clear -Hin. induction l as [|a l IHl]; [by inversion Hin|].
  cbn [remove_first] in Hin. destruct (String.eqb (h_id a) id).
  - by right.
  - apply elem_of_cons in Hin as [->|Hin]; [by left | right; by apply IHl].
Qed.

Lemma delete_old_backup_spec x w :
  delete_old_backup x w
  = (Ok tt,
     match files w !! h_path x with
     | None =>
         set_backupHistory (remove_first (h_id x) (backupHistory w)) w
     | Some _ =>
         if fsFaults w (fsCalls w) then set_fsCalls (S (fsCalls w)) w
         else set_backupHistory (remove_first (h_id x) (backupHistory w))
                (set_files (delete (h_path x) (files w))
                   (set_fsCalls (S (fsCalls w)) w))
     end).
Proof.
  unfold delete_old_backup, try_catch, mbind, M_bind, get, unlinkSync,
    fs_call, mbind, M_bind.
  destruct (files w !! h_path x) as [d|] eqn:Hf.
  - rewrite bool_decide_eq_true_2 by eauto.
    by destruct (fsFaults w (fsCalls w)).
  - rewrite bool_decide_eq_false_2; [done|]. by intros [? ?].
Qed.

(** The loop of [cleanupOldBackups] over entries [xs] of the history. *)
Lemma cleanup_loop xs : forall w,
  NoDup (map h_id (backupHistory w)) -> NoDup xs ->
  (forall x, x ∈ xs -> x ∈ backupHistory w) ->
  exists w',
    for_each xs delete_old_backup w = (Ok tt, w')
    /\ (forall h, h ∈ backupHistory w' -> h ∈ backupHistory w)
    /\ (forall h, h ∈ backupHistory w -> h ∉ xs -> h ∈ backupHistory w')
    /\ (forall x, x ∈ xs -> x ∉ backupHistory w' ->
          files w' !! h_path x = None)
    /\ (forall x, x ∈ xs -> x ∈ backupHistory w' ->
          exists i, fsCalls w <= i < fsCalls w' /\ fsFaults w i = true)
    /\ (forall p, files w' !! p = files w !! p
                  \/ (files w' !! p = None
                      /\ exists x, x ∈ xs /\ (x ∉ backupHistory w')
                                   /\ h_path x = p))
    /\ NoDup (map h_id (backupHistory w'))
    /\ fsFaults w' = fsFaults w /\ fsCalls w <= fsCalls w'
    /\ configRows w' = configRows w /\ tokenRows w' = tokenRows w
    /\ keyFile w' = keyFile w.
Proof.
  induction xs as [|x xs IH]; intros w Hnd Hxs Hin.
  - exists w. split; [done|]. split; [done|]. split; [done|].
    split; [by intros x Hx; inversion Hx|].
    split; [by intros x Hx; inversion Hx|].
    split; [by left|]. done.
  - cbn [for_each]. unfold mbind, M_bind at 1.
    rewrite delete_old_backup_spec.
    apply NoDup_cons in Hxs as [Hx Hxs].
    assert (Hxw : x ∈ backupHistory w) by (apply Hin; by left).
    set (w1 := match files w !! h_path x with None => _ | Some _ => _ end).
    assert (Hw1 :
      fsFaults w1 = fsFaults w /\ fsCalls w <= fsCalls w1
      /\ configRows w1 = configRows w /\ tokenRows w1 = tokenRows w
      /\ keyFile w1 = keyFile w
      /\ ((backupHistory w1 = backupHistory w
           /\ files w1 = files w
           /\ fsFaults w (fsCalls w) = true /\ fsCalls w1 = S (fsCalls w))
          \/ (backupHistory w1 = remove_first (h_id x) (backupHistory w)
              /\ files w1 = delete (h_path x) (files w)))).
    { subst w1. destruct (files w !! h_path x) as [d|] eqn:Hf.
      - destruct (fsFaults w (fsCalls w)) eqn:Hfault.
        + cbn. repeat split; try done; try lia. left. by repeat split.
        + cbn. repeat split; try done; try lia. by right.
      - cbn. repeat split; try done. right. split; [done|].
        by rewrite delete_id. }
    clearbody w1.
    destruct Hw1 as (Hff & Hfc & Hc1 & Ht1 & Hk1 & Hcase).
    assert (Hbh1 : forall h, h ∈ backupHistory w1 -> h ∈ backupHistory w).
    { intros h. destruct Hcase as [(-> & _)|(-> & _)]; [done|].
      rewrite remove_first_spec by done. tauto. }
    assert (Hnd1 : NoDup (map h_id (backupHistory w1))).
    { destruct Hcase as [(-> & _)|(-> & _)]; [done|].
      by apply remove_first_NoDup. }
    assert (Hrest : forall h, h ∈ backupHistory w -> h <> x ->
              h ∈ backupHistory w1).
    { intros h Hh Hne. destruct Hcase as [(-> & _)|(-> & _)]; [done|].
      by apply remove_first_spec. }
    destruct (IH w1 Hnd1 Hxs) as
      (w' & E & Hsub & Hkeep & Hgone & Hfault & Hfiles & Hnd' & Hff' & Hfc'
       & Hc & Ht & Hk).
    { intros y Hy. apply Hrest; [apply Hin; by right|]. by intros ->. }
    exists w'. split; [exact E|].
    split; [intros h Hh; by apply Hbh1, Hsub|].
    split.
    { intros h Hh Hout. apply not_elem_of_cons in Hout as [Hne Hout].
      apply Hkeep; [by apply Hrest | done]. }
    split.
    { intros y Hy Hout. apply elem_of_cons in Hy as [->|Hy];
        [|by apply Hgone].
      destruct Hcase as [(Hb & _)|(_ & Hf)].
      - destruct Hout. apply Hkeep; [by rewrite Hb | done].
      - destruct (Hfiles (h_path x)) as [Heq|[Heq _]]; [|done].
        rewrite Heq, Hf. apply lookup_delete_eq. }
    split.
    { intros y Hy Hstay. apply elem_of_cons in Hy as [->|Hy].
      - destruct Hcase as [(_ & _ & Hflt & Hcalls)|(Hb & _)].
        + exists (fsCalls w). split; [lia | done].
        + apply Hsub in Hstay. rewrite Hb in Hstay.
          apply remove_first_spec in Hstay as [_ ?]; done.
      - destruct (Hfault y Hy Hstay) as (i & Hi & Hflt).
        exists i. rewrite <- Hff. split; [lia | done]. }
    split.
    { intros p. destruct (Hfiles p) as [Heq|(Hnone & y & Hy & Hout & Hp)].
      - destruct Hcase as [(_ & Hf & _)|(Hb & Hf)].
        + left. by rewrite Heq, Hf.
        + destruct (decide (p = h_path x)) as [->|Hne].
          * right. split; [rewrite Heq, Hf; apply lookup_delete_eq|].
            exists x. split; [by left|]. split; [|done].
            intros Hstay. apply Hsub in Hstay. rewrite Hb in Hstay.
            apply remove_first_spec in Hstay as [_ ?]; done.
          * left. rewrite Heq, Hf. by apply lookup_delete_ne.
      - right. split; [done|]. exists y. split; [by right | done]. }
    split; [done|].
    split; [congruence|]. split; [lia|]. split; [congruence|].
    split; congruence.
Qed.

(** X17: [cleanupOldBackups(n)] on a history with unique ids never throws:
    an [unlinkSync] that throws is caught.  Manual backups and the [n] most
    recent automatic ones stay in the history.  An entry that goes is one
    of the older automatic ones, none of them more recent than any of the
    [n] that stay, and its file is gone; an older automatic backup stays
    only when the deletion of a file threw, so that without such an error
    the history is left with [n] automatic backups, or all of them if
    there were fewer.  A file is deleted only if it is the file of an
    entry that goes, and the tables and the key file are untouched. *)
Theorem cleanupOldBackups_keeps_newest w n :
  NoDup (map h_id (backupHistory w)) ->
  let aged := by_age (backupHistory w) in
  exists w',
    cleanupOldBackups n w = (Ok tt, w')
    /\ aged ≡ₚ automatic (backupHistory w)
    /\ (forall a b, a ∈ take n aged -> b ∈ drop n aged ->
          (h_timestamp b <= h_timestamp a)%Z)
    /\ (forall h, h ∈ backupHistory w' -> h ∈ backupHistory w)
    /\ (forall h, h ∈ backupHistory w -> h_automatic h = false ->
          h ∈ backupHistory w')
    /\ (forall h, h ∈ take n aged -> h ∈ backupHistory w')
    /\ (forall h, h ∈ backupHistory w -> h ∉ backupHistory w' ->
          h ∈ drop n aged /\ files w' !! h_path h = None)
    /\ (forall h, h ∈ drop n aged -> h ∈ backupHistory w' ->
          exists i, fsCalls w <= i < fsCalls w' /\ fsFaults w i = true)
    /\ ((forall i, fsCalls w <= i -> fsFaults w i = false) ->
          length (automatic (backupHistory w'))
          = min n (length (automatic (backupHistory w))))
    /\ (forall p, files w' !! p = files w !! p
                  \/ (files w' !! p = None
                      /\ exists h, h ∈ backupHistory w
                                   /\ (h ∉ backupHistory w')
                                   /\ h_path h = p))
    /\ configRows w' = configRows w /\ tokenRows w' = tokenRows w
    /\ keyFile w' = keyFile w.
Proof.
  intros Hnd aged.
  assert (Hperm : aged ≡ₚ automatic (backupHistory w))
    by apply stable_sort_Permutation.
  assert (Hlen : length aged = length (automatic (backupHistory w)))
    by (by rewrite Hperm).
  assert (Hsorted : StronglySorted later_first (take n aged ++ drop n aged)).
  { rewrite take_drop.
    apply (stable_sort_StronglySorted later_first _ later_first_trans
             later_first_total). }
  assert (Hin_aged : forall h, h ∈ aged
            <-> h ∈ backupHistory w /\ h_automatic h = true).
  { intros h. rewrite Hperm. unfold automatic. rewrite list_elem_of_filter.
    tauto. }
  assert (Hnd_aged : NoDup aged).
  { rewrite Hperm. unfold automatic. apply NoDup_filter.
    by apply (NoDup_fmap_1 h_id). }
  assert (Hsplit : forall h, h ∈ aged <-> h ∈ take n aged \/ h ∈ drop n aged).
  { intros h. by rewrite <- (take_drop n aged) at 1; rewrite elem_of_app. }
  assert (Hdisj : forall h, h ∈ take n aged -> h ∈ drop n aged -> False).
  { rewrite <- (take_drop n aged) in Hnd_aged.
    apply NoDup_app in Hnd_aged as (_ & H & _). exact H. }
  assert (Hloop : cleanupOldBackups n w
                  = for_each (drop n aged) delete_old_backup w).
  { unfold cleanupOldBackups. unfold mbind, M_bind at 1. unfold get at 1.
    fold (automatic (backupHistory w)). fold (by_age (backupHistory w)).
    fold aged. destruct (Nat.ltb_spec n (length aged)) as [Hlt|Hge]; [done|].
    by rewrite drop_ge. }
  destruct (cleanup_loop (drop n aged) w Hnd)
    as (w' & E & Hsub & Hkeep & Hgone & Hfault & Hfiles & Hnd' & Hff & Hfc
        & Hc & Ht & Hk).
  { rewrite <- (take_drop n aged) in Hnd_aged.
    by apply NoDup_app in Hnd_aged as (_ & _ & ?). }
  { intros x Hx. apply Hin_aged, Hsplit. by right. }
  exists w'. split; [by rewrite Hloop|]. split; [exact Hperm|].
  split.
  { intros a b Ha Hb.
    exact (StronglySorted_app_1_elem_of _ _ _ _ _ Hsorted Ha Hb). }
  split; [exact Hsub|].
  split.
  { intros h Hh Hman. apply Hkeep; [done|]. intros Hd.
    assert (Ha : h ∈ aged) by (apply Hsplit; by right).
    apply Hin_aged in Ha as [_ Ha]. congruence. }
  split.
  { intros h Hh. apply Hkeep.
    - apply Hin_aged, Hsplit. by left.
    - intros Hd. by apply (Hdisj h). }
  assert (Hgoes : forall h, h ∈ backupHistory w -> h ∉ backupHistory w' ->
            h ∈ drop n aged).
  { intros h Hh Hout.
    destruct (decide (h_id h ∈ map h_id (drop n aged))) as [Hi|Hni].
    - apply list_elem_of_fmap_1 in Hi as (x & Hid & Hx).
      assert (x ∈ backupHistory w) by (apply Hin_aged, Hsplit; by right).
      by rewrite (same_id (backupHistory w) h x Hnd Hh H Hid).
    - destruct Hout. apply Hkeep; [done|]. intros Hd. apply Hni.
      by apply (list_elem_of_fmap_2 h_id). }
  split.
  { intros h Hh Hout. pose proof (Hgoes h Hh Hout) as Hd.
    split; [done | by apply Hgone]. }
  split; [exact Hfault|].
  split.
  { intros Hok. rewrite <- Hlen.
    assert (Hn : length (take n aged) = min n (length aged))
      by apply length_take.
    rewrite <- Hn. apply Permutation_length. apply NoDup_Permutation.
    - unfold automatic. apply NoDup_filter.
      by apply (NoDup_fmap_1 h_id).
    - rewrite <- (take_drop n aged) in Hnd_aged.
      by apply NoDup_app in Hnd_aged as (? & _ & _).
    - intros h. unfold automatic. rewrite list_elem_of_filter. split.
      + intros [Ha Hh]. assert (Hag : h ∈ aged).
        { apply Hin_aged. split; [by apply Hsub | done]. }
        apply Hsplit in Hag as [?|Hd]; [done|].
        destruct (Hfault h Hd Hh) as (i & Hi & Hflt).
        rewrite Hok in Hflt by lia. done.
      + intros Htake. split.
        * assert (Hag : h ∈ aged) by (apply Hsplit; by left).
          by apply Hin_aged in Hag as [_ ?].
        * apply Hkeep; [apply Hin_aged, Hsplit; by left|].
          intros Hd. by apply (Hdisj h). }
  split; [|done].
  intros p. destruct (Hfiles p) as [?|(Hnone & x & Hx & Hout & Hp)];
    [by left|].
  right. split; [done|]. exists x. split; [|done].
  apply Hin_aged, Hsplit. by right.
Qed.

Lemma cleanupOldBackups_keeps_newest_witness :
  exists w',
    cleanupOldBackups 1 stored_backups = (Ok tt, w')
    /\ length (automatic (backupHistory w')) = 1.
Proof.
  assert (H : NoDup (map h_id (backupHistory stored_backups))).
  { apply (bool_decide_unpack _). by vm_compute. }
  destruct (cleanupOldBackups_keeps_newest stored_backups 1 H)
    as (w' & E & _ & _ & _ & _ & _ & _ & _ & Hlen & _).
  exists w'. split; [exact E|]. by apply Hlen.
Defined.

(** With the files on disk and no deletion throwing, the older automatic
    backup goes, and its file with it. *)
Lemma cleanupOldBackups_deletes_the_older :
  result (cleanupOldBackups 1) stored_backups = Ok tt
  /\ map h_id (backupHistory (exec (cleanupOldBackups 1) stored_backups))
     = ["b2"; "b3"]
  /\ files (exec (cleanupOldBackups 1) stored_backups)
       !! "/b/auto-backup-1.json" = None.
Proof. by vm_compute. Qed.

(** With the files on disk and every deletion throwing, the oldest
    automatic backup stays in the history, and so does its file. *)
Lemma cleanupOldBackups_keeps_what_it_cannot_delete :
  result (cleanupOldBackups 1) locked_backups = Ok tt
  /\ backupHistory (exec (cleanupOldBackups 1) locked_backups)
     = backupHistory locked_backups
  /\ files (exec (cleanupOldBackups 1) locked_backups)
     = files locked_backups.
Proof. by vm_compute. Qed.

End BackupFacts.

Section AuthStateFacts.
Import OAuthTypes OAuthStore OAuthRepo AuthStates.

Lemma filter_all {A} (P : A -> Prop) `{forall x, Decision (P x)} (l : list A) :
  Forall P l -> filter P l = l.
Proof.
  induction 1 as [|x l' Hx _ IH]; [done|].
  by rewrite filter_cons, decide_True, IH.
Qed.

Lemma authRows_lift {A} (m : M A) s : authRows (snd (lift m s)) = authRows s.
Proof. unfold lift. by destruct (m (store s)). Qed.

(** Whatever it returns, [getAndDeleteAuthState] leaves the table without
    the rows of the state. *)
Lemma getAndDeleteAuthState_rows state s :
  authRows (snd (getAndDeleteAuthState state s))
  = filter (fun r => a_state (ar_columns r) <> state) (authRows s).
Proof.
  unfold getAndDeleteAuthState.
  unfold mbind, F_bind at 1. unfold read at 1.
  destruct (find _ (authRows s)) as [row|] eqn:Hfind.
  - unfold mbind, F_bind at 1. unfold update at 1.
    set (s1 := set_authRows _ s).
    unfold mbind, F_bind.
    pose proof (authRows_lift (decrypt_opt (a_codeVerifier (ar_columns row)))
                  s1) as Hl.
    by destruct (lift _ s1) as [[v|msg] s2].
  - cbn [snd mret F_ret]. symmetry. apply filter_all, Forall_forall.
    intros r Hr Hs.
    destruct (find_in (fun r => String.eqb (a_state (ar_columns r)) state)
                (authRows s) r Hr) as (y & Hy & _); [by apply String.eqb_eq|].
    congruence.
Qed.

(** X18: A state is handed out by the table at most once: whatever the first
    [getAndDeleteAuthState] does, return the state, return [null] or throw on
    a verifier that does not decrypt, the second one returns [null]; the rows
    of other states stay where they are. *)
Theorem auth_state_single_use state s :
  let s' := snd (getAndDeleteAuthState state s) in
  getAndDeleteAuthState state s' = (Ok None, s')
  /\ (forall r, r ∈ authRows s' <->
                r ∈ authRows s /\ a_state (ar_columns r) <> state).
Proof.
  intros s'. pose proof (getAndDeleteAuthState_rows state s) as Hrows.
  fold s' in Hrows. split.
  - unfold getAndDeleteAuthState, mbind, F_bind, read. rewrite Hrows.
    rewrite find_filter_none; [done|]. intros x Hx%String.eqb_eq. tauto.
  - intros r. rewrite Hrows, list_elem_of_filter. tauto.
Qed.

Lemma existsb_false {A} (f : A -> bool) (l : list A) :
  Forall (fun x => f x = false) l -> existsb f l = false.
Proof. induction 1 as [|x l' Hx _ IH]; simpl; [done | by rewrite Hx]. Qed.

(** X19: A state that [initiateAuthFlow] has stored is accepted twice by
    [validateAuthState]: once from the map, which leaves the row of the table
    in place, and once more from the table; only the third call returns
    [null]. *)
Theorem auth_state_accepted_twice k s a :
  keyFile (store s) = Some k -> length k = KEY_LENGTH ->
  Forall (fun r => a_state (ar_columns r) <> a_state a
                   /\ ar_id r <> "uuid-" +:+ pretty (nextUuid (store s)))
    (authRows s) ->
  exists s1 s2 s3,
    store_auth_state a s = (Ok tt, s1)
    /\ validateAuthState (a_state a) s1 = (Ok (Some a), s2)
    /\ validateAuthState (a_state a) s2
       = (Ok (Some (mkAuthState (a_serverId a) (a_state a)
                      (kept (a_codeVerifier a)) (a_codeChallenge a)
                      (a_redirectUri a) (a_scopes a) (clock (store s)))), s3)
    /\ validateAuthState (a_state a) s3 = (Ok None, s3).
Proof.
  intros Hw Hk Hfresh.
  assert (Hid : existsb (fun r => String.eqb (ar_id r)
                                    ("uuid-" +:+ pretty (nextUuid (store s))))
                  (authRows s) = false).
  { apply existsb_false. eapply Forall_impl; [exact Hfresh|].
    intros r [_ Hr]. by apply String.eqb_neq. }
  assert (Hst : Forall (fun r => String.eqb (a_state (ar_columns r)) (a_state a)
                                 = false) (authRows s)).
  { eapply Forall_impl; [exact Hfresh|].
    intros r [Hr _]. by apply String.eqb_neq. }
  unfold store_auth_state.
  unfold mbind, F_bind at 1. unfold update at 1.
  set (s0 := set_authStateMap _ s).
  unfold saveAuthState.
  unfold mbind, F_bind at 1. unfold lift at 1. cbn [uuidv4 store s0 set_authStateMap].
  unfold mbind, F_bind at 1. unfold lift at 1. cbn [get store set_store].
  unfold mbind, F_bind at 1. unfold lift at 1. cbn [store set_store].
  set (w1 := OAuthStore.set_nextUuid _ (store s)).
  assert (H1 : keyFile w1 = Some k) by done.
  destruct (encrypt_opt_column k Hk w1 (a_codeVerifier a) H1)
    as (v & n & -> & Hv).
  unfold mbind, F_bind at 1. unfold read at 1.
  cbn [authRows set_store s0 set_authStateMap].
  rewrite Hid, (existsb_false _ _ Hst). unfold update.
  cbn [set_authRows store authRows authStateMap set_store].
  set (row := mkAuthRow _ _).
  set (w2 := set_drawn n w1). assert (H2 : keyFile w2 = Some k) by done.
  set (m1 := <[a_state a := a]> (authStateMap s)).
  set (s1 := mkFlow w2 (authRows s ++ [row]) m1).
  set (s2 := mkFlow w2 (authRows s ++ [row]) (delete (a_state a) m1)).
  set (s3 := mkFlow w2
               (filter (fun r => a_state (ar_columns r) <> a_state a)
                  (authRows s ++ [row])) (delete (a_state a) m1)).
  exists s1, s2, s3. split; [reflexivity|]. split; [|split].
  - unfold validateAuthState, mbind, F_bind, read, update.
    cbn [authStateMap s1]. unfold m1. rewrite lookup_insert_eq. reflexivity.
  - unfold validateAuthState.
    unfold mbind, F_bind at 1. unfold read at 1.
    cbn [authStateMap s2]. rewrite lookup_delete_eq.
    unfold getAndDeleteAuthState.
    unfold mbind, F_bind at 1. unfold read at 1.
    cbn [authRows s2].
    rewrite (find_snoc_none _ _ row (find_none _ _ Hst)).
    cbn [row ar_columns a_state]. rewrite String.eqb_refl.
    unfold mbind, F_bind at 1. unfold update at 1.
    unfold mbind, F_bind at 1. unfold lift at 1.
    cbn [store set_authRows s2].
    change (a_codeVerifier (ar_columns row)) with v.
    rewrite (decrypt_opt_column k Hk w2 (a_codeVerifier a) v H2 Hv).
    reflexivity.
  - unfold validateAuthState.
    unfold mbind, F_bind at 1. unfold read at 1.
    cbn [authStateMap s3]. rewrite lookup_delete_eq.
    unfold getAndDeleteAuthState, mbind, F_bind, read.
    cbn [authRows s3].
    rewrite find_filter_none; [done|]. intros x Hx%String.eqb_eq. tauto.
Qed.

Lemma auth_state_accepted_twice_witness :
  exists s1 s2 s3,
    store_auth_state new_state new_flow = (Ok tt, s1)
    /\ validateAuthState "state-1" s1 = (Ok (Some new_state), s2)
    /\ validateAuthState "state-1" s2 = (Ok (Some new_state), s3).
Proof.
  destruct (auth_state_accepted_twice zero_key new_flow new_state eq_refl
              eq_refl (Forall_nil_2 _))
    as (s1 & s2 & s3 & E1 & E2 & E3 & _).
  exists s1, s2, s3. split; [exact E1|]. split; [exact E2 | exact E3].
Defined.

End AuthStateFacts.

Section SecurityFacts.
Import Security.

(** X20: Within one window the first call is always allowed, and after it as
    many calls as the limit leaves: call number [i] (from 0) of a window is
    allowed exactly when [i = 0] or [i < limit]; every verdict names the end
    of the window, which the first call fixes, and the calls still free. *)
Theorem rate_limit_window s key limit windowMs t0 u0 rest :
  (forall tr, rateLimitTracking s !! key = Some tr -> (resetTime tr < t0)%Z) ->
  Forall (fun c => (c.1 <= t0 + windowMs)%Z) rest ->
  forall i v,
    checks s key limit windowMs ((t0, u0) :: rest) !! i = Some v ->
    allowed v = Nat.eqb i 0 || Z.ltb (Z.of_nat i) limit
    /\ v_resetTime v = (t0 + windowMs)%Z
    /\ remaining v = (if allowed v then limit - (Z.of_nat i + 1) else 0)%Z.
Proof.
  intros Hnew Hwin.
  (* after the first call, the tracking counts the calls let through *)
  assert (Hrest : forall rest' s' j,
            Forall (fun c => (c.1 <= t0 + windowMs)%Z) rest' ->
            (1 <= j)%Z ->
            rateLimitTracking s' !! key
            = Some (mkTracking (Z.min j (Z.max 1 limit)) (t0 + windowMs)) ->
            forall i v, checks s' key limit windowMs rest' !! i = Some v ->
              allowed v = Z.ltb (j + Z.of_nat i) limit
              /\ v_resetTime v = (t0 + windowMs)%Z
              /\ remaining v
                 = (if allowed v then limit - (j + Z.of_nat i + 1) else 0)%Z).
  { induction rest' as [|[now uuid] rest' IH]; intros s' j Hw Hj Htr i v Hv;
      [done|].
    apply Forall_cons in Hw as [Hnow Hw]. cbn [fst] in Hnow.
    cbn [checks] in Hv. unfold checkRateLimit in Hv. rewrite Htr in Hv.
    cbn [resetTime count] in Hv.
    destruct (Z.ltb_spec (t0 + windowMs) now) as [?|_]; [lia|].
    destruct (Z.leb_spec limit (Z.min j (Z.max 1 limit))) as [Hfull|Hfree].
    - destruct i as [|i]; cbn in Hv.
      + injection Hv as <-. cbn [allowed v_resetTime remaining].
        rewrite Z.add_0_r. destruct (Z.ltb_spec j limit); [lia|done].
      + specialize (IH (logSecurityEvent s'
                          (mkEvent RATE_LIMIT_EXCEEDED None "warning") now uuid)
                      (j + 1)%Z Hw ltac:(lia)).
        destruct (IH ltac:(cbn [logSecurityEvent rateLimitTracking];
                           rewrite Htr; do 2 f_equal; lia) i v Hv)
          as (Ha & Hr & Hm).
        replace (j + Z.of_nat (S i))%Z with (j + 1 + Z.of_nat i)%Z by lia.
        done.
    - destruct i as [|i]; cbn in Hv.
      + injection Hv as <-. cbn [allowed v_resetTime remaining].
        rewrite Z.add_0_r. destruct (Z.ltb_spec j limit); [|lia].
        split; [done|]. split; [done|]. lia.
      + specialize (IH (mkSecurity (auditLogs s')
                          (<[key := mkTracking (Z.min j (Z.max 1 limit) + 1)
                                      (t0 + windowMs)]> (rateLimitTracking s')))
                      (j + 1)%Z Hw ltac:(lia)).
        destruct (IH ltac:(cbn [rateLimitTracking]; rewrite lookup_insert_eq;
                           do 2 f_equal; lia) i v Hv)
          as (Ha & Hr & Hm).
        replace (j + Z.of_nat (S i))%Z with (j + 1 + Z.of_nat i)%Z by lia.
        done. }
  intros i v Hv. cbn [checks] in Hv.
  assert (Hfirst : checkRateLimit s key limit windowMs t0 u0
                   = (mkVerdict true (limit - 1) (t0 + windowMs),
                      mkSecurity (auditLogs s)
                        (<[key := mkTracking 1 (t0 + windowMs)]>
                           (rateLimitTracking s)))).
  { unfold checkRateLimit. destruct (rateLimitTracking s !! key) as [tr|] eqn:E;
      [|done].
    specialize (Hnew tr eq_refl).
    by destruct (Z.ltb_spec (resetTime tr) t0); [|lia]. }
  rewrite Hfirst in Hv. destruct i as [|i]; cbn in Hv.
  - injection Hv as <-. cbn [allowed v_resetTime remaining Nat.eqb orb].
    split; [done|]. split; [done|]. lia.
  - cbn [Nat.eqb orb].
    destruct (Hrest rest
                (mkSecurity (auditLogs s)
                   (<[key := mkTracking 1 (t0 + windowMs)]>
                      (rateLimitTracking s)))
                1%Z Hwin ltac:(lia)
                ltac:(cbn [rateLimitTracking]; rewrite lookup_insert_eq;
                      do 2 f_equal; lia) i v Hv) as (Ha & Hr & Hm).
    replace (Z.of_nat (S i)) with (1 + Z.of_nat i)%Z by lia. done.
Qed.

Lemma rate_limit_window_witness :
  exists v,
    checks (mkSecurity [] ∅) "auth:S" 2 1000
      [(0%Z, "u0"); (10%Z, "u1"); (20%Z, "u2")] !! 2 = Some v
    /\ allowed v = false.
Proof.
  exists (mkVerdict false 0 1000). split; [reflexivity|].
  assert (H1 : forall tr,
            rateLimitTracking (mkSecurity [] ∅) !! "auth:S" = Some tr ->
            (resetTime tr < 0)%Z).
  { intros tr H. cbn in H. rewrite lookup_empty in H. discriminate. }
  assert (H2 : Forall (fun c : Z * string => (c.1 <= 0 + 1000)%Z)
                 [(10%Z, "u1"); (20%Z, "u2")]).
  { repeat constructor; cbn; lia. }
  exact (proj1 (rate_limit_window (mkSecurity [] ∅) "auth:S" 2 1000 0 "u0"
                  [(10%Z, "u1"); (20%Z, "u2")] H1 H2 2
                  (mkVerdict false 0 1000) eq_refl)).
Defined.

Lemma log_all_snoc s events e :
  log_all s (events ++ [e])
  = logSecurityEvent (log_all s events) e.1.1 e.1.2 e.2.
Proof. unfold log_all. by rewrite foldl_app. Qed.

(** X21: The audit log in memory is always the tail of everything that was
    logged: entries leave only from the old end, the log never grows past
    10000 entries, and the 5000 most recent entries are always there. *)
Theorem audit_log_keeps_recent s events :
  let s' := log_all s events in
  let full := auditLogs s ++ map entry_of events in
  (exists n, n <= length full /\ auditLogs s' = drop n full)
  /\ (N.min 5000 (N.of_nat (length full)) <= N.of_nat (length (auditLogs s')))%N
  /\ (N.of_nat (length (auditLogs s'))
      <= N.max 10000 (N.of_nat (length (auditLogs s))))%N
  /\ (events <> [] -> (N.of_nat (length (auditLogs s')) <= 10000)%N)
  /\ rateLimitTracking s' = rateLimitTracking s.
Proof.
  induction events as [|e events IH] using rev_ind; cbn zeta.
  - cbn [log_all foldl map]. rewrite app_nil_r.
    split; [exists 0; split; [lia | done]|]. repeat split; try lia. done.
  - cbn zeta in IH. destruct IH as ((n & Hn & Hlogs) & Hlow & Hhigh & _ & Hrl).
    rewrite log_all_snoc, map_app, app_assoc. cbn [map].
    set (full := auditLogs s ++ map entry_of events) in *.
    set (s1 := log_all s events) in *.
    unfold logSecurityEvent. cbn [auditLogs rateLimitTracking].
    change (mkEntry e.2 e.1.2 e.1.1) with (entry_of e).
    assert (Hsnoc : auditLogs s1 ++ [entry_of e]
                    = drop n (full ++ [entry_of e])).
    { rewrite Hlogs. by rewrite drop_app_le. }
    assert (Hl1 : length (auditLogs s1) = length full - n)
      by (by rewrite Hlogs, length_drop).
    assert (Hfull : length (full ++ [entry_of e]) = length full + 1)
      by (by rewrite length_app).
    rewrite (length_app (auditLogs s1)). cbn [length].
    destruct (N.ltb_spec 10000 (N.of_nat (length (auditLogs s1) + 1)))
      as [Hbig|Hsmall].
    + rewrite Hsnoc, drop_drop, length_drop, Hfull.
      split; [|split; [|split; [|split]]]; [|lia|lia|lia|done].
      eexists. split; [|done]. lia.
    + rewrite (length_app (auditLogs s1)). cbn [length].
      split; [|split; [|split; [|split]]]; [|lia|lia|lia|done].
      exists n. split; [lia | done].
Qed.

End SecurityFacts.

Section RefreshTimerFacts.
Import OAuthTypes TokenManager RefreshTimers.

Lemma tidy_cancel s sid : tidy s -> tidy (cancelTokenRefresh s sid).
Proof.
  intros (Harmed & Hown & Hmap & Hfresh). unfold cancelTokenRefresh.
  destruct (tokenRefreshTimers s !! sid) as [h0|] eqn:E; [|done].
  split; [|split; [|split]]; cbn [armed tokenRefreshTimers nextHandle].
  - intros h t [Hne Ht]%lookup_delete_Some.
    rewrite lookup_delete_ne; [by apply Harmed|].
    intros Heq. apply Harmed in Ht. rewrite <- Heq in Ht. congruence.
  - intros sid' h t [_ H]%lookup_delete_Some [_ Ht]%lookup_delete_Some.
    by eapply Hown.
  - intros sid' h [_ H]%lookup_delete_Some. by eapply Hmap.
  - intros h t [_ H]%lookup_delete_Some. by eapply Hfresh.
Qed.

(** A cancel disarms the timer of the server and no other. *)
Lemma cancel_armed s sid h t :
  tidy s ->
  armed (cancelTokenRefresh s sid) !! h = Some t
  <-> armed s !! h = Some t /\ tm_serverId t <> sid.
Proof.
  intros (Harmed & Hown & _ & _). unfold cancelTokenRefresh.
  destruct (tokenRefreshTimers s !! sid) as [h0|] eqn:E.
  - cbn [armed]. rewrite lookup_delete_Some. split.
    + intros [Hne Ht]. split; [done|].
      intros Heq. apply Harmed in Ht. rewrite Heq in Ht. congruence.
    + intros [Ht Hne]. split; [|done].
      intros <-. by apply Hne, (Hown sid h0 t).
  - split; [|tauto]. intros Ht. split; [done|].
    intros Heq. apply Harmed in Ht. rewrite Heq in Ht. congruence.
Qed.

Lemma cancel_map s sid :
  tokenRefreshTimers (cancelTokenRefresh s sid) = delete sid (tokenRefreshTimers s)
  /\ nextHandle (cancelTokenRefresh s sid) = nextHandle s.
Proof.
  unfold cancelTokenRefresh.
  destruct (tokenRefreshTimers s !! sid) as [h0|] eqn:E; [done|].
  split; [|done]. by rewrite delete_id.
Qed.

(** X22: [scheduleTokenRefresh] leaves the server with one armed timer or
    none, never two: whatever was armed for it is cleared, and a new timer
    is set exactly when the token has an expiry time and a refresh token
    and [shouldRefreshToken] does not hold yet.  When the time left until
    [shouldRefreshToken] holds is at most [TIMEOUT_MAX], the timer runs
    after exactly that time; when it is longer, Node runs the timer after
    1 ms, when the refresh is not due yet.  The timers of other servers are
    not touched. *)
Theorem scheduleTokenRefresh_arms s sid token now :
  tidy s ->
  let s' := scheduleTokenRefresh s sid token now in
  let due := (default 0 (expiresAt token)
              - DEFAULT_EXPIRY_BUFFER * 1000 - now)%Z in
  tidy s'
  /\ (forall h t,
        armed s' !! h = Some t /\ tm_serverId t = sid
        <-> present_num (expiresAt token) = true
            /\ present (refreshToken token) = true
            /\ shouldRefreshToken token now = false
            /\ h = nextHandle s
            /\ t = mkTimer (timeout_after due) sid token)
  /\ (forall h t, armed s' !! h = Some t -> tm_serverId t = sid ->
        ((due <= TIMEOUT_MAX)%Z ->
         forall d, shouldRefreshToken token (now + d) = Z.leb (tm_after t) d)
        /\ ((TIMEOUT_MAX < due)%Z ->
            tm_after t = 1%Z
            /\ shouldRefreshToken token (now + tm_after t) = false))
  /\ (forall h t, tm_serverId t <> sid ->
        (armed s' !! h = Some t <-> armed s !! h = Some t)).
Proof.
  intros Htidy s' due. subst s' due. unfold scheduleTokenRefresh.
  pose proof (tidy_cancel s sid Htidy) as Hc.
  pose proof (fun h t => cancel_armed s sid h t Htidy) as Hca.
  destruct (cancel_map s sid) as [Hcm Hcn].
  set (s1 := cancelTokenRefresh s sid) in *.
  assert (Hnone : forall h t, armed s1 !! h = Some t -> tm_serverId t = sid ->
                    False).
  { intros h t Ht Hs. apply Hca in Ht. tauto. }
  assert (Hshould : present_num (expiresAt token) = true ->
            forall d, shouldRefreshToken token (now + d)
                      = Z.leb (default 0 (expiresAt token)
                               - DEFAULT_EXPIRY_BUFFER * 1000 - now)%Z d).
  { unfold present_num, shouldRefreshToken.
    destruct (expiresAt token) as [e|]; [|done]. cbn [default].
    destruct (Z.eqb_spec e 0); [done|]. intros _ d.
    unfold DEFAULT_EXPIRY_BUFFER. change (Datatypes.id e) with e.
    destruct (Z.leb_spec e (now + d + 300 * 1000)),
      (Z.leb_spec (e - 300 * 1000 - now) d); lia. }
  destruct (present_num (expiresAt token)) eqn:He; cbn [negb orb].
  2:{ split; [done|]. split; [|split].
      - intros h t. split; [intros [Ht Hs]; by destruct (Hnone h t)|].
        by intros (? & _).
      - intros h t Ht Hs. by destruct (Hnone h t).
      - intros h t Hne. rewrite Hca. tauto. }
  destruct (present (refreshToken token)) eqn:Hr; cbn [negb].
  2:{ split; [done|]. split; [|split].
      - intros h t. split; [intros [Ht Hs]; by destruct (Hnone h t)|].
        by intros (_ & ? & _).
      - intros h t Ht Hs. by destruct (Hnone h t).
      - intros h t Hne. rewrite Hca. tauto. }
  specialize (Hshould eq_refl).
  set (refreshTime := (default 0 (expiresAt token)
                       - DEFAULT_EXPIRY_BUFFER * 1000)%Z) in *.
  pose proof (Hshould 0%Z) as H0. rewrite Z.add_0_r in H0.
  destruct (Z.ltb_spec 0 (Z.max (refreshTime - now) 0)) as [Hpos|Hnot].
  - assert (Hd : Z.max (refreshTime - now) 0 = (refreshTime - now)%Z) by lia.
    rewrite Hd.
    assert (H0' : shouldRefreshToken token now = false).
    { rewrite H0. apply Z.leb_gt. lia. }
    destruct Hc as (Harmed & Hown & Hmap & Hfresh).
    split; [|split; [|split]].
    + split; [|split; [|split]];
        cbn [armed tokenRefreshTimers nextHandle].
      * intros h t [[<- <-]|[Hne Ht]]%lookup_insert_Some.
        -- cbn [tm_serverId]. by rewrite lookup_insert_eq.
        -- rewrite lookup_insert_ne; [by apply Harmed|].
           intros Heq. by destruct (Hnone h t).
      * intros sid' h t Hm Ht.
        apply lookup_insert_Some in Hm. apply lookup_insert_Some in Ht.
        destruct Hm as [[<- <-]|[Hne Hm]], Ht as [[Heq <-]|[Hne' Ht]];
          [done | done | apply Hmap in Hm; lia | by eapply Hown].
      * intros sid' h [[<- <-]|[Hne Hm]]%lookup_insert_Some; [lia|].
        apply Hmap in Hm. lia.
      * intros h t [[<- <-]|[Hne Ht]]%lookup_insert_Some; [lia|].
        apply Hfresh in Ht. lia.
    + intros h t. cbn [armed]. rewrite lookup_insert_Some, Hcn. split.
      * intros [[[<- <-]|[Hne Ht]] Hs]; [done|]. by destruct (Hnone h t).
      * intros (_ & _ & _ & -> & ->). split; [by left | done].
    + intros h t. cbn [armed].
      intros [[_ <-]|[Hne Ht]]%lookup_insert_Some Hs;
        [|by destruct (Hnone h t)].
      cbn [tm_after]. unfold timeout_after, TIMEOUT_MAX.
      destruct (Z.ltb_spec 2147483647 (refreshTime - now)) as [Hbig|Hsmall];
        cbn [orb].
      * split; [lia|]. intros _. split; [done|].
        rewrite Hshould. apply Z.leb_gt. lia.
      * destruct (Z.ltb_spec (refreshTime - now) 1) as [Hlow|_]; [lia|].
        split; [|lia]. intros _ d. apply Hshould.
    + intros h t Hne. cbn [armed]. rewrite lookup_insert_Some, Hca. split.
      * intros [[_ <-]|[_ Ht]]; [done | tauto].
      * intros Ht. right. split; [|done].
        intros <-. destruct Htidy as (_ & _ & _ & Hf).
        apply Hf in Ht. lia.
  - assert (H0' : shouldRefreshToken token now = true).
    { rewrite H0. apply Z.leb_le. lia. }
    split; [done|]. split; [|split].
    + intros h t. split; [intros [Ht Hs]; by destruct (Hnone h t)|].
      intros (_ & _ & ? & _). congruence.
    + intros h t Ht Hs. by destruct (Hnone h t).
    + intros h t Hne. rewrite Hca. tauto.
Qed.

Lemma scheduleTokenRefresh_arms_witness :
  tidy no_timers
  /\ armed (scheduleTokenRefresh no_timers "S" OAuthStore.new_token
              1700000000000) !! 0
     = Some (mkTimer 3300000 "S" OAuthStore.new_token)
  /\ armed (scheduleTokenRefresh no_timers "S" long_lived 1700000000000) !! 0
     = Some (mkTimer 1 "S" long_lived).
Proof.
  assert (Ht : tidy no_timers).
  { repeat split; intros; cbn in *; rewrite lookup_empty in *; discriminate. }
  split; [exact Ht|]. split.
  - destruct (scheduleTokenRefresh_arms no_timers "S" OAuthStore.new_token
                1700000000000 Ht) as (_ & Harm & _).
    exact (proj1 (proj2 (Harm 0 (mkTimer 3300000 "S" OAuthStore.new_token))
                    (conj eq_refl (conj eq_refl (conj eq_refl
                       (conj eq_refl eq_refl)))))).
  - destruct (scheduleTokenRefresh_arms no_timers "S" long_lived
                1700000000000 Ht) as (_ & Harm & _).
    exact (proj1 (proj2 (Harm 0 (mkTimer 1 "S" long_lived))
                    (conj eq_refl (conj eq_refl (conj eq_refl
                       (conj eq_refl eq_refl)))))).
Defined.

End RefreshTimerFacts.

Section OAuthFetchFacts.
Import OAuthFetch.

Lemma attempt_spec env maxRetries init : forall fuel retryCount k sent,
  length sent = retryCount ->
  Z.of_nat fuel = (maxRetries + 1 - Z.of_nat retryCount)%Z ->
  (0 < fuel) ->
  let '(response, sent') := attempt fuel env maxRetries init retryCount k sent in
  exists more,
    sent' = sent ++ more
    /\ 1 <= length more <= fuel
    /\ (forall i h, more !! i = Some h ->
          h = inject env (retryCount + i) init)
    /\ (exists h, last more = Some h
                  /\ response = respond env (retryCount + length more - 1) h)
    /\ (forall i h, more !! i = Some h -> S i < length more ->
          status (respond env (retryCount + i) h) = 401%Z
          /\ truthy (refreshed env (k + i)) = true)
    /\ (status response = 401%Z ->
          length more = fuel
          \/ truthy (refreshed env (k + length more - 1)) = false).
Proof.
  induction fuel as [|fuel IH]; intros retryCount k sent Hlen Hfuel Hpos;
    [lia|].
  cbn [attempt].
  destruct (Z.leb_spec (Z.of_nat retryCount) maxRetries) as [_|?]; [|lia].
  rewrite Hlen.
  set (h0 := inject env retryCount init).
  set (r0 := respond env retryCount h0).
  assert (Hstop : exists more,
            sent ++ [h0] = sent ++ more
            /\ 1 <= length more <= S fuel
            /\ (forall i h, more !! i = Some h ->
                  h = inject env (retryCount + i) init)
            /\ (exists h, last more = Some h
                  /\ r0 = respond env (retryCount + length more - 1) h)
            /\ (forall i h, more !! i = Some h -> S i < length more ->
                  status (respond env (retryCount + i) h) = 401%Z
                  /\ truthy (refreshed env (k + i)) = true)).
  { exists [h0]. split; [done|]. split; [simpl; lia|]. split; [|split].
    - intros i h Hi. destruct i as [|i]; simpl in Hi; [|done].
      injection Hi as <-. by rewrite Nat.add_0_r.
    - exists h0. split; [done|]. simpl.
      by replace (retryCount + 1 - 1) with retryCount by lia.
    - intros i h _ Hi. simpl in Hi. lia. }
  destruct (Z.eqb_spec (status r0) 401) as [H401|Hok]; cbn [andb].
  2:{ destruct Hstop as (more & ? & ? & ? & ? & ?). exists more.
      split; [done|]. split; [done|]. split; [done|]. split; [done|].
      split; [done|]. intros H401. by destruct Hok. }
  destruct (Z.ltb_spec (Z.of_nat retryCount) maxRetries) as [Hlt|Hlast].
  2:{ destruct Hstop as (more & -> & Hl & ? & ? & ?). exists more.
      split; [done|]. split; [done|]. split; [done|]. split; [done|].
      split; [done|]. intros _. left.
      (* the last round: the fuel is one *)
      assert (fuel = 0) by lia. subst fuel.
      lia. }
  destruct (truthy (refreshed env k)) eqn:Href.
  2:{ destruct Hstop as (more & Hm & Hl & ? & ? & ?). exists more.
      split; [done|]. split; [done|]. split; [done|]. split; [done|].
      split; [done|]. intros _. right.
      apply app_inv_head in Hm. subst more. simpl.
      by replace (k + 1 - 1) with k by lia. }
  clear Hstop.
  specialize (IH (S retryCount) (S k) (sent ++ [h0])).
  rewrite length_app in IH. simpl in IH.
  specialize (IH ltac:(lia) ltac:(lia) ltac:(lia)).
  destruct (attempt fuel env maxRetries init (S retryCount) (S k)
              (sent ++ [h0])) as [response sent'].
  destruct IH as (more & -> & Hl & Hinj & (h & Hlast & Hresp) & Hearlier & Hend).
  exists (h0 :: more). split; [by rewrite <- app_assoc|].
  split; [simpl; lia|]. split; [|split; [|split]].
  - intros [|i] x Hx; simpl in Hx.
    + injection Hx as <-. by rewrite Nat.add_0_r.
    + rewrite (Hinj i x Hx). f_equal. lia.
  - exists h. split.
    + destruct more; [simpl in Hl; lia | done].
    + rewrite Hresp. f_equal. simpl. lia.
  - intros [|i] x Hx Hi; simpl in Hx, Hi.
    + injection Hx as <-. rewrite !Nat.add_0_r. done.
    + destruct (Hearlier i x Hx ltac:(lia)) as [H1 H2].
      replace (retryCount + S i) with (S retryCount + i) by lia.
      replace (k + S i) with (S k + i) by lia. done.
  - intros H. destruct (Hend H) as [Hfull|Hno].
    + left. simpl. lia.
    + right. rewrite <- Hno. cbn [length]. do 2 f_equal. lia.
Qed.

(** X23: With [maxRetries] at least zero, [oauthFetch] sends between one and
    [maxRetries + 1] requests, each with the headers of a fresh call of
    [injectToken]: the fetch without OAuth headers that stands behind the loop
    is never reached. It returns the answer to the last request; every earlier
    request was answered with 401 and followed by a refresh that returned a
    token; and a 401 is returned only when the retries are used up or the
    refresh returned nothing. *)
Theorem oauthFetch_retries env maxRetries init :
  (0 <= maxRetries)%Z ->
  let '(response, sent) := oauthFetch env maxRetries init in
  (1 <= Z.of_nat (length sent) <= maxRetries + 1)%Z
  /\ (forall i h, sent !! i = Some h -> h = inject env i init)
  /\ (exists h, last sent = Some h
                /\ response = respond env (length sent - 1) h)
  /\ (forall i h, sent !! i = Some h -> S i < length sent ->
        status (respond env i h) = 401%Z
        /\ truthy (refreshed env i) = true)
  /\ (status response = 401%Z ->
        Z.of_nat (length sent) = (maxRetries + 1)%Z
        \/ truthy (refreshed env (length sent - 1)) = false).
Proof.
  intros Hmax. unfold oauthFetch.
  pose proof (attempt_spec env maxRetries init (Z.to_nat (maxRetries + 1))
                0 0 [] eq_refl ltac:(lia) ltac:(lia)) as H.
  destruct (attempt _ env maxRetries init 0 0 []) as [response sent].
  destruct H as (more & -> & Hl & Hinj & Hlast & Hearlier & Hend).
  cbn [app]. split; [lia|]. split; [exact Hinj|]. split; [exact Hlast|].
  split; [exact Hearlier|].
  intros H. destruct (Hend H) as [?|?]; [left; lia | by right].
Qed.

Lemma oauthFetch_retries_witness :
  exists response sent,
    oauthFetch stubborn 1 ∅ = (response, sent)
    /\ (1 <= Z.of_nat (length sent) <= 1 + 1)%Z
    /\ forall i h, sent !! i = Some h -> h = inject stubborn i ∅.
Proof.
  pose proof (oauthFetch_retries stubborn 1 ∅ ltac:(lia)) as H.
  destruct (oauthFetch stubborn 1 ∅) as [response sent].
  exists response, sent. split; [reflexivity|].
  split; [exact (proj1 H) | exact (proj1 (proj2 H))].
Defined.

End OAuthFetchFacts.

Section OAuthServiceFacts.
Import OAuthTypes OAuthStore OAuthRepo RefreshTimers OAuthService.

(** X24: An import never brings a client secret and never loses one: the
    secret saved is the one the server had, or none; the row keeps its id,
    while its creation time is replaced by the time of the import. The
    imported client id is taken unless it is empty. *)
Theorem importConfiguration_keeps_secret k w sid imported existing :
  length k = KEY_LENGTH -> keyFile w = Some k ->
  getConfigByServerId sid w = (Ok existing, w) ->
  (forall e, existing = Some e -> truthy (c_id e) = true) ->
  exists c' w',
    importConfiguration sid imported w = (Ok c', w')
    /\ c_clientSecret c' = existing ≫= c_clientSecret
    /\ (forall e, existing = Some e -> c_id c' = c_id e)
    /\ c_clientId c' = str_or (i_clientId imported)
                         (str_or (c_clientId <$> existing) "")
    /\ c_tokenEndpoint c' = i_tokenEndpoint imported
    /\ c_createdAt c' = Some (clock w)
    /\ c_serverId c' = sid
    /\ getConfigByServerId sid w' = (Ok (Some c'), w').
Proof.
  intros Hk Hw Hget Hid. unfold importConfiguration.
  unfold mbind at 1. unfold M_bind at 1. rewrite Hget.
  unfold mbind at 1. unfold M_bind at 1.
  rewrite (row_id_spec (existing ≫= c_id) w).
  set (w1 := set_nextUuid _ w). assert (H1 : keyFile w1 = Some k) by done.
  set (c := mkConfig _ _ _ _ _ _ _).
  destruct (saveConfig_spec k Hk w1 c H1) as (w' & -> & Hget' & _).
  eexists _, w'. split; [reflexivity|]. cbn [c_clientSecret c_id c_clientId
    c_tokenEndpoint c_createdAt c_serverId c].
  split; [done|]. split; [|split; [done|split; [done|split; [done|split; [done|]]]]].
  - intros e ->. cbn [mbind option_bind]. specialize (Hid e eq_refl).
    unfold row_id. cbn [truthy str_or]. unfold row_id. cbn.
    destruct (c_id e) as [x|]; [|done]. cbn in Hid |- *.
    destruct (String.eqb_spec x ""); [done|]. cbn.
    by destruct (String.eqb_spec x "").
  - exact Hget'.
Qed.

Lemma importConfiguration_keeps_secret_witness :
  exists c' w',
    importConfiguration "S"
      (mkImported (Some "client-2") (Some (Plain "imported-secret")) None)
      configured_keyed
    = (Ok c', w')
    /\ c_clientSecret c' = Some (Plain "client-secret-1")
    /\ c_clientId c' = "client-2".
Proof.
  destruct (importConfiguration_keeps_secret zero_key configured_keyed "S"
              (mkImported (Some "client-2") (Some (Plain "imported-secret"))
                 None)
              (Some (mkConfig (Some "uuid-0") "S" "client-1"
                       (Some (Plain "client-secret-1"))
                       (Some "https://idp.example/token")
                       (Some 1700000000000%Z) (Some 1700000000000%Z)))
              eq_refl eq_refl eq_refl)
    as (c' & w' & E & Hs & _ & Hc & _).
  { by intros e [= <-]. }
  exists c', w'. split; [exact E|]. split; [exact Hs | exact Hc].
Defined.

(** Reading a token or a configuration writes nothing but the key file,
    the count of random bytes drawn and the count of file-system calls,
    in any world. *)
Section Reads.
Variable P : World -> Prop.
Hypothesis P_drawn : forall w n, P w -> P (set_drawn n w).
Hypothesis P_keyFile : forall w k, P w -> P (set_keyFile k w).
Hypothesis P_fsCalls : forall w n, P w -> P (set_fsCalls n w).

Lemma reads_getEncryptionKey : stable P getEncryptionKey.
Proof.
  intros w Hw. unfold exec.
  destruct (getEncryptionKey_cases w) as [(k0 & _ & ->)|(_ & ->)];
    [done|]. rewrite generate_key_spec. cbn [snd].
  destruct (fsFaults w (fsCalls w));
    [|apply P_keyFile]; by apply P_fsCalls, P_drawn.
Qed.

Lemma reads_decryptOAuthData c : stable P (decryptOAuthData c).
Proof.
  unfold decryptOAuthData. destruct (nonempty c); cbn [negb];
    [|apply stable_ret].
  apply stable_bind; [apply reads_getEncryptionKey|]. intros key.
  destruct c as [s|k' iv p]; [apply stable_throw|].
  destruct (decide (k' = key)); [apply stable_ret | apply stable_throw].
Qed.

Lemma reads_decrypt_opt o : stable P (decrypt_opt o).
Proof.
  unfold decrypt_opt. destruct o as [t|]; [|apply stable_ret].
  destruct (nonempty t); [|apply stable_ret].
  apply stable_bind; [apply reads_decryptOAuthData|].
  intros p. apply stable_ret.
Qed.

Lemma reads_getTokenByServerId sid : stable P (getTokenByServerId sid).
Proof.
  unfold getTokenByServerId. apply stable_bind; [apply stable_get|].
  intros rows. destruct (find _ rows) as [row|]; [|apply stable_ret].
  apply stable_bind; [|intros t; apply stable_ret].
  unfold mapRowToToken.
  apply stable_bind; [apply reads_decryptOAuthData|]. intros a.
  apply stable_bind; [apply reads_decrypt_opt|]. intros r.
  apply stable_bind; [apply reads_decrypt_opt|]. intros i.
  apply stable_ret.
Qed.

End Reads.

(** X25: [revokeToken] deletes the token of a server only when the server has
    a configuration: without one it returns [false] (or throws, on a token
    that does not decrypt) and leaves the token row and the refresh timers as
    they are; with a token and a configuration that both read back, the timer
    of the server is cancelled, the token row is deleted and the result is
    [true]. *)
Theorem revokeToken_needs_config sid timers w :
  (find (fun r => String.eqb (c_serverId r) sid) (configRows w) = None ->
   forall r w' timers',
     revokeToken sid timers w = (r, (w', timers')) ->
     r <> Ok true /\ tokenRows w' = tokenRows w /\ timers' = timers)
  /\ (forall t c,
        getTokenByServerId sid w = (Ok (Some t), w) ->
        getConfigByServerId sid w = (Ok (Some c), w) ->
        exists w',
          revokeToken sid timers w
          = (Ok true, (w', cancelTokenRefresh timers sid))
          /\ getTokenByServerId sid w' = (Ok None, w')
          /\ configRows w' = configRows w).
Proof.
  split.
  - intros Hnone r w' timers'. unfold revokeToken.
    pose proof (reads_getTokenByServerId
                  (fun x => configRows x = configRows w
                            /\ tokenRows x = tokenRows w)
                  ltac:(by intros ? ? ?) ltac:(by intros ? ? ?)
                  ltac:(by intros ? ? ?) sid w
                  (conj eq_refl eq_refl)) as [Hc Ht].
    unfold exec in *.
    destruct (getTokenByServerId sid w) as [[token|msg] w1]; cbn [snd] in *.
    2:{ intros [= <- <- <-]. by repeat split. }
    assert (Hcfg : getConfigByServerId sid w1 = (Ok None, w1)).
    { unfold getConfigByServerId, mbind, M_bind, get. by rewrite Hc, Hnone. }
    rewrite Hcfg. destruct token; intros [= <- <- <-]; by repeat split.
  - intros t c Ht Hc. unfold revokeToken. rewrite Ht, Hc.
    unfold deleteToken, mbind, M_bind, get, modify. cbn [mret M_ret].
    exists (set_tokenRows
              (filter (fun r => serverId r <> sid) (tokenRows w)) w).
    split; [|split; [|done]].
    + f_equal. f_equal. apply filter_shrinks.
      unfold getTokenByServerId in Ht.
      unfold mbind, M_bind at 1 in Ht. unfold get at 1 in Ht.
      destruct (find _ (tokenRows w)) as [row|] eqn:Hfind; [|done].
      apply find_Some_true in Hfind as [Hs Hin]. exists row.
      split; [done|]. apply String.eqb_eq in Hs. tauto.
    + unfold getTokenByServerId, mbind, M_bind, get.
      cbn [tokenRows set_tokenRows].
      rewrite find_filter_none; [done|]. intros x Hx%String.eqb_eq. tauto.
Qed.

End OAuthServiceFacts.

Section MigrationFacts.
Import Migrations.

Lemma filter_none {A} (P : A -> Prop) `{forall x, Decision (P x)} (l : list A) :
  Forall (fun x => ~ P x) l -> filter P l = [].
Proof.
  induction 1 as [|x l' Hx _ IH]; [done|].
  by rewrite filter_cons, decide_False.
Qed.

Lemma run_loop_spec execute done_before : forall migrations db,
  NoDup migrations ->
  (forall m, m ∈ migrations -> m ∈ completed db -> m ∈ done_before) ->
  let pending := filter (fun m => m ∉ done_before) migrations in
  (Forall (fun m => execute m = None) pending ->
   run_loop execute done_before migrations db
   = (Ok tt, mkDatabase (completed db ++ pending) (executed db ++ pending)))
  /\ (forall before m msg after,
        pending = before ++ m :: after ->
        Forall (fun m => execute m = None) before ->
        execute m = Some msg ->
        run_loop execute done_before migrations db
        = (Throw msg,
           mkDatabase (completed db ++ before) (executed db ++ before ++ [m]))).
Proof.
  induction migrations as [|x migrations IH]; intros db Hnd Hfresh; cbn zeta.
  - cbn [filter list_filter run_loop]. rewrite !app_nil_r. split.
    + intros _. by destruct db.
    + intros before m msg after Hp. by destruct before.
  - apply NoDup_cons in Hnd as [Hx Hnd]. cbn [run_loop].
    rewrite filter_cons.
    destruct (decide (x ∉ done_before)) as [Hnew|Hold].
    + rewrite bool_decide_eq_false_2 by done.
      assert (Hnotin : x ∉ completed db).
      { intros Hin. apply Hnew. apply Hfresh; [left | done]. }
      destruct (execute x) as [err|] eqn:Hex.
      * split.
        -- intros Hall. apply Forall_cons in Hall as [Hx' _]. congruence.
        -- intros before m msg after Hp Hb Hm.
           destruct before as [|b before]; cbn [app] in Hp.
           ++ injection Hp as <- _. rewrite app_nil_r. cbn [app]. congruence.
           ++ injection Hp as <- _. apply Forall_cons in Hb as [Hb _].
              congruence.
      * cbn [completed]. rewrite bool_decide_eq_false_2 by done.
        cbn [executed].
        specialize (IH (mkDatabase (completed db ++ [x]) (executed db ++ [x]))
                      Hnd).
        destruct IH as [IHok IHfail].
        { cbn [completed]. intros m Hm [Hin| ->%list_elem_of_singleton]%elem_of_app.
          - apply Hfresh; [by right | done].
          - done. }
        cbn [completed executed] in IHok, IHfail. split.
        -- intros Hall. apply Forall_cons in Hall as [_ Hall].
           rewrite (IHok Hall). by rewrite <- !app_assoc.
        -- intros before m msg after Hp Hb Hm.
           destruct before as [|b before]; cbn [app] in Hp.
           ++ injection Hp as <- _. congruence.
           ++ injection Hp as <- Hp. apply Forall_cons in Hb as [_ Hb].
              rewrite (IHfail before m msg after Hp Hb Hm).
              by rewrite <- !app_assoc.
    + rewrite bool_decide_eq_true_2 by (by destruct (decide (x ∈ done_before))).
      apply IH; [done|]. intros m Hm. apply Hfresh. by right.
Qed.

(** X26: [runMigrations] executes the registered migrations that are not
    recorded yet, in registration order, and records each one after it has
    run: when none of them throws, all are recorded and a second run executes
    nothing; when one throws, the run ends with its error, the migrations
    before it are recorded and it is not, so that the next run starts again
    from it. A migration that is recorded is never executed again. *)
Theorem runMigrations_resumes execute migrations db :
  NoDup migrations ->
  let pending := filter (fun m => m ∉ completed db) migrations in
  (Forall (fun m => execute m = None) pending ->
   let db' := mkDatabase (completed db ++ pending) (executed db ++ pending) in
   runMigrations execute migrations db = (Ok tt, db')
   /\ runMigrations execute migrations db' = (Ok tt, db'))
  /\ (forall before m msg after,
        pending = before ++ m :: after ->
        Forall (fun m => execute m = None) before ->
        execute m = Some msg ->
        runMigrations execute migrations db
        = (Throw msg,
           mkDatabase (completed db ++ before) (executed db ++ before ++ [m]))).
Proof.
  intros Hnd. cbn zeta. unfold runMigrations.
  destruct (run_loop_spec execute (completed db) migrations db Hnd
              ltac:(done)) as [Hok Hfail].
  split; [|exact Hfail].
  intros Hall. split; [by apply Hok|].
  set (pending := filter (fun m => m ∉ completed db) migrations) in *.
  cbn [completed].
  destruct (run_loop_spec execute (completed db ++ pending) migrations
              (mkDatabase (completed db ++ pending) (executed db ++ pending))
              Hnd ltac:(done)) as [Hok' _].
  assert (Hnone : filter (fun m => m ∉ completed db ++ pending) migrations = []).
  { apply filter_none, Forall_forall. intros m Hm Hout. apply Hout.
    apply elem_of_app.
    destruct (decide (m ∈ completed db)); [by left | right].
    by apply list_elem_of_filter. }
  rewrite Hnone in Hok'. rewrite !app_nil_r in Hok'. by apply Hok'.
Qed.

Lemma runMigrations_resumes_witness :
  runMigrations third_fails three_migrations one_done
  = (Throw "no such table", mkDatabase ["m1"; "m2"] ["m1"; "m2"; "m3"]).
Proof.
  assert (Hnd : NoDup three_migrations).
  { apply (bool_decide_unpack _). by vm_compute. }
  assert (Hb : Forall (fun m => third_fails m = None) ["m2"]).
  { by repeat constructor. }
  exact (proj2 (runMigrations_resumes third_fails three_migrations one_done
                  Hnd) ["m2"] "m3" "no such table" [] eq_refl Hb eq_refl).
Defined.

End MigrationFacts.
